(** * PSn00bSDK dynamic linker (libpsn00b/psxetc/dl.c)

    A shallow embedding of the symbol map (parser and lookup) and of the
    module loader of [dl.c], and the properties of the design notes checked
    against it.

    Conventions.
    - [uint32_t] values are [Z] in [0, 2^32); every operation that can leave
      that range is followed by [u32].
    - A C string is a [string]; the first NUL byte (if any) ends it, as it
      does for the C code.  A plain [char] is signed, as it is for GCC on
      MIPS: [(uint32_t) *str] is the byte code for a byte below 0x80 and
      the byte code sign-extended to 32 bits for a byte of 0x80 or more.
    - Behaviour the C standard leaves undefined (a read or write outside an
      allocated block, a division by zero, a call through a null function
      pointer) is an explicit outcome [Undefined], never a value. *)

From Stdlib Require Import ZArith String Ascii List Lia Bool.
From stdpp Require Import base list.
Import ListNotations.

Local Open Scope Z_scope.

(** ** Machine integers *)

Definition u32 (x : Z) : Z := x mod 2 ^ 32.
Definition u64 (x : Z) : Z := x mod 2 ^ 64.

(** The value of a [uint32_t] converted to [int32_t]. *)
Definition s32 (x : Z) : Z := if x <? 2 ^ 31 then x else x - 2 ^ 32.

(** ** Outcomes of a C function *)

(** What the C standard leaves undefined and the code can run into. *)
Inductive UB : Type :=
| DivisionByZero   (* [x % 0] *)
| OutOfBounds      (* a read or write outside the block, or of a cell never written *)
| NullCall.        (* a call through a null function pointer *)

(** A call returns a value and leaves a state, or runs into undefined
    behaviour, or never returns. *)
Inductive outcome (S A : Type) : Type :=
| Return (a : A) (s : S)
| Undefined (u : UB)
| Diverges.

Arguments Return {S A} a s.
Arguments Undefined {S A} u.
Arguments Diverges {S A}.

(** ** Characters and C strings *)

Definition char_code (c : ascii) : Z := Z.of_N (N_of_ascii c).

Definition is_nul (c : ascii) : bool := char_code c =? 0.

(** The value of a plain [char], a signed type: a byte of 0x80 or more is a
    negative number. *)
Definition schar (c : ascii) : Z :=
  let n := char_code c in if n <? 128 then n else n - 256.

(** The characters of a C string: everything before the first NUL. *)
Fixpoint cstr (s : string) : string :=
  match s with
  | EmptyString => EmptyString
  | String c rest => if is_nul c then EmptyString else String c (cstr rest)
  end.

(** [isspace] and [toupper] of <ctype.h>, in the C locale. *)
Definition isspace (c : ascii) : bool :=
  let n := char_code c in (n =? 32) || ((9 <=? n) && (n <=? 13)).

Definition toupper (c : ascii) : ascii :=
  let n := char_code c in
  if (97 <=? n) && (n <=? 122) then ascii_of_N (Z.to_N (n - 32)) else c.

(** ** The hash function *)

Module Hash.

(** One turn of the [while] loop of [_elf_hash], on the character read. *)
Definition hash_round (value : Z) (c : ascii) : Z :=
  let value := u32 (Z.shiftl value 4) in
  let value := u32 (value + u32 (schar c)) in
  let nibble := Z.land value 0xf0000000 in
  let value := if nibble =? 0 then value
               else Z.lxor value (Z.shiftr nibble 24) in
  Z.land value (u32 (Z.lnot nibble)).

Fixpoint hash_from (value : Z) (str : string) : Z :=
  match str with
  | EmptyString => value
  | String c rest =>
      if is_nul c then value else hash_from (hash_round value c) rest
  end.

(** [static uint32_t _elf_hash(const char *str)]. *)
Definition _elf_hash (str : string) : Z := hash_from 0 str.

(** The hash as section 4.1 of the design words it: over the bytes of the
    string, with [h] a 32-bit quantity. *)
Definition pjw_step (h : Z) (b : Z) : Z :=
  let h := ((h * 16) + b) mod 2 ^ 32 in
  let nibble := Z.land h 0xF0000000 in
  let h := if Z.eqb nibble 0 then h else Z.lxor h (nibble / 2 ^ 24) in
  Z.land h (Z.lnot nibble).

Definition bytes_of (s : string) : list Z :=
  map char_code (list_ascii_of_string (cstr s)).

Definition pjw_hash (s : string) : Z := fold_left pjw_step (bytes_of s) 0.

End Hash.

(** ** The call [sscanf(&ptr[pos], "%63s %1s %Lx %x", ...)] *)

Module Scan.

(** White space skipped before a conversion and by a blank in the format. *)
Fixpoint skip_space (s : string) : string :=
  match s with
  | EmptyString => s
  | String c rest => if isspace c then skip_space rest else s
  end.

(** [%Ns] once leading white space is gone: at most [width] characters, up
    to the first white space; the token and what follows it. *)
Fixpoint scan_word (width : nat) (s : string) : string * string :=
  match width, s with
  | S w, String c rest =>
      if isspace c then (EmptyString, s)
      else let '(tok, r) := scan_word w rest in (String c tok, r)
  | _, _ => (EmptyString, s)
  end.

Definition hex_digit (c : ascii) : option Z :=
  let n := char_code c in
  if (48 <=? n) && (n <=? 57) then Some (n - 48)
  else if (97 <=? n) && (n <=? 102) then Some (n - 87)
  else if (65 <=? n) && (n <=? 70) then Some (n - 55)
  else None.

(** The run of hexadecimal digits at the head of [s]: its value ([None] when
    there is no digit) and the rest. *)
Fixpoint scan_digits (acc : option Z) (s : string) : option Z * string :=
  match s with
  | EmptyString => (acc, s)
  | String c rest =>
      match hex_digit c with
      | Some d => scan_digits (Some (default 0 acc * 16 + d)) rest
      | None => (acc, s)
      end
  end.

Definition scan_sign (s : string) : bool * string :=
  match s with
  | String "-"%char rest => (true, rest)
  | String "+"%char rest => (false, rest)
  | _ => (false, s)
  end.

Definition scan_0x (s : string) : string :=
  match s with
  | String "0"%char (String "x"%char rest) => rest
  | String "0"%char (String "X"%char rest) => rest
  | _ => s
  end.

(** [%x] and [%Lx]: white space, an optional sign, an optional [0x], then
    at least one hexadecimal digit.  The integer read, and the rest. *)
Definition scan_hex (s : string) : option (Z * string) :=
  let '(neg, s1) := scan_sign (skip_space s) in
  match scan_digits None (scan_0x s1) with
  | (Some v, rest) => Some (if neg : bool then - v else v, rest)
  | (None, _) => None
  end.

(** What the call leaves: the count it returns and the variables it set.
    [name], [type_string] and [address64] mean something only when the count
    says they were assigned. *)
Record Scanned : Type := mkScanned {
  parsed : Z;
  name : string;
  type_string : string;
  address64 : Z
}.

Definition EOF : Z := -1.

(** Modelled from the spec: the body of the C library's [sscanf] is not in
    the sources; the directives of the format string of the call are read as
    ISO C defines them ("Whitespace-separated; trailing tokens ignored").
    The input is the C string at [&ptr[pos]]; lines are not special: a line
    feed is white space like any other. *)
Definition sscanf (input : string) : Scanned :=
  match skip_space (cstr input) with
  | EmptyString => mkScanned EOF EmptyString EmptyString 0
  | s0 =>
      let '(nm, s1) := scan_word 63 s0 in
      match skip_space s1 with
      | EmptyString => mkScanned 1 nm EmptyString 0
      | s2 =>
          let '(ty, s3) := scan_word 1 s2 in
          match scan_hex s3 with
          | None => mkScanned 2 nm ty 0
          | Some (a, s4) =>
              match scan_hex s4 with
              | None => mkScanned 3 nm ty (u64 a)
              | Some _ => mkScanned 4 nm ty (u64 a)
              end
          end
      end
  end.

End Scan.

(** ** Error channel *)

Inductive ErrorCode : Type :=
| ERR_NONE
| ERR_FILE
| ERR_FILE_MALLOC
| ERR_FILE_READ
| ERR_NO_MAP
| ERR_MAP_MALLOC
| ERR_NO_SYMBOLS
| ERR_DLL_NULL
| ERR_DLL_MALLOC
| ERR_DLL_FORMAT
| ERR_NO_FILE_API
| ERR_MAP_SYMBOL
| ERR_DLL_SYMBOL.

(** ** The global symbol map *)

Module SymbolMap.

Record MapEntry : Type := mkEntry { hash : Z; ptr : Z }.

(** The globals of [dl.c].  A table is the contents of its block; a cell of
    the entry table that was never written is [None].  [_map_entry_table]
    is meaningful only while [_map_hash_table] is not null. *)
Record State : Type := mkState {
  _error_code : ErrorCode;
  _map_hash_table : option (list Z);
  _map_entry_table : list (option MapEntry)
}.

Definition initial : State := mkState ERR_NONE None [].

Definition set_error (code : ErrorCode) (st : State) : State :=
  mkState code (_map_hash_table st) (_map_entry_table st).

(** What [malloc] answers to the two requests of [DL_ParseSymbolMap]:
    whether each block is granted, and the indeterminate word the cells of a
    fresh hash table block hold. *)
Record Malloc : Type := mkMalloc {
  hash_table_granted : bool;
  entry_table_granted : bool;
  junk : Z
}.

Definition SENTINEL : Z := 0xffffffff.

(** [void DL_UnloadSymbolMap(void)]. *)
Definition DL_UnloadSymbolMap (st : State) : State :=
  match _map_hash_table st with
  | None => st
  | Some _ => mkState (_error_code st) None (_map_entry_table st)
  end.

(** The first loop: the number of line feeds among the [size] bytes. *)
Fixpoint count_newlines (text : string) : Z :=
  match text with
  | EmptyString => 0
  | String c rest =>
      (if char_code c =? 10 then 1 else 0) + count_newlines rest
  end.

(** The positions the second loop stops at, as the text from there on.
    [at_start] says whether the position reached begins a line: the [for]
    leaves at a NUL there, and otherwise runs the body and then moves past
    the next line feed. *)
Fixpoint line_starts (at_start : bool) (text : string) : list string :=
  match text with
  | EmptyString => []
  | String c rest =>
      if at_start && is_nul c then []
      else (if at_start then [text] else [])
             ++ line_starts (char_code c =? 10) rest
  end.

(** Number of [uint32_t] (resp. [MapEntry]) cells in the blocks requested,
    the byte counts being computed in [size_t]. *)
Definition hash_table_cells (nbucket entries : Z) : Z :=
  u32 (4 * (2 + nbucket + entries)) / 4.

Definition entry_table_cells (entries : Z) : Z := u32 (8 * entries) / 8.

(** The header and the fill loop, on a fresh block of [cells] cells. *)
Definition init_hash_table (junk cells nbucket entries : Z)
  : option (list Z) :=
  let n := u32 (nbucket + entries) in
  if 2 + n <=? cells then
    Some ([nbucket; entries] ++ replicate (Z.to_nat n) SENTINEL
            ++ replicate (Z.to_nat (cells - 2 - n)) junk)
  else None.

(** Cell [i] of a block, when [i] is inside it. *)
Definition read {A : Type} (block : list A) (i : Z) : option A :=
  if (0 <=? i) && (i <? Z.of_nat (length block)) then block !! Z.to_nat i
  else None.

(** The [while] walk to the end of a chain: the index of the cell
    (bucket head or chain link) that holds the sentinel.  A walk of more
    steps than the table has cells has entered a cycle. *)
Fixpoint chain_end (fuel : nat) (table : list Z) (nbucket k : Z)
  : outcome unit Z :=
  match fuel with
  | O => Diverges
  | S fuel' =>
      match read table k with
      | None => Undefined OutOfBounds
      | Some v =>
          if v =? SENTINEL then Return k tt
          else chain_end fuel' table nbucket (u32 (2 + nbucket + v))
      end
  end.

(** The part of the state the second loop works on. *)
Record Tables : Type := mkTables {
  hash_table : list Z;
  entry_table : list (option MapEntry);
  index : Z
}.

Definition valid_type (c : ascii) : bool :=
  let t := char_code (toupper c) in
  (t =? 84) || (t =? 82) || (t =? 68) || (t =? 66).

Definition first_char (s : string) : ascii :=
  match s with
  | EmptyString => zero
  | String c _ => c
  end.

(** The body of the second loop at one line start. *)
Definition parse_line (nbucket : Z) (tb : Tables) (line : string)
  : outcome unit Tables :=
  let sc := Scan.sscanf line in
  if 3 <=? Scan.parsed sc then
    let address := u32 (Scan.address64 sc) in
    let h := Hash._elf_hash (Scan.name sc) in
    if nbucket =? 0 then Undefined DivisionByZero
    else
      let hash_mod := h mod nbucket in
      if negb (address =? 0) && valid_type (first_char (Scan.type_string sc))
      then
        if index tb <? Z.of_nat (length (entry_table tb)) then
          let entries' :=
            <[Z.to_nat (index tb) := Some (mkEntry h address)]> (entry_table tb) in
          match chain_end (S (length (hash_table tb))) (hash_table tb)
                  nbucket (u32 (2 + hash_mod)) with
          | Return k _ =>
              Return (mkTables (<[Z.to_nat k := index tb]> (hash_table tb))
                        entries' (u32 (index tb + 1))) tt
          | Undefined u => Undefined u
          | Diverges => Diverges
          end
        else Undefined OutOfBounds
      else Return tb tt
  else Return tb tt.

Fixpoint parse_lines (nbucket : Z) (tb : Tables) (lines : list string)
  : outcome unit Tables :=
  match lines with
  | [] => Return tb tt
  | line :: rest =>
      match parse_line nbucket tb line with
      | Return tb' _ => parse_lines nbucket tb' rest
      | Undefined u => Undefined u
      | Diverges => Diverges
      end
  end.

(** [int32_t DL_ParseSymbolMap(const char *ptr, size_t size)], on the [size]
    bytes of [text]; a NUL follows the buffer. *)
Definition DL_ParseSymbolMap (m : Malloc) (text : string) (st : State)
  : outcome State Z :=
  let st := DL_UnloadSymbolMap st in
  let entries := u32 (count_newlines text) in
  let nbucket := entries in
  let cells := hash_table_cells nbucket entries in
  let fresh_hash :=
    if hash_table_granted m then Some (replicate (Z.to_nat cells) (junk m))
    else None in
  let fresh_entries :=
    if entry_table_granted m
    then replicate (Z.to_nat (entry_table_cells entries)) None else [] in
  if negb (hash_table_granted m && entry_table_granted m) then
    Return (-1) (mkState ERR_MAP_MALLOC fresh_hash fresh_entries)
  else
    match init_hash_table (junk m) cells nbucket entries with
    | None => Undefined OutOfBounds
    | Some table =>
        match parse_lines nbucket (mkTables table fresh_entries 0)
                (line_starts true text) with
        | Return tb _ =>
            let st' := mkState (_error_code st) (Some (hash_table tb))
                         (entry_table tb) in
            if entries =? 0 then Return (-1) (set_error ERR_NO_SYMBOLS st')
            else Return (s32 entries) st'
        | Undefined u => Undefined u
        | Diverges => Diverges
        end
    end.

(** The [for (i = ...; i;)] walk of [DL_GetSymbolByName]. *)
Fixpoint chain_find (fuel : nat) (table : list Z)
    (entries : list (option MapEntry)) (nbucket h i : Z)
  : outcome unit (option Z) :=
  match fuel with
  | O => Diverges
  | S fuel' =>
      if i =? 0 then Return None tt
      else
        match read entries i with
        | Some (Some entry) =>
            if h =? hash entry then Return (Some (ptr entry)) tt
            else
              match read table (u32 (2 + nbucket + i)) with
              | Some i' => chain_find fuel' table entries nbucket h i'
              | None => Undefined OutOfBounds
              end
        | _ => Undefined OutOfBounds
        end
  end.

(** The lookup for a given hash. *)
Definition lookup_hash (st : State) (h : Z) : outcome State Z :=
  match _map_hash_table st with
  | None => Return 0 (set_error ERR_NO_MAP st)
  | Some table =>
      match read table 0 with
      | None => Undefined OutOfBounds
      | Some nbucket =>
          if nbucket =? 0 then Undefined DivisionByZero
          else
            match read table (u32 (2 + h mod nbucket)) with
            | None => Undefined OutOfBounds
            | Some i =>
                match chain_find (S (length table)) table
                        (_map_entry_table st) nbucket h i with
                | Return (Some a) _ => Return a st
                | Return None _ => Return 0 (set_error ERR_MAP_SYMBOL st)
                | Undefined u => Undefined u
                | Diverges => Diverges
                end
            end
      end
  end.

(** [void *DL_GetSymbolByName(const char *name)]; a null pointer is 0. *)
Definition DL_GetSymbolByName (name : string) (st : State)
  : outcome State Z :=
  lookup_hash st (Hash._elf_hash name).

End SymbolMap.

(** ** The module loader *)

Module Loader.

(** *** Memory: the buffer holding the module image

    The buffer is [words], 32-bit little-endian words from the (word
    aligned) address [base] on; a cell stands for its value modulo 2^32.
    An address is a 32-bit integer; an access outside the buffer, a
    misaligned one, or one at what is no address has no value. *)

Record Memory : Type := mkMemory { base : Z; words : list Z }.

Definition cell_index (m : Memory) (a : Z) : option nat :=
  let off := a - base m in
  if (0 <=? a) && (a <? 2 ^ 32) && (0 <=? off) && (off mod 4 =? 0)
     && (off / 4 <? Z.of_nat (length (words m)))
  then Some (Z.to_nat (off / 4)) else None.

Definition load32 (m : Memory) (a : Z) : option Z :=
  i ← cell_index m a; w ← words m !! i; Some (u32 w).

Definition store32 (m : Memory) (a v : Z) : option Memory :=
  i ← cell_index m a; Some (mkMemory (base m) (<[i := v]> (words m))).

Definition load8 (m : Memory) (a : Z) : option Z :=
  let k := (a - base m) mod 4 in
  w ← load32 m (a - k); Some ((w / 2 ^ (8 * k)) mod 256).

Definition load16 (m : Memory) (a : Z) : option Z :=
  let k := (a - base m) mod 4 in
  if k mod 2 =? 0 then w ← load32 m (a - k); Some ((w / 2 ^ (8 * k)) mod 65536)
  else None.

(** The C string at address [a]; a string that lies in the buffer has at
    most as many characters as the buffer has bytes. *)
Fixpoint load_chars (fuel : nat) (m : Memory) (a : Z) : option string :=
  match fuel with
  | O => None
  | S fuel' =>
      c ← load8 m a;
      if c =? 0 then Some EmptyString
      else rest ← load_chars fuel' m (a + 1);
           Some (String (ascii_of_N (Z.to_N c)) rest)
  end.

Definition load_string (m : Memory) (a : Z) : option string :=
  load_chars (S (4 * length (words m))) m a.

(** The [n] words from address [a] on. *)
Fixpoint load_words (m : Memory) (a : Z) (n : nat) : option (list Z) :=
  match n with
  | O => Some []
  | S n' => w ← load32 m a; ws ← load_words m (a + 4) n'; Some (w :: ws)
  end.

(** *** <elf.h> and <dlfcn.h>

    Neither header is in the sources.  The tags, flags and symbol types
    carry the values the MIPS ELF ABI gives them. *)

Definition DT_PLTGOT : Z := 3.
Definition DT_HASH : Z := 4.
Definition DT_STRTAB : Z := 5.
Definition DT_SYMTAB : Z := 6.
Definition DT_SYMENT : Z := 11.
Definition DT_MIPS_RLD_VERSION : Z := 0x70000001.
Definition DT_MIPS_FLAGS : Z := 0x70000005.
Definition DT_MIPS_BASE_ADDRESS : Z := 0x70000006.
Definition DT_MIPS_LOCAL_GOTNO : Z := 0x7000000a.
Definition DT_MIPS_SYMTABNO : Z := 0x70000011.
Definition DT_MIPS_GOTSYM : Z := 0x70000013.
Definition RHF_QUICKSTART : Z := 1.
Definition STT_OBJECT : Z := 1.
Definition STT_FUNC : Z := 2.
Definition ELF32_ST_TYPE (info : Z) : Z := Z.land info 0xf.
Definition sizeof_Elf32_Sym : Z := 16.

(** Fields of the [Elf32_Sym] at address [sym]. *)
Definition st_name (m : Memory) (sym : Z) : option Z := load32 m sym.
Definition st_value (m : Memory) (sym : Z) : option Z := load32 m (sym + 4).
Definition st_info (m : Memory) (sym : Z) : option Z := load8 m (sym + 12).
Definition st_shndx (m : Memory) (sym : Z) : option Z := load16 m (sym + 14).

(** Modelled from the spec: the two modes of section 4.4. *)
Inductive DL_ResolveMode : Type := RTLD_LAZY | RTLD_NOW.

(** Modelled from the spec: the declaration of the handle is not in the
    sources.  It is the record of section 3 of the design ([base] is [ptr],
    [owned_buffer] is [malloc_ptr], the two counts are [u32]). *)
Record DLL : Type := mkDLL {
  ptr : Z;
  malloc_ptr : Z;
  size : Z;
  hash : Z;
  got : Z;
  symtab : Z;
  strtab : Z;
  symbol_count : Z;
  got_length : Z
}.

(** Modelled from the spec: the "default" handle of section 6.4, taken to
    be the null pointer. *)
Definition RTLD_DEFAULT : Z := 0.

Definition set_malloc_ptr (v : Z) (d : DLL) : DLL :=
  mkDLL (ptr d) v (size d) (hash d) (got d) (symtab d) (strtab d)
    (symbol_count d) (got_length d).
Definition set_hash (v : Z) (d : DLL) : DLL :=
  mkDLL (ptr d) (malloc_ptr d) (size d) v (got d) (symtab d) (strtab d)
    (symbol_count d) (got_length d).
Definition set_got (v : Z) (d : DLL) : DLL :=
  mkDLL (ptr d) (malloc_ptr d) (size d) (hash d) v (symtab d) (strtab d)
    (symbol_count d) (got_length d).
Definition set_symtab (v : Z) (d : DLL) : DLL :=
  mkDLL (ptr d) (malloc_ptr d) (size d) (hash d) (got d) v (strtab d)
    (symbol_count d) (got_length d).
Definition set_strtab (v : Z) (d : DLL) : DLL :=
  mkDLL (ptr d) (malloc_ptr d) (size d) (hash d) (got d) (symtab d) v
    (symbol_count d) (got_length d).
Definition set_symbol_count (v : Z) (d : DLL) : DLL :=
  mkDLL (ptr d) (malloc_ptr d) (size d) (hash d) (got d) (symtab d) (strtab d)
    v (got_length d).
Definition set_got_length (v : Z) (d : DLL) : DLL :=
  mkDLL (ptr d) (malloc_ptr d) (size d) (hash d) (got d) (symtab d) (strtab d)
    (symbol_count d) v.

(** Address of [_dl_resolve_wrapper], the lazy-resolve trampoline (an
    assembly routine of the library; where it lies is of no consequence). *)
Definition _dl_resolve_wrapper : Z := 0x80010400.

(** *** The state the loader works on *)

(** A resolver: the address it gives for a module (by the address of its
    handle) and a name; 0 is the null pointer. *)
Definition resolver : Type := Z -> string -> Z.

Record World : Type := mkWorld {
  globals : SymbolMap.State;               (* [_error_code] and the map *)
  _dl_resolve_callback : option resolver;  (* [None] is the null pointer *)
  image : Memory;                          (* the module buffer *)
  heap : list Z;                           (* blocks [malloc] gave, not yet freed *)
  calls : list Z                           (* functions run by [DL_CALL], oldest first *)
}.

Definition set_globals (g : SymbolMap.State) (w : World) : World :=
  mkWorld g (_dl_resolve_callback w) (image w) (heap w) (calls w).
Definition set_image (m : Memory) (w : World) : World :=
  mkWorld (globals w) (_dl_resolve_callback w) m (heap w) (calls w).
Definition set_heap (h : list Z) (w : World) : World :=
  mkWorld (globals w) (_dl_resolve_callback w) (image w) h (calls w).

(** [DL_CALL(f)]: the call is recorded.  What the function called does is
    its own business and is not modelled: it is taken to leave the buffer,
    the heap and the globals alone. *)
Definition DL_CALL (f : Z) (w : World) : World :=
  mkWorld (globals w) (_dl_resolve_callback w) (image w) (heap w)
    (calls w ++ [f]).

(** The [_ERROR(code, ret)] macro, without its log line. *)
Definition _ERROR {A : Type} (code : ErrorCode) (ret : A) (w : World)
  : outcome World A :=
  Return ret (set_globals (SymbolMap.set_error code (globals w)) w).

(** [free]: the block leaves the heap. *)
Fixpoint release (a : Z) (h : list Z) : list Z :=
  match h with
  | [] => []
  | b :: rest => if a =? b then rest else b :: release a rest
  end.

Definition free (a : Z) (w : World) : World := set_heap (release a (heap w)) w.

(** [void DL_SetResolveCallback(...)]. *)
Definition DL_SetResolveCallback (callback : option resolver) (w : World)
  : World :=
  mkWorld (globals w) callback (image w) (heap w) (calls w).

(** Sequencing of calls, and of memory accesses inside a call. *)
Definition bind {S A B : Type} (c : outcome S A) (k : A -> S -> outcome S B)
  : outcome S B :=
  match c with
  | Return a s => k a s
  | Undefined u => Undefined u
  | Diverges => Diverges
  end.

Definition access {S A B : Type} (v : option A) (k : A -> outcome S B)
  : outcome S B :=
  match v with
  | Some a => k a
  | None => Undefined OutOfBounds
  end.

Notation "'do' x <- v ; k" := (access v (fun x => k))
  (at level 10, x name, v at level 100, k at level 200, only parsing).

(** *** The lazy resolver *)

(** [DL_GetSymbolByName] as a step of the loader. *)
Definition map_lookup (name : string) (w : World) : outcome World Z :=
  match SymbolMap.DL_GetSymbolByName name (globals w) with
  | Return a g => Return a (set_globals g w)
  | Undefined u => Undefined u
  | Diverges => Diverges
  end.

(** Address of [dll->got[2 + k]], the index being a [uint32_t]. *)
Definition got_slot (d : DLL) (k : Z) : Z := got d + 4 * u32 (2 + k).

(** The loop of [_dl_resolve_helper] that patches the first GOT entry equal
    to the symbol's value, from [i] on for [n] more turns. *)
Fixpoint patch_got (n : nat) (d : DLL) (sym address i : Z) (m : Memory)
  : option Memory :=
  match n with
  | O => Some m
  | S n' =>
      v ← load32 m (got_slot d i);
      value ← st_value m sym;
      if v =? value then store32 m (got_slot d i) address
      else patch_got n' d sym address (i + 1) m
  end.

(** [void *_dl_resolve_helper(DLL *dll, uint32_t index)]; the lock-up on a
    symbol that cannot be resolved is a call that never returns. *)
Definition _dl_resolve_helper (dll : Z) (d : DLL) (index : Z) (w : World)
  : outcome World Z :=
  let sym := symtab d + sizeof_Elf32_Sym * index in
  do off <- st_name (image w) sym;
  do _name <- load_string (image w) (strtab d + off);
  bind (match _dl_resolve_callback w with
        | Some resolve => Return (u32 (resolve dll _name)) w
        | None => map_lookup _name w
        end)
    (fun address w1 =>
       if address =? 0 then Diverges
       else
         do m' <- patch_got (Z.to_nat (got_length d)) d sym address 0 (image w1);
         Return address (set_image m' w1)).

(** *** [dlsym] *)

(** The chain walk of [dlsym] in the module's own hash table. *)
Fixpoint symtab_find (fuel : nat) (m : Memory) (d : DLL) (name : string)
    (nbucket i : Z) : outcome unit (option Z) :=
  match fuel with
  | O => Diverges
  | S fuel' =>
      if i =? 0 then Return None tt
      else
        let sym := symtab d + sizeof_Elf32_Sym * i in
        do off <- st_name m sym;
        do _name <- load_string m (strtab d + off);
        if String.eqb (cstr name) _name then
          do v <- st_value m sym; Return (Some v) tt
        else
          do i' <- load32 m (hash d + 4 * u32 (2 + nbucket + i));
          symtab_find fuel' m d name nbucket i'
  end.

(** [void *dlsym(DLL *dll, const char *name)]: [dll] is the pointer and [d]
    the handle it points to (unused for [RTLD_DEFAULT]). *)
Definition dlsym (dll : Z) (d : DLL) (name : string) (w : World)
  : outcome World Z :=
  if dll =? RTLD_DEFAULT then map_lookup name w
  else
    let m := image w in
    do nbucket <- load32 m (hash d);
    if nbucket =? 0 then Undefined DivisionByZero
    else
      let hash_mod := Hash._elf_hash name mod nbucket in
      do i <- load32 m (hash d + 4 * u32 (2 + hash_mod));
      match symtab_find (S (length (words m))) m d name nbucket i with
      | Return (Some v) _ => Return v w
      | Return None _ => _ERROR ERR_DLL_SYMBOL 0 w
      | Undefined u => Undefined u
      | Diverges => Diverges
      end.

(** *** [dlinit] *)

(** What the walk over [.dynamic] collects. *)
Record Dynamic : Type := mkDynamic {
  dyn_dll : DLL;
  local_got_len : Z;
  first_got_sym : Z
}.

(** The [switch (dyn->d_tag)]; [None] is the [ERR_DLL_FORMAT] exit. *)
Definition dynamic_entry (p tag val : Z) (s : Dynamic) : option Dynamic :=
  let d := dyn_dll s in
  if tag =? DT_PLTGOT then
    Some (mkDynamic (set_got (u32 (p + val)) d) (local_got_len s) (first_got_sym s))
  else if tag =? DT_HASH then
    Some (mkDynamic (set_hash (u32 (p + val)) d) (local_got_len s) (first_got_sym s))
  else if tag =? DT_STRTAB then
    Some (mkDynamic (set_strtab (u32 (p + val)) d) (local_got_len s) (first_got_sym s))
  else if tag =? DT_SYMTAB then
    Some (mkDynamic (set_symtab (u32 (p + val)) d) (local_got_len s) (first_got_sym s))
  else if tag =? DT_SYMENT then
    if val =? sizeof_Elf32_Sym then Some s else None
  else if tag =? DT_MIPS_RLD_VERSION then
    if val =? 1 then Some s else None
  else if tag =? DT_MIPS_FLAGS then
    if Z.land val RHF_QUICKSTART =? 0 then Some s else None
  else if tag =? DT_MIPS_LOCAL_GOTNO then
    Some (mkDynamic d val (first_got_sym s))
  else if tag =? DT_MIPS_BASE_ADDRESS then
    if val =? 0 then Some s else None
  else if tag =? DT_MIPS_SYMTABNO then
    Some (mkDynamic (set_symbol_count val d) (local_got_len s) (first_got_sym s))
  else if tag =? DT_MIPS_GOTSYM then
    Some (mkDynamic d (local_got_len s) val)
  else Some s.

(** The [for (dyn = ptr; dyn->d_tag; dyn++)] loop.  The outer [None] is a
    read outside the buffer, which a walk of more entries than the buffer
    has words has made. *)
Fixpoint dynamic_walk (fuel : nat) (m : Memory) (p dyn : Z) (s : Dynamic)
  : option (option Dynamic) :=
  match fuel with
  | O => None
  | S fuel' =>
      tag ← load32 m dyn;
      if tag =? 0 then Some (Some s)
      else
        val ← load32 m (dyn + 4);
        match dynamic_entry p tag val s with
        | None => Some None
        | Some s' => dynamic_walk fuel' m p (dyn + 8) s'
        end
  end.

(** [for (i = 0; i < dll->got_length; i++) dll->got[2 + i] += ptr], from
    [i] on for [n] more turns. *)
Fixpoint relocate_got (n : nat) (p : Z) (d : DLL) (i : Z) (m : Memory)
  : option Memory :=
  match n with
  | O => Some m
  | S n' =>
      v ← load32 m (got_slot d i);
      m' ← store32 m (got_slot d i) (u32 (v + p));
      relocate_got n' p d (i + 1) m'
  end.

(** How the scan of the GOT for one symbol ends. *)
Inductive Resolution : Type :=
| Cursor (got_offset : Z)   (* go on with the next symbol *)
| ResolveFailed.            (* the resolver gave a null pointer *)

(** The inner [for (j = got_offset; j < dll->got_length; j++)] of the
    [RTLD_NOW] pass for the symbol at [sym], whose relocated value is
    [value]; [n] turns are left. *)
Fixpoint resolve_now (n : nat) (cb : option resolver) (dll : Z) (d : DLL)
    (name : string) (sym value j got_offset : Z) (m : Memory)
  : outcome Memory Resolution :=
  match n with
  | O => Return (Cursor got_offset) m
  | S n' =>
      do v <- load32 m (got_slot d j);
      if negb (v =? value) then
        resolve_now n' cb dll d name sym value (j + 1) got_offset m
      else
        do shndx <- st_shndx m sym;
        do info <- (if shndx =? 0 then st_info m sym else Some 0);
        if (shndx =? 0)
           && ((ELF32_ST_TYPE info =? STT_OBJECT)
               || (ELF32_ST_TYPE info =? STT_FUNC))
        then
          match cb with
          | None => Undefined NullCall
          | Some resolve =>
              let a := u32 (resolve dll name) in
              do m' <- store32 m (got_slot d j) a;
              if a =? 0 then Return ResolveFailed m'
              else Return (Cursor j) m'
          end
        else Return (Cursor j) m
  end.

(** The [for (i = 0; i < dll->symbol_count; i++)] loop, from symbol [i] on
    for [n] more turns.  The log line of the [DEBUG] build reads the name. *)
Fixpoint relocate_symbols (n : nat) (mode : DL_ResolveMode)
    (cb : option resolver) (p dll : Z) (d : DLL) (i got_offset : Z)
    (m : Memory) : outcome Memory Resolution :=
  match n with
  | O => Return (Cursor got_offset) m
  | S n' =>
      let sym := symtab d + sizeof_Elf32_Sym * i in
      do off <- st_name m sym;
      do v <- st_value m sym;
      if v =? 0 then
        relocate_symbols n' mode cb p dll d (i + 1) got_offset m
      else
        let value := u32 (v + p) in
        do m1 <- store32 m (sym + 4) value;
        do _name <- load_string m1 (strtab d + off);
        match mode with
        | RTLD_LAZY =>
            relocate_symbols n' mode cb p dll d (i + 1) got_offset m1
        | RTLD_NOW =>
            match resolve_now (Z.to_nat (got_length d - got_offset)) cb dll d
                    _name sym value got_offset got_offset m1 with
            | Return (Cursor got_offset') m2 =>
                relocate_symbols n' mode cb p dll d (i + 1) got_offset' m2
            | other => other
            end
        end
  end.

(** [for (i = ctor_list[0]; i >= 1; i--) DL_CALL(ctor_list[i])], with [n]
    the current [i]. *)
Fixpoint call_down (n : nat) (ctor_list : Z) (w : World)
  : outcome World unit :=
  match n with
  | O => Return tt w
  | S n' =>
      do ctor <- load32 (image w) (ctor_list + 4 * Z.of_nat n);
      call_down n' ctor_list (DL_CALL ctor w)
  end.

(** The constructors of the module, if it has a [__CTOR_LIST__]. *)
Definition call_constructors (dll : Z) (d : DLL) (w : World)
  : outcome World unit :=
  bind (dlsym dll d "__CTOR_LIST__" w) (fun ctor_list w1 =>
    if ctor_list =? 0 then Return tt w1
    else
      do count <- load32 (image w1) ctor_list;
      call_down (Z.to_nat count) ctor_list w1).

(** The handle once [ptr], [malloc_ptr] and [size] are set. *)
Definition first_fields (p sz : Z) (fresh : DLL) : DLL :=
  mkDLL p 0 sz (hash fresh) (got fresh) (symtab fresh) (strtab fresh)
    (symbol_count fresh) (got_length fresh).

(** [DLL *dlinit(void *ptr, size_t size, DL_ResolveMode mode)].  [dll] is
    the pointer [malloc(sizeof(DLL))] gives (0 when it fails) and [fresh]
    the indeterminate handle the block holds.  The result is the handle's
    address with the handle, [None] for a null pointer. *)
Definition dlinit (p sz : Z) (mode : DL_ResolveMode) (dll : Z) (fresh : DLL)
    (w : World) : outcome World (option (Z * DLL)) :=
  if p =? 0 then _ERROR ERR_DLL_NULL None w
  else
    if dll =? 0 then _ERROR ERR_DLL_MALLOC None w
    else
        let w := set_heap (dll :: heap w) w in
        let d0 := first_fields p sz fresh in
        do walked <- dynamic_walk (S (length (words (image w)))) (image w)
                       p p (mkDynamic d0 0 0);
        match walked with
        | None => _ERROR ERR_DLL_FORMAT None (free dll w)
        | Some dy =>
            let d1 := dyn_dll dy in
            let d := set_got_length
                       (u32 (local_got_len dy
                             + (symbol_count d1 - first_got_sym dy) - 2)) d1 in
            do m1 <- store32 (image w) (got d) _dl_resolve_wrapper;
            do m2 <- store32 m1 (got d + 4) dll;
            do m3 <- relocate_got (Z.to_nat (got_length d)) p d 0 m2;
            match relocate_symbols (Z.to_nat (symbol_count d)) mode
                    (_dl_resolve_callback w) p dll d 0 (first_got_sym dy) m3
            with
            | Return (Cursor _) m4 =>
                bind (call_constructors dll d (set_image m4 w))
                  (fun _ w' => Return (Some (dll, d)) w')
            | Return ResolveFailed m4 =>
                _ERROR ERR_MAP_SYMBOL None (free dll (set_image m4 w))
            | Undefined u => Undefined u
            | Diverges => Diverges
            end
        end.

(** *** [dlclose] *)

(** [for (i = 0; i < dtor_list[0]; i++) DL_CALL(dtor_list[i + 1])], from [i]
    on for [n] more turns. *)
Fixpoint call_up (n : nat) (dtor_list i : Z) (w : World)
  : outcome World unit :=
  match n with
  | O => Return tt w
  | S n' =>
      do dtor <- load32 (image w) (dtor_list + 4 * u32 (i + 1));
      call_up n' dtor_list (i + 1) (DL_CALL dtor w)
  end.

Definition call_destructors (dll : Z) (d : DLL) (w : World)
  : outcome World unit :=
  bind (dlsym dll d "__DTOR_LIST__" w) (fun dtor_list w1 =>
    if dtor_list =? 0 then Return tt w1
    else
      do count <- load32 (image w1) dtor_list;
      call_up (Z.to_nat count) dtor_list 0 w1).

(** [void dlclose(DLL *dll)]. *)
Definition dlclose (dll : Z) (d : DLL) (w : World) : outcome World unit :=
  if dll =? RTLD_DEFAULT then Return tt w
  else
    bind (if ptr d =? 0 then Return tt w else call_destructors dll d w)
      (fun _ w1 =>
         let w2 := if malloc_ptr d =? 0 then w1 else free (malloc_ptr d) w1 in
         Return tt (free dll w2)).

(** *** [dlopen] *)

(** What the BIOS file calls and [malloc] answer inside [_load_file]: the
    descriptor [open] gives, the size in the file control block, the pointer
    [malloc(size)] gives (0 when it fails), whether every [read] delivers,
    and the words the reads leave in the block. *)
Record File : Type := mkFile {
  fd : Z;
  filesize : Z;
  buffer : Z;
  reads_deliver : bool;
  contents : list Z
}.

(** [static uint8_t *_load_file(const char *filename, size_t *size_output)]:
    the buffer and the size, or a null pointer. *)
Definition _load_file (f : File) (w : World) : outcome World (option (Z * Z)) :=
  if fd f <? 0 then _ERROR ERR_FILE None w
  else
    if buffer f =? 0 then _ERROR ERR_FILE_MALLOC None w
    else
      let w1 := set_heap (buffer f :: heap w) w in
      if (0 <? filesize f) && negb (reads_deliver f) then
        _ERROR ERR_FILE_READ None (free (buffer f) w1)
      else
        Return (Some (buffer f, filesize f))
          (set_image (mkMemory (buffer f) (contents f)) w1).

(** [DLL *dlopen(const char *filename, DL_ResolveMode mode)], built with
    [USE_FILE_API]. *)
Definition dlopen (f : File) (mode : DL_ResolveMode) (dll : Z) (fresh : DLL)
    (w : World) : outcome World (option (Z * DLL)) :=
  bind (_load_file f w) (fun loaded w1 =>
    match loaded with
    | None => Return None w1
    | Some (p, sz) =>
        bind (dlinit p sz mode dll fresh w1) (fun r w2 =>
          match r with
          | Some (dll, d) => Return (Some (dll, set_malloc_ptr (ptr d) d)) w2
          | None => Return None (free p w2)
          end)
    end).

End Loader.

(** ** [dlerror] *)

Module ErrorMessages.
Import SymbolMap.

(** The value of an enumeration constant of [ErrorCode]. *)
Definition code_value (code : ErrorCode) : Z :=
  match code with
  | ERR_NONE => 0
  | ERR_FILE => 1
  | ERR_FILE_MALLOC => 2
  | ERR_FILE_READ => 3
  | ERR_NO_MAP => 4
  | ERR_MAP_MALLOC => 5
  | ERR_NO_SYMBOLS => 6
  | ERR_DLL_NULL => 7
  | ERR_DLL_MALLOC => 8
  | ERR_DLL_FORMAT => 9
  | ERR_NO_FILE_API => 10
  | ERR_MAP_SYMBOL => 11
  | ERR_DLL_SYMBOL => 12
  end.

Definition DL_ERROR_MESSAGES : list string :=
  [ "Unable to find file";
    "Unable to allocate buffer to load file into";
    "Failed to read file";
    "No symbol map has been loaded yet";
    "Unable to allocate symbol map structures";
    "No symbols found in symbol map";
    "Unable to initialize DLL from null pointer";
    "Unable to allocate DLL metadata structures";
    "Unsupported DLL type or format";
    "psxetc has been built without file support";
    "Symbol not found in symbol map";
    "Symbol not found in DLL" ]%string.

(** [const char *const dlerror(void)]; [None] is the null pointer. *)
Definition dlerror (st : State) : outcome State (option string) :=
  let last := code_value (_error_code st) in
  let st := set_error ERR_NONE st in
  if last =? 0 then Return None st
  else
    match read DL_ERROR_MESSAGES (u32 (last - 1)) with
    | Some message => Return (Some message) st
    | None => Undefined OutOfBounds
    end.

End ErrorMessages.

(** * Notions the properties are stated with *)

(** The first white-space-delimited token of a C string, whatever its
    length: what the map file calls the symbol's name. *)
Fixpoint word_of (s : string) : string :=
  match s with
  | EmptyString => EmptyString
  | String c rest => if isspace c then EmptyString else String c (word_of rest)
  end.

Definition name_token (line : string) : string :=
  word_of (Scan.skip_space (cstr line)).

Fixpoint take_chars (n : nat) (s : string) : string :=
  match n, s with
  | S n', String c rest => String c (take_chars n' rest)
  | _, _ => EmptyString
  end.

(** An entry the parser wrote comes from a line the call parsed. *)
Definition entered (lines : list string) (e : SymbolMap.MapEntry) : Prop :=
  exists line,
    line ∈ lines /\ 3 <= Scan.parsed (Scan.sscanf line) /\
    SymbolMap.hash e = Hash._elf_hash (Scan.name (Scan.sscanf line)) /\
    SymbolMap.ptr e = u32 (Scan.address64 (Scan.sscanf line)).

(** What holds of the tables between two lines: the header is in place,
    and once an entry was written the first one sits at index 0 with the
    head of its bucket holding 0. *)
Definition first_entry_inv (nbucket : Z) (table0 : list Z) (cells : nat)
    (tb : SymbolMap.Tables) : Prop :=
  let table := SymbolMap.hash_table tb in
  let entries := SymbolMap.entry_table tb in
  SymbolMap.read table 0 = Some nbucket /\
  0 <= SymbolMap.index tb /\
  length entries = cells /\
  (SymbolMap.index tb = 0 ->
   table = table0 /\ forall e, SymbolMap.read entries 0 <> Some (Some e)) /\
  (forall e, SymbolMap.read entries 0 = Some (Some e) ->
             SymbolMap.read table (u32 (2 + SymbolMap.hash e mod nbucket))
             = Some 0).

(** A name of 7-bit characters: no byte of 0x80 or more before its NUL. *)
Fixpoint seven_bit (s : string) : bool :=
  match s with
  | EmptyString => true
  | String c rest =>
      if is_nul c then true else (char_code c <? 128) && seven_bit rest
  end.

(** The characters of a name as [(uint32_t) *str] yields them. *)
Definition chars_read (s : string) : list Z :=
  map (fun c => u32 (schar c)) (list_ascii_of_string (cstr s)).

Section LoaderNotions.
Import Loader.

(** Address of the [st_value] field of symbol [k]. *)
Definition value_field (d : DLL) (k : Z) : Z := symtab d + sizeof_Elf32_Sym * k + 4.

(** The world after the functions [fs] were called in turn. *)
Definition add_calls (fs : list Z) (w : World) : World :=
  mkWorld (globals w) (_dl_resolve_callback w) (image w) (heap w) (calls w ++ fs).

(** The words at [tbl] are a count and then the [fs], as many. *)
Definition holds_list (m : Memory) (tbl : Z) (fs : list Z) : Prop :=
  load_words m tbl (S (length fs)) = Some (Z.of_nat (length fs) :: fs).

(** The words from [dyn] on are the entries [entries] of a [.dynamic]
    section, a tag and its value each and no tag null, and then the null
    tag that ends the section. *)
Fixpoint dynamic_at (m : Memory) (dyn : Z) (entries : list (Z * Z)) : bool :=
  match entries with
  | [] =>
      match load32 m dyn with
      | Some tag => tag =? 0
      | None => false
      end
  | (tag, val) :: rest =>
      negb (tag =? 0)
      && match load32 m dyn with
         | Some t => t =? tag
         | None => false
         end
      && match load32 m (dyn + 4) with
         | Some v => v =? val
         | None => false
         end
      && dynamic_at m (dyn + 8) rest
  end.

(** The value of the last of the entries with the tag [tag], if any. *)
Fixpoint dynamic_find (tag : Z) (entries : list (Z * Z)) : option Z :=
  match entries with
  | [] => None
  | (t, v) :: rest =>
      match dynamic_find tag rest with
      | Some later => Some later
      | None => if t =? tag then Some v else None
      end
  end.

End LoaderNotions.

Section MapNotions.
Import SymbolMap.

(** The entry the parser writes for a line start, when it keeps the line. *)
Definition entry_of_line (line : string) : option MapEntry :=
  let sc := Scan.sscanf line in
  let address := u32 (Scan.address64 sc) in
  if (3 <=? Scan.parsed sc) && negb (address =? 0)
     && valid_type (first_char (Scan.type_string sc))
  then Some (mkEntry (Hash._elf_hash (Scan.name sc)) address)
  else None.

(** The symbols of a text, in the order of their line starts. *)
Definition symbols (text : string) : list MapEntry :=
  omap entry_of_line (line_starts true text).

(** The index of the first of the entries [es], numbered from [pos] on,
    that falls into bucket [b]; the sentinel when there is none. *)
Fixpoint next_in_bucket (nbucket b : Z) (es : list MapEntry) (pos : Z) : Z :=
  match es with
  | [] => SENTINEL
  | e :: rest =>
      if hash e mod nbucket =? b then pos
      else next_in_bucket nbucket b rest (pos + 1)
  end.

(** The chain link of entry [j]: the next entry of its bucket. *)
Definition link_of (nbucket : Z) (es : list MapEntry) (j : nat) : Z :=
  match es !! j with
  | Some e =>
      next_in_bucket nbucket (hash e mod nbucket) (drop (S j) es) (Z.of_nat (S j))
  | None => SENTINEL
  end.

(** The hash table of [n] buckets and [n] chain links over the entries
    [es]: the header, the bucket heads, the links. *)
Definition built_table (n : Z) (es : list MapEntry) : list Z :=
  [n; n]
  ++ ((fun b => next_in_bucket n (Z.of_nat b) es 0) <$> seq 0 (Z.to_nat n))
  ++ (link_of n es <$> seq 0 (Z.to_nat n)).

(** The entry table of [n] cells whose first cells hold [es]. *)
Definition built_entries (n : Z) (es : list MapEntry) : list (option MapEntry) :=
  (Some <$> es) ++ replicate (Z.to_nat n - length es) None.

(** The tables of the second loop once it has entered [es]. *)
Definition built_tables (n : Z) (es : list MapEntry) : Tables :=
  mkTables (built_table n es) (built_entries n es) (Z.of_nat (length es)).

(** The map with these tables. *)
Definition built_map (code : ErrorCode) (n : Z) (es : list MapEntry) : State :=
  mkState code (Some (built_table n es)) (built_entries n es).

(** The cell the walk of the parser ends on for bucket [b]: the head of the
    bucket while no entry is in it, the link of its last entry after. *)
Definition last_cell (n b : Z) (es : list MapEntry) (k : Z) : Prop :=
  (k = 2 + b /\ Forall (fun e => hash e mod n <> b) es) \/
  (exists (j : nat) (e : MapEntry),
      k = 2 + n + Z.of_nat j /\ es !! j = Some e /\ hash e mod n = b /\
      Forall (fun e' => hash e' mod n <> b) (drop (S j) es)).

End MapNotions.

Section CallbackNotions.
Import Loader.

(** An outcome whose world has [cb] for its resolve callback. *)
Definition with_callback {A : Type} (cb : option resolver)
    (o : outcome World A) : outcome World A :=
  match o with
  | Return a w => Return a (DL_SetResolveCallback cb w)
  | Undefined u => Undefined u
  | Diverges => Diverges
  end.

End CallbackNotions.

(** * Inputs to run the code on *)

Module Scenario.
Import SymbolMap.

Definition LF : string := String "010"%char EmptyString.

(** Every request to [malloc] is granted. *)
Definition granted : Malloc := mkMalloc true true 0.

(** Scenario 1 of the design: a two-symbol map. *)
Definition two_symbols : string :=
  ("foo T 80010000 4" ++ LF ++ "bar D 80020000 8" ++ LF)%string.

(** Scenario 2: one valid line, and two lines to drop. *)
Definition with_dropped : string :=
  ("foo T 80010000 4" ++ LF ++ "skip U 80030000" ++ LF ++ "null T 0 0" ++ LF)%string.

(** A text whose only line is to be dropped. *)
Definition only_dropped : string := ("skip U 80030000" ++ LF)%string.

(** A line whose first token has 72 characters. *)
Definition long_token : string :=
  "aaaaaaaaaaaaaaaaaaaaaaaaaaaaaaaaaaaaaaaaaaaaaaaaaaaaaaaaaaaaaaaT80010000".
Definition long_line : string := (long_token ++ " T 80020000 4" ++ LF)%string.

End Scenario.

Module Sample.
Import Loader.

(** Bytes packed into little-endian words. *)
Fixpoint pack (bytes : list Z) : list Z :=
  match bytes with
  | b0 :: b1 :: b2 :: b3 :: rest =>
      (b0 + 256 * b1 + 65536 * b2 + 16777216 * b3) :: pack rest
  | [] => []
  | b0 :: rest => [b0 + 256 * nth 0 rest 0 + 65536 * nth 1 rest 0]
  end.

Definition chars (s : string) : list Z :=
  map char_code (list_ascii_of_string s) ++ [0].

Definition BASE : Z := 0x80100000.
Definition HANDLE : Z := 0x801F0000.

(** The image: [.dynamic] at 0x00, [.got] at 0x60, [.dynsym] at 0x80,
    [.hash] at 0xC0, [.dynstr] at 0xDC, the constructor list at 0x100 and
    the destructor list at 0x110.  The GOT has the two reserved slots, one
    local slot, and the slots of the symbols [foo] (undefined, a function),
    [__CTOR_LIST__] and [__DTOR_LIST__]. *)
Definition dynamic : list Z :=
  [ DT_PLTGOT; 0x60;  DT_HASH; 0xC0;  DT_STRTAB; 0xDC;  DT_SYMTAB; 0x80;
    DT_SYMENT; 16;  DT_MIPS_RLD_VERSION; 1;  DT_MIPS_FLAGS; 0;
    DT_MIPS_LOCAL_GOTNO; 3;  DT_MIPS_BASE_ADDRESS; 0;
    DT_MIPS_SYMTABNO; 4;  DT_MIPS_GOTSYM; 1;  0; 0 ].
Definition got_section : list Z := [0; 0; 0x11C; 0x200; 0x100; 0x110; 0; 0].
Definition symtab_section : list Z :=
  [ 0; 0; 0; 0;
    1; 0x200; 0; 0x00000012;
    5; 0x100; 16; 0x00010011;
    19; 0x110; 16; 0x00010011 ].
Definition hash_section : list Z := [1; 4; 1; 0; 2; 3; 0].
Definition strtab_section : list Z :=
  pack (0 :: chars "foo" ++ chars "__CTOR_LIST__" ++ chars "__DTOR_LIST__").
Definition ctor_section : list Z := [3; 0x300; 0x304; 0x308].
Definition dtor_section : list Z := [3; 0x300; 0x304; 0x308].

Definition module_words : list Z :=
  dynamic ++ got_section ++ symtab_section ++ hash_section ++ strtab_section
  ++ ctor_section ++ dtor_section.

Definition module_size : Z := 4 * Z.of_nat (length module_words).

Definition fresh : DLL := mkDLL 0 0 0 0 0 0 0 0 0.

(** The module was loaded at [BASE] by the caller. *)
Definition loaded (g : SymbolMap.State) (cb : option resolver) : World :=
  mkWorld g cb (mkMemory BASE module_words) [BASE] [].

(** The module is in a file; nothing is allocated yet. *)
Definition module_file : File := mkFile 3 module_size BASE true module_words.
Definition start (cb : option resolver) : World :=
  mkWorld SymbolMap.initial cb (mkMemory 0 []) [] [].

(** A map in which ["foo"] is found. *)
Definition foo_map_text : string :=
  ("bar D 80020000 8" ++ Scenario.LF ++ "foo T 80010000 4" ++ Scenario.LF)%string.
Definition foo_map : SymbolMap.State :=
  SymbolMap.mkState ERR_NONE (Some [2; 2; 0; 1; 4294967295; 4294967295])
    [Some (SymbolMap.mkEntry 26754 2147614720);
     Some (SymbolMap.mkEntry 27999 2147549184)].

Definition resolve_foo : resolver :=
  fun _ n => if String.eqb n "foo" then 0x80010000 else 0.
Definition resolve_nothing : resolver := fun _ _ => 0.

End Sample.

Module MapSample.
Import SymbolMap.

(** The map the parser builds from [Scenario.two_symbols]. *)
Definition two_symbols_map : State :=
  mkState ERR_NONE (Some [2; 2; 1; 0; 4294967295; 4294967295])
    [Some (mkEntry 27999 2147549184); Some (mkEntry 26754 2147614720)].

(** Two lines to keep, the second without its line feed. *)
Definition unterminated : string :=
  ("foo T 80010000 4" ++ Scenario.LF ++ "bar D 80020000 8")%string.

(** One line to keep and no line feed at all. *)
Definition single_line : string := "foo T 80010000 4".

(** A blank line, then a line to keep. *)
Definition after_blank : string :=
  (Scenario.LF ++ "foo T 80010000 4" ++ Scenario.LF)%string.

(** Three lines to keep; ["bar"] falls into the bucket of ["foo"], the
    first entry, and ["baz"] does not. *)
Definition three_symbols : string :=
  ("foo T 80010000 4" ++ Scenario.LF ++ "bar D 80020000 8" ++ Scenario.LF
   ++ "baz B 80030000 8" ++ Scenario.LF)%string.

End MapSample.

Module LoaderSample.
Import Loader Sample.

(** The handle of the sample module, as the walk over [.dynamic] fills it. *)
Definition handle : DLL :=
  mkDLL BASE 0 module_size (BASE + 0xC0) (BASE + 0x60) (BASE + 0x80)
    (BASE + 0xDC) 4 4.

(** An image whose [.dynamic] names the GOT and nothing else: the GOT is
    at 0x10 and no count is given. *)
Definition bare_words : list Z := [DT_PLTGOT; 0x10; 0; 0; 0; 0; 0x20; 0x24].
Definition bare (cb : option resolver) : World :=
  mkWorld SymbolMap.initial cb (mkMemory BASE bare_words) [BASE] [].

End LoaderSample.

Module DynamicSample.
Import Loader Sample.

(** The [.dynamic] section of [Sample.module_words], entry by entry. *)
Definition sample_entries : list (Z * Z) :=
  [ (DT_PLTGOT, 0x60); (DT_HASH, 0xC0); (DT_STRTAB, 0xDC); (DT_SYMTAB, 0x80);
    (DT_SYMENT, 16); (DT_MIPS_RLD_VERSION, 1); (DT_MIPS_FLAGS, 0);
    (DT_MIPS_LOCAL_GOTNO, 3); (DT_MIPS_BASE_ADDRESS, 0);
    (DT_MIPS_SYMTABNO, 4); (DT_MIPS_GOTSYM, 1) ].

(** An image whose symbol table lies over its GOT: [.dynamic] at 0x00,
    [.dynsym] at 0x40 with one symbol, the GOT at 0x44 with its two
    reserved entries and no other, [.hash] at 0x60 with one empty bucket,
    [.dynstr] at 0x70.  The [st_value] field of the symbol is the word of
    [got[0]]. *)
Definition overlapped_words : list Z :=
  [ DT_PLTGOT; 0x44;  DT_SYMTAB; 0x40;  DT_HASH; 0x60;  DT_STRTAB; 0x70;
    DT_MIPS_LOCAL_GOTNO; 2;  DT_MIPS_SYMTABNO; 1;  DT_MIPS_GOTSYM; 1;  0; 0;
    0; 0; 0; 0;
    0; 0; 0; 0;
    1; 1; 0; 0;
    0 ].
Definition overlapped_size : Z := 4 * Z.of_nat (length overlapped_words).
Definition overlapped : World :=
  mkWorld SymbolMap.initial None (mkMemory BASE overlapped_words) [BASE] [].

End DynamicSample.

Module HighByte.
Import Loader Sample.

(** A name of one character, the byte 0x80. *)
Definition high_name : string := String "128"%char EmptyString.

(** A module with one symbol of that name and the value 0x1234: [.hash] at
    0x00 with three buckets, [.dynsym] at 0x20, [.dynstr] at 0x40.  The
    symbol is chained from bucket 128 mod 3 = 2, where the hash of the ELF
    [.hash] section puts a name made of the byte 0x80. *)
Definition named_words : list Z :=
  [ 3; 2; 0; 0; 1; 0; 0; 0;
    0; 0; 0; 0;
    1; 0x1234; 0; 0x00010012;
    0x00008000 ].
Definition named_handle : DLL :=
  mkDLL BASE 0 68 BASE BASE (BASE + 0x20) (BASE + 0x40) 2 0.
Definition named_module : World :=
  mkWorld SymbolMap.initial None (mkMemory BASE named_words) [BASE; HANDLE] [].

End HighByte.

(** * Properties *)

(** ** Machine integers *)

Lemma u32_range x : 0 <= u32 x < 2 ^ 32.
Proof. unfold u32. apply Z.mod_pos_bound. lia. Qed.

Lemma u32_small x : 0 <= x < 2 ^ 32 -> u32 x = x.
Proof. intros H. unfold u32. now apply Z.mod_small. Qed.

(** Masking by the low 32 bits of [x] is masking by [x] for a 32-bit value. *)
Lemma land_u32_r v x : 0 <= v < 2 ^ 32 -> Z.land v (u32 x) = Z.land v x.
Proof.
  intros Hv. unfold u32.
  rewrite <- Z.land_ones by lia.
  rewrite (Z.land_comm x), Z.land_assoc, Z.land_ones by lia.
  now rewrite Z.mod_small.
Qed.

Lemma log2_u32 a : 0 <= a < 2 ^ 32 -> Z.log2 a < 32.
Proof.
  intros H. destruct (Z.eq_dec a 0) as [->|]; [simpl; lia|].
  apply Z.log2_lt_pow2; lia.
Qed.

Lemma land_u32 a b : 0 <= a < 2 ^ 32 -> 0 <= b -> 0 <= Z.land a b < 2 ^ 32.
Proof.
  intros Ha Hb.
  assert (H0 : 0 <= Z.land a b) by (apply Z.land_nonneg; lia).
  split; [exact H0|].
  destruct (Z.eq_dec (Z.land a b) 0) as [->|Hnz]; [lia|].
  apply Z.log2_lt_pow2; [lia|].
  pose proof (Z.log2_land a b ltac:(lia) Hb).
  pose proof (log2_u32 a Ha). lia.
Qed.

Lemma lxor_u32 a b : 0 <= a < 2 ^ 32 -> 0 <= b < 2 ^ 32 -> 0 <= Z.lxor a b < 2 ^ 32.
Proof.
  intros Ha Hb. split.
  - apply Z.lxor_nonneg. lia.
  - destruct (Z.eq_dec (Z.lxor a b) 0) as [->|Hnz]; [lia|].
    assert (0 < Z.lxor a b) by (pose proof (proj2 (Z.lxor_nonneg a b)); lia).
    apply Z.log2_lt_pow2; [lia|].
    pose proof (Z.log2_lxor a b ltac:(lia) ltac:(lia)) as Hl.
    pose proof (log2_u32 a Ha). pose proof (log2_u32 b Hb). lia.
Qed.

(** ** The hash function *)

Section HashRefinement.
Import Hash.

Lemma hash_round_pjw_step v c : hash_round v c = pjw_step v (u32 (schar c)).
Proof.
  unfold hash_round, pjw_step.
  assert (E : u32 (u32 (Z.shiftl v 4) + u32 (schar c))
              = (v * 16 + u32 (schar c)) mod 2 ^ 32).
  { unfold u32 at 1 2. rewrite Z.shiftl_mul_pow2 by lia.
    now rewrite Zplus_mod_idemp_l. }
  rewrite E. set (h := (v * 16 + u32 (schar c)) mod 2 ^ 32).
  assert (Hh : 0 <= h < 2 ^ 32) by (apply Z.mod_pos_bound; lia).
  set (nibble := Z.land h 4026531840).
  assert (Hn : 0 <= nibble < 2 ^ 32).
  { subst nibble. apply land_u32; lia. }
  rewrite Z.shiftr_div_pow2 by lia.
  apply land_u32_r.
  destruct (nibble =? 0); [exact Hh|].
  apply lxor_u32; [exact Hh|].
  split; [apply Z.div_pos; lia|].
  apply Z.div_lt_upper_bound; lia.
Qed.

(** The hash is the fold of the step of section 4.1 over the characters as
    the code reads them. *)
Lemma hash_from_fold v s : hash_from v s = fold_left pjw_step (chars_read s) v.
Proof.
  revert v. induction s as [|c s IH]; intros v; [reflexivity|].
  unfold chars_read in *. simpl.
  destruct (is_nul c); [reflexivity|].
  simpl. rewrite IH. now rewrite hash_round_pjw_step.
Qed.

Lemma char_code_range c : 0 <= char_code c < 256.
Proof.
  unfold char_code. pose proof (N_ascii_bounded c) as H. lia.
Qed.

(** A 7-bit character is read as its byte code. *)
Lemma schar_seven_bit c : char_code c < 128 -> u32 (schar c) = char_code c.
Proof.
  intros H. pose proof (char_code_range c). unfold schar.
  destruct (char_code c <? 128) eqn:E; [|apply Z.ltb_ge in E; lia].
  apply u32_small. lia.
Qed.

Lemma chars_read_seven_bit s : seven_bit s = true -> chars_read s = bytes_of s.
Proof.
  unfold chars_read, bytes_of. induction s as [|c s IH]; [reflexivity|].
  cbn [seven_bit cstr]. destruct (is_nul c); [reflexivity|].
  intros H. apply andb_prop in H as [Hc Hs]. apply Z.ltb_lt in Hc.
  cbn [list_ascii_of_string map]. now rewrite IH, schar_seven_bit.
Qed.

End HashRefinement.

(** ** The scanner *)

Section ScanFacts.
Import Scan.

Lemma take_chars_length n s : (String.length (take_chars n s) <= n)%nat.
Proof.
  revert s. induction n as [|n IH]; intros [|c s]; simpl; try lia.
  specialize (IH s). lia.
Qed.

Lemma scan_word_take width s : fst (scan_word width s) = take_chars width (word_of s).
Proof.
  revert s. induction width as [|w IH]; intros [|c s]; simpl; try reflexivity.
  destruct (isspace c); [reflexivity|].
  specialize (IH s). destruct (scan_word w s) as [tok r]. simpl in *.
  now rewrite IH.
Qed.

(** When the token is longer than the field width, the scan stops in the
    middle of it: what follows starts with the token's next character. *)
Lemma scan_word_cut width s :
  (width < String.length (word_of s))%nat ->
  exists c rest,
    String.get width (word_of s) = Some c /\ isspace c = false /\
    snd (scan_word width s) = String c rest.
Proof.
  revert s. induction width as [|w IH]; intros [|c s]; simpl; try lia.
  - destruct (isspace c) eqn:E; simpl; [lia|]. intros _. eauto.
  - destruct (isspace c) eqn:E; simpl; [lia|]. intros H.
    destruct (IH s ltac:(lia)) as (c' & rest & Hg & Hs & Hr).
    destruct (scan_word w s) as [tok r]. simpl in *. eauto.
Qed.

Lemma skip_space_head c s : isspace c = false -> skip_space (String c s) = String c s.
Proof. intros H. simpl. now rewrite H. Qed.

(** The name the call assigns is the token cut to 63 characters. *)
Lemma sscanf_name line :
  1 <= parsed (sscanf line) -> name (sscanf line) = take_chars 63 (name_token line).
Proof.
  unfold sscanf, name_token.
  destruct (skip_space (cstr line)) as [|c0 s0] eqn:E0; [simpl; unfold EOF; lia|].
  intros _.
  pose proof (scan_word_take 63 (String c0 s0)) as Hn.
  destruct (scan_word 63 (String c0 s0)) as [nm s1]. simpl in Hn. subst nm.
  destruct (skip_space s1) as [|c2 s2]; [reflexivity|].
  destruct (scan_word 1 (String c2 s2)) as [ty s3].
  destruct (scan_hex s3) as [[a s4]|]; [|reflexivity].
  destruct (scan_hex s4); reflexivity.
Qed.

Lemma sscanf_name_length line : (String.length (name (sscanf line)) <= 63)%nat.
Proof.
  destruct (Z_lt_le_dec (parsed (sscanf line)) 1) as [H|H].
  - revert H. unfold sscanf.
    destruct (skip_space (cstr line)) as [|c0 s0]; [simpl; lia|].
    destruct (scan_word 63 (String c0 s0)) as [nm s1].
    destruct (skip_space s1) as [|c2 s2]; [simpl; lia|].
    destruct (scan_word 1 (String c2 s2)) as [ty s3].
    destruct (scan_hex s3) as [[a s4]|]; [|simpl; lia].
    destruct (scan_hex s4); simpl; lia.
  - rewrite sscanf_name by exact H. apply take_chars_length.
Qed.

(** The call when the 63 characters of the name stop in the middle of a
    token: the next character is the whole of the second conversion. *)
Lemma sscanf_cut line c0 s0 nm c rest :
  skip_space (cstr line) = String c0 s0 ->
  scan_word 63 (String c0 s0) = (nm, String c rest) ->
  isspace c = false ->
  2 <= parsed (sscanf line) /\ name (sscanf line) = nm /\
  type_string (sscanf line) = String c EmptyString.
Proof.
  intros E0 E1 Hsp. unfold sscanf. rewrite E0, E1.
  rewrite (skip_space_head _ _ Hsp).
  assert (Hty : scan_word 1 (String c rest) = (String c EmptyString, rest)).
  { cbn [scan_word]. rewrite Hsp. now destruct rest. }
  rewrite Hty.
  destruct (scan_hex rest) as [[a s4]|].
  - destruct (scan_hex s4); cbn [parsed name type_string]; repeat split; lia.
  - cbn [parsed name type_string]; repeat split; lia.
Qed.

(** A token of 64 characters or more: the name is its first 63 characters,
    and its 64th character is taken for the type letter. *)
Lemma sscanf_long_name line :
  (64 <= String.length (name_token line))%nat ->
  2 <= parsed (sscanf line) /\
  name (sscanf line) = take_chars 63 (name_token line) /\
  name (sscanf line) <> name_token line /\
  exists c, String.get 63 (name_token line) = Some c /\
            type_string (sscanf line) = String c EmptyString.
Proof.
  intros Hlen.
  assert (Hcut : exists c rest,
             String.get 63 (name_token line) = Some c /\ isspace c = false /\
             snd (scan_word 63 (skip_space (cstr line))) = String c rest).
  { apply scan_word_cut. unfold name_token in Hlen. lia. }
  destruct Hcut as (c & rest & Hget & Hsp & Hsnd).
  assert (Hne : take_chars 63 (name_token line) <> name_token line).
  { intros E. pose proof (take_chars_length 63 (name_token line)) as H.
    rewrite E in H. lia. }
  pose proof (scan_word_take 63 (skip_space (cstr line))) as Hn.
  fold (name_token line) in Hn.
  destruct (skip_space (cstr line)) as [|c0 s0] eqn:E0.
  { unfold name_token in Hlen. rewrite E0 in Hlen. simpl in Hlen. lia. }
  destruct (scan_word 63 (String c0 s0)) as [nm s1] eqn:E1.
  cbn [fst snd] in Hn, Hsnd. subst s1.
  destruct (sscanf_cut line c0 s0 nm c rest E0 E1 Hsp) as (Hp & Hnm & Hty).
  rewrite Hnm, Hn. repeat split; eauto.
Qed.

End ScanFacts.

(** ** The symbol map parser *)

Section ParserFacts.
Import Scan SymbolMap.

Lemma elem_of_insert_inv {A : Type} (l : list A) (i : nat) (x y : A) :
  x ∈ <[i := y]> l -> x = y \/ x ∈ l.
Proof.
  intros H. apply list_elem_of_lookup in H as [j Hj].
  apply list_lookup_insert_Some in Hj as [(_ & <- & _)|(_ & Hj)].
  - now left.
  - right. apply list_elem_of_lookup. eauto.
Qed.

Lemma parse_line_entries nbucket tb line tb' :
  parse_line nbucket tb line = Return tb' tt ->
  forall e, Some e ∈ entry_table tb' ->
            Some e ∈ entry_table tb \/ entered [line] e.
Proof.
  unfold parse_line. intros H e He.
  destruct (3 <=? parsed (sscanf line)) eqn:Hp; [|injection H as <-; now left].
  destruct (nbucket =? 0); [discriminate|].
  destruct (negb (u32 (address64 (sscanf line)) =? 0)
            && valid_type (first_char (type_string (sscanf line))));
    [|injection H as <-; now left].
  destruct (index tb <? Z.of_nat (length (entry_table tb))); [|discriminate].
  destruct (chain_end _ _ _ _) as [k []| |]; try discriminate.
  injection H as <-. cbn [entry_table] in He.
  apply elem_of_insert_inv in He as [He|He]; [|now left].
  right. injection He as ->. exists line. cbn [hash ptr].
  repeat split; try reflexivity; [apply list_elem_of_In; now left | lia].
Qed.

Lemma entered_mono l1 l2 e : (forall x, x ∈ l1 -> x ∈ l2) -> entered l1 e -> entered l2 e.
Proof. intros Hsub (line & Hin & H). exists line. split; [auto|exact H]. Qed.

Lemma parse_lines_entries nbucket lines : forall tb tb',
  parse_lines nbucket tb lines = Return tb' tt ->
  forall e, Some e ∈ entry_table tb' ->
            Some e ∈ entry_table tb \/ entered lines e.
Proof.
  induction lines as [|line rest IH]; intros tb tb' H e He; simpl in H.
  - injection H as <-. now left.
  - destruct (parse_line nbucket tb line) as [tb1 []| |] eqn:E1; try discriminate.
    destruct (IH _ _ H e He) as [Hin|Hin].
    + destruct (parse_line_entries _ _ _ _ E1 e Hin) as [?|Hl]; [now left|right].
      eapply entered_mono; [|exact Hl].
      intros x Hx. apply list_elem_of_In in Hx as [->|[]]. apply list_elem_of_In. now left.
    + right. eapply entered_mono; [|exact Hin].
      intros x Hx. apply list_elem_of_In. right. now apply list_elem_of_In.
Qed.

Lemma not_in_fresh_entries (e : MapEntry) n : ~ Some e ∈ replicate n (@None MapEntry).
Proof. intros H. apply elem_of_replicate_inv in H. discriminate. Qed.

(** Every entry of the map a call leaves was entered from a line start of
    the text. *)
Lemma parse_map_entries m text st r st' :
  DL_ParseSymbolMap m text st = Return r st' ->
  forall e, Some e ∈ _map_entry_table st' -> entered (line_starts true text) e.
Proof.
  unfold DL_ParseSymbolMap. intros H e He.
  destruct (negb (hash_table_granted m && entry_table_granted m)).
  { injection H as _ <-. cbn [_map_entry_table] in He.
    destruct (entry_table_granted m).
    - now apply not_in_fresh_entries in He.
    - now apply elem_of_nil in He. }
  destruct (init_hash_table _ _ _ _) as [table|]; [|discriminate].
  destruct (parse_lines _ _ _) as [tb []| |] eqn:E; try discriminate.
  assert (He' : Some e ∈ entry_table tb).
  { destruct (u32 (count_newlines text) =? 0); injection H as _ <-; exact He. }
  destruct (parse_lines_entries _ _ _ _ E e He') as [Hin|Hin]; [|exact Hin].
  cbn [entry_table] in Hin. destruct (entry_table_granted m).
  - now apply not_in_fresh_entries in Hin.
  - now apply elem_of_nil in Hin.
Qed.

(** The count a successful call returns is the number of line feeds. *)
Lemma parse_map_count m text st r st' :
  DL_ParseSymbolMap m text st = Return r st' ->
  r = -1 \/ r = s32 (u32 (count_newlines text)).
Proof.
  unfold DL_ParseSymbolMap. intros H.
  destruct (negb (hash_table_granted m && entry_table_granted m)).
  { injection H as <- _. now left. }
  destruct (init_hash_table _ _ _ _) as [table|]; [|discriminate].
  destruct (parse_lines _ _ _) as [tb []| |]; try discriminate.
  destruct (u32 (count_newlines text) =? 0); injection H as <- _; auto.
Qed.

(** A call that was granted its hash table never leaves the map unloaded. *)
Lemma parse_map_keeps_table m text st r st' :
  DL_ParseSymbolMap m text st = Return r st' ->
  hash_table_granted m = true -> _map_hash_table st' <> None.
Proof.
  unfold DL_ParseSymbolMap. intros H Hg. rewrite Hg in H.
  destruct (negb (true && entry_table_granted m)).
  { injection H as _ <-. discriminate. }
  destruct (init_hash_table _ _ _ _) as [table|]; [|discriminate].
  destruct (parse_lines _ _ _) as [tb []| |]; try discriminate.
  destruct (u32 (count_newlines text) =? 0); injection H as _ <-; discriminate.
Qed.

(** A walk that reaches the sentinel reads the entry at that index. *)
Lemma chain_find_sentinel fuel table (entries : list (option MapEntry)) nbucket h :
  Z.of_nat (length entries) <= SENTINEL ->
  chain_find (S fuel) table entries nbucket h SENTINEL = Undefined OutOfBounds.
Proof.
  intros Hlen. cbn [chain_find]. change (SENTINEL =? 0) with false. cbn iota.
  unfold read. destruct (SENTINEL <? Z.of_nat (length entries)) eqn:E; [lia|].
  now rewrite andb_false_r.
Qed.

End ParserFacts.

Section FirstEntry.
Import Scan SymbolMap.

Lemma read_insert_eq {A : Type} (l : list A) (k : Z) (x y : A) :
  read l k = Some y -> read (<[Z.to_nat k := x]> l) k = Some x.
Proof.
  unfold read. rewrite length_insert.
  destruct ((0 <=? k) && (k <? Z.of_nat (length l))) eqn:E; [|discriminate].
  intros _. apply list_lookup_insert_eq. lia.
Qed.

Lemma read_insert_ne {A : Type} (l : list A) (k j : Z) (x : A) :
  0 <= k -> j <> k -> read (<[Z.to_nat k := x]> l) j = read l j.
Proof.
  intros Hk Hne. unfold read. rewrite length_insert.
  destruct ((0 <=? j) && (j <? Z.of_nat (length l))) eqn:E; [|reflexivity].
  apply list_lookup_insert_ne. lia.
Qed.

Lemma read_Some_range {A : Type} (l : list A) (k : Z) (y : A) :
  read l k = Some y -> 0 <= k < Z.of_nat (length l).
Proof.
  unfold read.
  destruct ((0 <=? k) && (k <? Z.of_nat (length l))) eqn:E; [lia|discriminate].
Qed.

(** The cell the walk of the parser ends on holds the sentinel. *)
Lemma chain_end_sentinel table nbucket fuel : forall k0 k,
  chain_end fuel table nbucket k0 = Return k tt -> read table k = Some SENTINEL.
Proof.
  induction fuel as [|fuel IH]; intros k0 k H; [discriminate|].
  cbn [chain_end] in H. destruct (read table k0) as [v|] eqn:Ev; [|discriminate].
  destruct (v =? SENTINEL) eqn:Es.
  - injection H as <-. rewrite Ev. f_equal. lia.
  - eauto.
Qed.

Lemma count_newlines_nonneg text : 0 <= count_newlines text.
Proof.
  induction text as [|c text IH]; cbn [count_newlines]; [lia|].
  destruct (char_code c =? 10); lia.
Qed.

Lemma parse_line_first_entry nbucket table0 cells tb line tb' :
  0 <= nbucket -> nbucket <> SENTINEL -> Z.of_nat cells < 2 ^ 32 ->
  (forall b, 0 <= b < nbucket -> read table0 (u32 (2 + b)) = Some SENTINEL) ->
  first_entry_inv nbucket table0 cells tb ->
  parse_line nbucket tb line = Return tb' tt ->
  first_entry_inv nbucket table0 cells tb'.
Proof.
  intros Hnb0 Hnb Hcells Hinit Hinv H.
  unfold parse_line in H.
  destruct (3 <=? parsed (sscanf line)); [|injection H as <-; exact Hinv].
  destruct (nbucket =? 0) eqn:Enb; [discriminate|].
  destruct (negb (u32 (address64 (sscanf line)) =? 0)
            && valid_type (first_char (type_string (sscanf line))));
    [|injection H as <-; exact Hinv].
  destruct Hinv as (Hhead & Hidx & Hlen & Hzero & Hfirst).
  destruct (index tb <? Z.of_nat (length (entry_table tb))) eqn:Elen; [|discriminate].
  destruct (chain_end _ _ _ _) as [k []| |] eqn:Ek; try discriminate.
  injection H as <-.
  pose proof (chain_end_sentinel _ _ _ _ _ Ek) as Hk.
  pose proof (read_Some_range _ _ _ Hk) as Hkr.
  set (h := Hash._elf_hash (name (sscanf line))) in *.
  set (a := u32 (address64 (sscanf line))) in *.
  assert (Hk0 : k <> 0).
  { intros ->. rewrite Hhead in Hk. injection Hk as Hk. contradiction. }
  assert (Hnext : u32 (index tb + 1) = index tb + 1) by (apply u32_small; lia).
  unfold first_entry_inv. cbn [hash_table entry_table index].
  rewrite Hnext, length_insert.
  split; [|split; [|split; [|split]]].
  - rewrite read_insert_ne by lia. exact Hhead.
  - lia.
  - exact Hlen.
  - lia.
  - intros e He. destruct (Z.eq_dec (index tb) 0) as [E0|E0].
    + destruct (Hzero E0) as [Htab _]. rewrite E0 in He.
      assert (Hr : exists y, read (entry_table tb) 0 = Some y).
      { unfold read. replace ((0 <=? 0) && (0 <? Z.of_nat (length (entry_table tb))))
          with true by lia.
        apply lookup_lt_is_Some. lia. }
      destruct Hr as [y Hy].
      change (Z.to_nat 0) with (Z.to_nat 0%Z) in He.
      rewrite (read_insert_eq _ 0 _ _ Hy) in He. injection He as <-. cbn [hash].
      assert (Hb : read (hash_table tb) (u32 (2 + h mod nbucket)) = Some SENTINEL).
      { rewrite Htab. apply Hinit. apply Z.mod_pos_bound. lia. }
      cbn [chain_end] in Ek. rewrite Hb in Ek. cbn in Ek. injection Ek as <-.
      rewrite E0. eapply read_insert_eq; eauto.
    + rewrite read_insert_ne in He by lia.
      specialize (Hfirst e He).
      rewrite read_insert_ne; [exact Hfirst|lia|].
      intros E. rewrite E, Hk in Hfirst. discriminate.
Qed.

Lemma parse_lines_first_entry nbucket table0 cells lines : forall tb tb',
  0 <= nbucket -> nbucket <> SENTINEL -> Z.of_nat cells < 2 ^ 32 ->
  (forall b, 0 <= b < nbucket -> read table0 (u32 (2 + b)) = Some SENTINEL) ->
  first_entry_inv nbucket table0 cells tb ->
  parse_lines nbucket tb lines = Return tb' tt ->
  first_entry_inv nbucket table0 cells tb'.
Proof.
  induction lines as [|line rest IH]; intros tb tb' H0 H1 H2 H3 Hinv H; simpl in H.
  - now injection H as <-.
  - destruct (parse_line nbucket tb line) as [tb1 []| |] eqn:E1; try discriminate.
    apply (IH tb1 tb' H0 H1 H2 H3); [|exact H].
    exact (parse_line_first_entry _ _ _ _ _ _ H0 H1 H2 H3 Hinv E1).
Qed.

(** The entry at chain index 0 is never found: the head of its bucket holds
    0, which the lookup takes for the end of the chain. *)
Lemma first_entry_unreachable m text st r st' e nm :
  count_newlines text < 2 ^ 28 ->
  DL_ParseSymbolMap m text st = Return r st' ->
  read (_map_entry_table st') 0 = Some (Some e) ->
  Hash._elf_hash nm = hash e ->
  DL_GetSymbolByName nm st' = Return 0 (set_error ERR_MAP_SYMBOL st').
Proof.
  intros Hsmall Hp He Hh.
  pose proof (count_newlines_nonneg text) as Hpos.
  unfold DL_ParseSymbolMap in Hp.
  rewrite (u32_small (count_newlines text)) in Hp by lia.
  set (n := count_newlines text) in *.
  destruct (negb (hash_table_granted m && entry_table_granted m)).
  { injection Hp as _ <-. cbn [_map_entry_table] in He.
    destruct (entry_table_granted m); [|discriminate].
    unfold read in He. destruct (_ && _); [|discriminate].
    apply lookup_replicate in He as [He _]. discriminate. }
  destruct (init_hash_table _ _ _ _) as [table0|] eqn:Einit; [|discriminate].
  destruct (parse_lines _ _ _) as [tb []| |] eqn:Elines; try discriminate.
  set (fresh := if entry_table_granted m
                then replicate (Z.to_nat (entry_table_cells n)) None else [])
    in *.
  assert (Hcells : Z.of_nat (length fresh) < 2 ^ 32).
  { subst fresh. destruct (entry_table_granted m); [|cbn; lia].
    rewrite length_replicate. unfold entry_table_cells.
    pose proof (u32_range (8 * n)).
    assert (0 <= u32 (8 * n) / 8) by (apply Z.div_pos; lia).
    assert (u32 (8 * n) / 8 < 2 ^ 32) by (apply Z.div_lt_upper_bound; lia).
    lia. }
  unfold init_hash_table, hash_table_cells in Einit.
  replace (n + n) with (2 * n) in Einit by lia.
  rewrite (u32_small (2 * n)) in Einit by lia.
  rewrite (u32_small (4 * (2 + n + n))) in Einit by lia.
  replace (4 * (2 + n + n) / 4) with (2 + 2 * n) in Einit
    by (apply Z.div_unique with 0; lia).
  rewrite Z.leb_refl in Einit. injection Einit as Einit.
  assert (Hinv0 : first_entry_inv n table0 (length fresh) (mkTables table0 fresh 0)).
  { unfold first_entry_inv. cbn [hash_table entry_table index].
    assert (Hnone : forall e0, read fresh 0 <> Some (Some e0)).
    { intros e0 Hr. subst fresh. destruct (entry_table_granted m); [|discriminate].
      unfold read in Hr. destruct (_ && _); [|discriminate].
      apply lookup_replicate in Hr as [Hr _]. discriminate. }
    repeat split; try lia; try assumption.
    - rewrite <- Einit. reflexivity.
    - intros e0 Hr. now apply Hnone in Hr. }
  assert (Hfill : forall b, 0 <= b < n -> read table0 (u32 (2 + b)) = Some SENTINEL).
  { intros b Hb. rewrite u32_small by lia.
    assert (Hl : length table0
                 = (2 + (Z.to_nat (2 * n) + Z.to_nat (2 + 2 * n - 2 - 2 * n)))%nat).
    { rewrite <- Einit. cbn [app length].
      rewrite length_app, !length_replicate. reflexivity. }
    unfold read. destruct (_ && _) eqn:E.
    - rewrite <- Einit.
      replace (Z.to_nat (2 + b)) with (S (S (Z.to_nat b))) by lia.
      cbn [app]. rewrite lookup_cons. cbv iota beta.
      rewrite lookup_cons. cbv iota beta.
      rewrite lookup_app_l by (rewrite length_replicate; lia).
      apply lookup_replicate_2. lia.
    - apply andb_false_iff in E as [E|E].
      + apply Z.leb_gt in E. lia.
      + apply Z.ltb_ge in E. lia. }
  assert (Hsent : n <> SENTINEL) by (unfold SENTINEL; lia).
  pose proof (parse_lines_first_entry _ _ _ _ _ _ Hpos Hsent Hcells Hfill Hinv0 Elines)
    as (Hhead & _ & Hlen & _ & Hfirst).
  assert (Hn0 : n <> 0).
  { intros E.
    assert (Hl0 : length fresh = O).
    { subst fresh. destruct (entry_table_granted m); [|reflexivity].
      rewrite length_replicate, E. reflexivity. }
    destruct (n =? 0) eqn:E0; [|lia]. injection Hp as _ <-.
    cbn [_map_entry_table set_error] in He.
    apply read_Some_range in He. rewrite Hlen, Hl0 in He. lia. }
  destruct (n =? 0) eqn:E0; [lia|]. injection Hp as _ <-.
  cbn [_map_entry_table] in He.
  unfold DL_GetSymbolByName, lookup_hash. cbn [_map_hash_table _map_entry_table].
  rewrite Hhead, E0, Hh, (Hfirst e He). reflexivity.
Qed.

End FirstEntry.

Section SymbolMapClaims.
Import Scan SymbolMap Scenario.

(** C10.  The call reads at most the first 63 characters of a line's name
    token, and the next character of a longer token is read as the type
    letter.  So the hash of every entry of the map is that of a name of at
    most 63 characters, the token cut to 63, and a token of 64 characters
    or more is never the name an entry was hashed from. *)
Theorem name_cut_at_63 :
  (forall line : string,
      (String.length (name (sscanf line)) <= 63)%nat /\
      ((64 <= String.length (name_token line))%nat ->
       2 <= parsed (sscanf line) /\
       name (sscanf line) = take_chars 63 (name_token line) /\
       name (sscanf line) <> name_token line /\
       exists c, String.get 63 (name_token line) = Some c /\
                 type_string (sscanf line) = String c EmptyString)) /\
  (forall (m : Malloc) (text : string) (st st' : State) (r : Z) (e : MapEntry),
      DL_ParseSymbolMap m text st = Return r st' ->
      Some e ∈ _map_entry_table st' ->
      exists line,
        line ∈ line_starts true text /\
        hash e = Hash._elf_hash (name (sscanf line)) /\
        name (sscanf line) = take_chars 63 (name_token line) /\
        (String.length (name (sscanf line)) <= 63)%nat).
Proof.
  split.
  - intros line. split; [apply sscanf_name_length|apply sscanf_long_name].
  - intros m text st st' r e Hp He.
    destruct (parse_map_entries _ _ _ _ _ Hp e He) as (line & Hin & H3 & Hh & _).
    exists line. repeat split; try assumption.
    + apply sscanf_name. lia.
    + apply sscanf_name_length.
Qed.

Lemma name_cut_at_63_witness :
  (2 <= parsed (sscanf long_line) /\
   name (sscanf long_line) = take_chars 63 (name_token long_line) /\
   name (sscanf long_line) <> name_token long_line /\
   exists c, String.get 63 (name_token long_line) = Some c /\
             type_string (sscanf long_line) = String c EmptyString) /\
  (exists line,
      line ∈ line_starts true long_line /\
      26481 = Hash._elf_hash (name (sscanf line)) /\
      name (sscanf line) = take_chars 63 (name_token line) /\
      (String.length (name (sscanf line)) <= 63)%nat).
Proof.
  split.
  - apply (proj2 (proj1 name_cut_at_63 long_line)).
    vm_compute. lia.
  - apply (proj2 name_cut_at_63 granted long_line initial
             (mkState ERR_NONE (Some [1; 1; 0; 4294967295])
                [Some (mkEntry 26481 2147549184)])
             1 (mkEntry 26481 2147549184)).
    + vm_compute. reflexivity.
    + apply list_elem_of_In. left. reflexivity.
Defined.

(** C1.  A name added by the parser is meant to be found again with its
    address.  On the two-symbol map of scenario 1 it is not for the first
    valid entry: ["foo"] is entered at chain index 0 with address
    0x80010000, no other name of the map has its hash, and the lookup of
    ["foo"] reports [ERR_MAP_SYMBOL] with a null pointer, while ["bar"], at
    index 1, is found. *)
Theorem first_entry_is_not_found :
  exists st : State,
    DL_ParseSymbolMap granted two_symbols initial = Return 2 st /\
    read (_map_entry_table st) 0
      = Some (Some (mkEntry (Hash._elf_hash "foo") 0x80010000)) /\
    Hash._elf_hash "foo" <> Hash._elf_hash "bar" /\
    DL_GetSymbolByName "foo" st = Return 0 (set_error ERR_MAP_SYMBOL st) /\
    DL_GetSymbolByName "bar" st = Return 0x80020000 st.
Proof.
  eexists. split; [vm_compute; reflexivity|].
  repeat split; try (vm_compute; reflexivity).
  vm_compute. discriminate.
Qed.

(** C2.  The count of a successful call is meant to be the number of lines
    entered into the map.  On the text of scenario 2 (one valid line, one of
    type U, one of address zero) the call returns 3, the number of line
    feeds, and the map holds one entry. *)
Theorem count_includes_dropped_lines :
  exists st : State,
    DL_ParseSymbolMap granted with_dropped initial = Return 3 st /\
    _map_entry_table st
      = [Some (mkEntry (Hash._elf_hash "foo") 0x80010000); None; None] /\
    count_newlines with_dropped = 3.
Proof.
  eexists. split; [vm_compute; reflexivity|].
  split; vm_compute; reflexivity.
Qed.

(** C3.  The chain walk of the lookup is meant to stop at the sentinel
    0xFFFFFFFF as it does at 0.  On the map of scenario 1 the walk for
    ["baz"] starts in the bucket of ["bar"], whose entry has another hash
    and whose chain link is the sentinel, and goes on to read the entry at
    index 0xFFFFFFFF, outside the entry table, instead of reporting
    [ERR_MAP_SYMBOL].  On the map of scenario 2 the bucket of ["baz"] is
    empty, its head is the sentinel, and the same read is made. *)
Theorem sentinel_is_not_end_of_chain :
  (exists (st : State) (table : list Z),
      DL_ParseSymbolMap granted two_symbols initial = Return 2 st /\
      _map_hash_table st = Some table /\
      read table (2 + Hash._elf_hash "baz" mod 2) = Some 1 /\
      read table (2 + 2 + 1) = Some SENTINEL /\
      DL_GetSymbolByName "baz" st = Undefined OutOfBounds) /\
  (exists (st : State) (table : list Z),
      DL_ParseSymbolMap granted with_dropped initial = Return 3 st /\
      _map_hash_table st = Some table /\
      read table (2 + Hash._elf_hash "baz" mod 3) = Some SENTINEL /\
      DL_GetSymbolByName "baz" st = Undefined OutOfBounds).
Proof.
  split.
  - do 2 eexists. split; [vm_compute; reflexivity|].
    split; [reflexivity|].
    repeat split; vm_compute; reflexivity.
  - do 2 eexists. split; [vm_compute; reflexivity|].
    split; [reflexivity|].
    repeat split; vm_compute; reflexivity.
Qed.

(** C5.  A text with no valid symbol line is meant to make the call fail
    with [ERR_NO_SYMBOLS], return -1 and leave no map loaded.  A text whose
    only line is dropped makes it return 1 with no error set and a map
    loaded; and on the empty text, where it does fail with
    [ERR_NO_SYMBOLS] (both blocks being granted), the hash table it
    allocated stays loaded. *)
Theorem no_valid_line_still_loads_a_map :
  (exists st : State,
      DL_ParseSymbolMap granted only_dropped initial = Return 1 st /\
      _error_code st = ERR_NONE /\
      _map_hash_table st = Some [1; 1; SENTINEL; SENTINEL] /\
      _map_entry_table st = [None]) /\
  (exists st : State,
      DL_ParseSymbolMap granted EmptyString initial = Return (-1) st /\
      _error_code st = ERR_NO_SYMBOLS /\
      _map_hash_table st = Some [0; 0]).
Proof.
  split; eexists; (split; [vm_compute; reflexivity|]); repeat split.
Qed.

End SymbolMapClaims.

(** ** Memory *)

Section MemoryFacts.
Import Loader.

Lemma cell_index_Some m a i :
  cell_index m a = Some i ->
  0 <= a < 2 ^ 32 /\ a = base m + 4 * Z.of_nat i /\ (i < length (words m))%nat.
Proof.
  unfold cell_index. intros H.
  destruct (0 <=? a) eqn:E1; [|discriminate].
  destruct (a <? 2 ^ 32) eqn:E2; [|discriminate].
  destruct (0 <=? a - base m) eqn:E3; [|discriminate].
  destruct ((a - base m) mod 4 =? 0) eqn:E4; [|discriminate].
  destruct ((a - base m) / 4 <? Z.of_nat (length (words m))) eqn:E5; [|discriminate].
  cbn in H. injection H as <-.
  pose proof (Z.div_mod (a - base m) 4 ltac:(lia)) as Hd.
  assert (0 <= (a - base m) / 4) by (apply Z.div_pos; lia).
  rewrite Z2Nat.id by lia. repeat split; lia.
Qed.

Lemma cell_index_store m a v m' b :
  store32 m a v = Some m' -> cell_index m' b = cell_index m b.
Proof.
  unfold store32. destruct (cell_index m a) as [i|]; [|discriminate].
  cbn. intros H. injection H as <-.
  unfold cell_index. cbn [base words]. now rewrite length_insert.
Qed.

Lemma load32_store32_same m a v m' :
  store32 m a v = Some m' -> load32 m' a = Some (u32 v).
Proof.
  intros H. unfold load32. rewrite (cell_index_store _ _ _ _ _ H).
  unfold store32 in H. destruct (cell_index m a) as [i|] eqn:E; [|discriminate].
  cbn in H. injection H as <-. cbn.
  rewrite list_lookup_insert_eq by now apply cell_index_Some in E.
  reflexivity.
Qed.

Lemma load32_store32_other m a v m' b :
  store32 m a v = Some m' -> b <> a -> load32 m' b = load32 m b.
Proof.
  intros H Hne. unfold load32. rewrite (cell_index_store _ _ _ _ _ H).
  unfold store32 in H. destruct (cell_index m a) as [i|] eqn:E; [|discriminate].
  cbn in H. injection H as <-.
  destruct (cell_index m b) as [j|] eqn:Ej; [|reflexivity]. cbn.
  rewrite list_lookup_insert_ne; [reflexivity|].
  apply cell_index_Some in E, Ej. intros ->. lia.
Qed.

Lemma load32_range m a v : load32 m a = Some v -> 0 <= v < 2 ^ 32.
Proof.
  unfold load32. destruct (cell_index m a) as [i|]; [|discriminate]. cbn.
  destruct (words m !! i) as [x|]; [|discriminate]. cbn.
  intros H. injection H as <-. apply u32_range.
Qed.

Lemma load32_address m a v : load32 m a = Some v -> 0 <= a < 2 ^ 32.
Proof.
  unfold load32. destruct (cell_index m a) as [i|] eqn:E; [|discriminate].
  intros _. now apply cell_index_Some in E.
Qed.

Lemma store32_address m a v m' : store32 m a v = Some m' -> 0 <= a < 2 ^ 32.
Proof.
  unfold store32. destruct (cell_index m a) as [i|] eqn:E; [|discriminate].
  intros _. now apply cell_index_Some in E.
Qed.

Lemma load8_inside m a c :
  load8 m a = Some c -> base m <= a < base m + 4 * Z.of_nat (length (words m)).
Proof.
  unfold load8, load32. set (k := (a - base m) mod 4).
  destruct (cell_index m (a - k)) as [i|] eqn:Ei; [|discriminate].
  intros _. apply cell_index_Some in Ei.
  pose proof (Z.mod_pos_bound (a - base m) 4 ltac:(lia)). fold k in H. lia.
Qed.

(** A string is never cut short: the scan has left the buffer before it has
    read as many characters as the buffer has bytes. *)
Lemma load_chars_enough m : forall fuel k a,
  base m + 4 * Z.of_nat (length (words m)) - a < Z.of_nat fuel ->
  load_chars (fuel + k) m a = load_chars fuel m a.
Proof.
  induction fuel as [|fuel IH]; intros k a Hrem.
  - destruct k as [|k]; [reflexivity|]. cbn [Nat.add load_chars].
    destruct (load8 m a) as [c|] eqn:E; [|reflexivity].
    apply load8_inside in E. lia.
  - cbn [Nat.add load_chars].
    destruct (load8 m a) as [c|] eqn:E; [|reflexivity]. cbn.
    destruct (c =? 0); [reflexivity|].
    rewrite IH by lia. reflexivity.
Qed.

Lemma load_string_total m a k :
  load_chars (S (4 * length (words m)) + k) m a = load_string m a.
Proof.
  unfold load_string.
  destruct (Z_lt_le_dec a (base m)) as [Hlow|Hin].
  - cbn [Nat.add load_chars].
    destruct (load8 m a) as [c|] eqn:E; [|reflexivity].
    apply load8_inside in E. lia.
  - apply load_chars_enough. lia.
Qed.

End MemoryFacts.

(** ** The loader *)

Section LoaderFacts.
Import Loader.

Ltac inv_access H x E :=
  match type of H with
  | access ?v _ = _ => destruct v as [x|] eqn:E; cbn [access] in H; [|discriminate H]
  end.

(** *** Relocation of the GOT *)

Lemma got_slot_plain d k : 0 <= k < 2 ^ 32 - 2 -> got_slot d k = got d + 8 + 4 * k.
Proof. intros H. unfold got_slot. rewrite u32_small by lia. lia. Qed.

Lemma relocate_got_addresses n p d : forall i m m',
  relocate_got n p d i m = Some m' ->
  forall k, i <= k < i + Z.of_nat n -> 0 <= got_slot d k < 2 ^ 32.
Proof.
  induction n as [|n IH]; intros i m m' H k Hk; [lia|].
  cbn [relocate_got] in H.
  destruct (load32 m (got_slot d i)) as [v|] eqn:Ev; [|discriminate].
  cbn in H. destruct (store32 m (got_slot d i) (u32 (v + p))) as [m1|] eqn:Es; [|discriminate].
  cbn in H. destruct (Z.eq_dec k i) as [->|Hne].
  - eapply load32_address; eauto.
  - eapply IH; eauto. lia.
Qed.

(** The loop cannot be as long as the address space. *)
Lemma relocate_got_short n p d m m' :
  relocate_got n p d 0 m = Some m' -> 0 <= got d -> Z.of_nat n <= 2 ^ 30 - 2.
Proof.
  intros H Hg.
  destruct (Z_le_gt_dec (Z.of_nat n) (2 ^ 30 - 2)) as [|Hbig]; [assumption|].
  pose proof (relocate_got_addresses _ _ _ _ _ _ H (2 ^ 30 - 2) ltac:(lia)) as Ha.
  unfold got_slot in Ha. rewrite u32_small in Ha by lia. lia.
Qed.

Lemma relocate_got_spec n p d : forall i m m',
  relocate_got n p d i m = Some m' ->
  0 <= i -> i + Z.of_nat n <= 2 ^ 32 - 2 ->
  (forall k, i <= k < i + Z.of_nat n ->
     exists v, load32 m (got_slot d k) = Some v /\
               load32 m' (got_slot d k) = Some (u32 (v + p))) /\
  (forall a, (forall k, i <= k < i + Z.of_nat n -> a <> got_slot d k) ->
     load32 m' a = load32 m a).
Proof.
  induction n as [|n IH]; intros i m m' H Hi Hn.
  - cbn in H. injection H as <-. split; [lia|reflexivity].
  - cbn [relocate_got] in H.
    destruct (load32 m (got_slot d i)) as [v|] eqn:Ev; [|discriminate].
    cbn in H. destruct (store32 m (got_slot d i) (u32 (v + p))) as [m1|] eqn:Es; [|discriminate].
    cbn in H. destruct (IH _ _ _ H ltac:(lia) ltac:(lia)) as [IHs IHf].
    split.
    + intros k Hk. destruct (Z.eq_dec k i) as [->|Hne].
      * exists v. split; [exact Ev|].
        rewrite IHf.
        -- rewrite (load32_store32_same _ _ _ _ Es). now rewrite u32_small by apply u32_range.
        -- intros k Hk'. rewrite !got_slot_plain by lia. lia.
      * destruct (IHs k ltac:(lia)) as (v' & Hv' & Hm').
        exists v'. split; [|exact Hm'].
        rewrite <- Hv'. symmetry. eapply load32_store32_other; eauto.
        rewrite !got_slot_plain by lia. lia.
    + intros a Ha. rewrite IHf by (intros k Hk; apply Ha; lia).
      eapply load32_store32_other; eauto. apply Ha. lia.
Qed.

(** *** Relocation of the symbol table *)

Lemma resolve_now_frame cb dll d name sym value n : forall j c m s m',
  resolve_now n cb dll d name sym value j c m = Return s m' ->
  forall a, (forall k, j <= k < j + Z.of_nat n -> a <> got_slot d k) ->
            load32 m' a = load32 m a.
Proof.
  induction n as [|n IH]; intros j c m s m' H a Ha.
  - cbn in H. now injection H as _ <-.
  - cbn [resolve_now] in H.
    inv_access H v Ev.
    destruct (negb (v =? value)).
    { eapply IH; eauto. intros k Hk. apply Ha. lia. }
    inv_access H shndx Esh. inv_access H info Einfo.
    destruct ((shndx =? 0) && _); [|now injection H as _ <-].
    destruct cb as [resolve|]; [|discriminate].
    inv_access H m1 Es.
    assert (load32 m1 a = load32 m a).
    { eapply load32_store32_other; eauto. apply Ha. lia. }
    destruct (u32 (resolve dll name) =? 0); injection H as _ <-; assumption.
Qed.

Lemma resolve_now_cursor cb dll d name sym value n : forall j c m c' m',
  resolve_now n cb dll d name sym value j c m = Return (Cursor c') m' ->
  0 <= c -> 0 <= j -> 0 <= c'.
Proof.
  induction n as [|n IH]; intros j c m c' m' H Hc Hj.
  - cbn in H. injection H as <- _. exact Hc.
  - cbn [resolve_now] in H.
    inv_access H v Ev.
    destruct (negb (v =? value)).
    { eapply IH; eauto. lia. }
    inv_access H shndx Esh. inv_access H info Einfo.
    destruct ((shndx =? 0) && _); [|injection H as <- _; exact Hj].
    destruct cb as [resolve|]; [|discriminate].
    inv_access H m1 Es.
    destruct (u32 (resolve dll name) =? 0); [discriminate|].
    injection H as <- _; exact Hj.
Qed.

Lemma relocate_symbols_frame mode cb p dll d n : forall i c m s m',
  relocate_symbols n mode cb p dll d i c m = Return s m' ->
  0 <= c ->
  forall a,
    (forall k, i <= k < i + Z.of_nat n -> a <> value_field d k) ->
    (mode = RTLD_NOW -> forall j, 0 <= j < got_length d -> a <> got_slot d j) ->
    load32 m' a = load32 m a.
Proof.
  induction n as [|n IH]; intros i c m s m' H Hc a Hv Hg.
  - cbn in H. now injection H as _ <-.
  - cbn [relocate_symbols] in H.
    inv_access H off Eoff. inv_access H v Ev.
    destruct (v =? 0).
    { eapply IH; eauto. intros k Hk. apply Hv. lia. }
    inv_access H m1 Es. inv_access H nm Enm.
    assert (H1 : load32 m1 a = load32 m a).
    { eapply load32_store32_other; eauto.
      specialize (Hv i ltac:(lia)). unfold value_field in Hv. exact Hv. }
    destruct mode.
    + rewrite <- H1. eapply IH; eauto. intros k Hk. apply Hv. lia.
    + destruct (resolve_now _ _ _ _ _ _ _ _ _ _) as [[c'|] m2| |] eqn:Er;
        try discriminate.
      * pose proof (resolve_now_cursor _ _ _ _ _ _ _ _ _ _ _ _ Er Hc Hc) as Hc'.
        rewrite <- H1.
        rewrite <- (resolve_now_frame _ _ _ _ _ _ _ _ _ _ _ _ Er a).
        -- eapply IH; eauto. intros k Hk. apply Hv. lia.
        -- intros k Hk. apply Hg; [reflexivity|]. lia.
      * injection H as _ <-. rewrite <- H1.
        eapply resolve_now_frame; eauto.
        intros k Hk. apply Hg; [reflexivity|]. lia.
Qed.

(** *** The walk over [.dynamic] *)

Lemma dynamic_entry_inv p tag val s s' :
  dynamic_entry p tag val s = Some s' ->
  0 <= val < 2 ^ 32 -> 0 <= first_got_sym s < 2 ^ 32 ->
  ptr (dyn_dll s') = ptr (dyn_dll s) /\
  malloc_ptr (dyn_dll s') = malloc_ptr (dyn_dll s) /\
  0 <= first_got_sym s' < 2 ^ 32.
Proof.
  unfold dynamic_entry. intros H Hval Hs.
  repeat match type of H with
         | (if ?c then _ else _) = _ => destruct c
         end;
    try discriminate; injection H as <-; cbn; auto.
Qed.

Lemma dynamic_walk_inv m p fuel : forall dyn s dy,
  dynamic_walk fuel m p dyn s = Some (Some dy) ->
  0 <= first_got_sym s < 2 ^ 32 ->
  ptr (dyn_dll dy) = ptr (dyn_dll s) /\
  malloc_ptr (dyn_dll dy) = malloc_ptr (dyn_dll s) /\
  0 <= first_got_sym dy < 2 ^ 32.
Proof.
  induction fuel as [|fuel IH]; intros dyn s dy H Hs; [discriminate|].
  cbn [dynamic_walk] in H.
  destruct (load32 m dyn) as [tag|]; [|discriminate]. cbn in H.
  destruct (tag =? 0). { injection H as <-. auto. }
  destruct (load32 m (dyn + 4)) as [val|] eqn:Eval; [|discriminate]. cbn in H.
  destruct (dynamic_entry p tag val s) as [s1|] eqn:E1; [|discriminate].
  destruct (dynamic_entry_inv _ _ _ _ _ E1 (load32_range _ _ _ Eval) Hs)
    as (Hp & Hm & Hs1).
  destruct (IH _ _ _ H Hs1) as (Hp' & Hm' & Hs').
  rewrite Hp', Hm', Hp, Hm. auto.
Qed.

(** The walk is never cut short: it has left the buffer before it has made
    as many turns as the buffer has words. *)
Lemma dynamic_walk_enough m p : forall fuel k dyn s,
  base m + 4 * Z.of_nat (length (words m)) - dyn < 8 * Z.of_nat fuel ->
  dynamic_walk (fuel + k) m p dyn s = dynamic_walk fuel m p dyn s.
Proof.
  induction fuel as [|fuel IH]; intros k dyn s Hrem.
  - destruct k as [|k]; [reflexivity|]. cbn [Nat.add dynamic_walk].
    destruct (load32 m dyn) as [tag|] eqn:E; [|reflexivity].
    unfold load32 in E. destruct (cell_index m dyn) as [i|] eqn:Ei; [|discriminate].
    apply cell_index_Some in Ei. lia.
  - cbn [Nat.add dynamic_walk].
    destruct (load32 m dyn) as [tag|] eqn:E; [|reflexivity]. cbn.
    destruct (tag =? 0); [reflexivity|].
    destruct (load32 m (dyn + 4)) as [val|]; [|reflexivity]. cbn.
    destruct (dynamic_entry p tag val s) as [s'|]; [|reflexivity].
    apply IH. lia.
Qed.

Lemma dynamic_walk_total m p s k :
  dynamic_walk (S (length (words m)) + k) m p p s
  = dynamic_walk (S (length (words m))) m p p s.
Proof.
  destruct (Z_lt_le_dec p (base m)) as [Hlow|Hin].
  - cbn [Nat.add dynamic_walk].
    destruct (load32 m p) as [tag|] eqn:E; [|reflexivity].
    unfold load32 in E. destruct (cell_index m p) as [i|] eqn:Ei; [|discriminate].
    apply cell_index_Some in Ei. lia.
  - apply dynamic_walk_enough. lia.
Qed.

(** What one entry of [.dynamic] does to the counts and pointers. *)
Lemma dynamic_entry_fields p t v s s' :
  dynamic_entry p t v s = Some s' ->
  local_got_len s' = (if t =? DT_MIPS_LOCAL_GOTNO then v else local_got_len s) /\
  first_got_sym s' = (if t =? DT_MIPS_GOTSYM then v else first_got_sym s) /\
  symbol_count (dyn_dll s')
  = (if t =? DT_MIPS_SYMTABNO then v else symbol_count (dyn_dll s)) /\
  got (dyn_dll s') = (if t =? DT_PLTGOT then u32 (p + v) else got (dyn_dll s)) /\
  symtab (dyn_dll s') = (if t =? DT_SYMTAB then u32 (p + v) else symtab (dyn_dll s)).
Proof.
  unfold dynamic_entry. intros H.
  repeat match type of H with
         | (if ?c then _ else _) = _ => destruct c eqn:?
         end;
    try discriminate; injection H as <-;
    repeat match goal with
           | E : (t =? _) = true |- _ => apply Z.eqb_eq in E; subst t
           end;
    cbn; repeat split; reflexivity.
Qed.

Lemma dynamic_find_cons tag t v rest dflt :
  default dflt (dynamic_find tag ((t, v) :: rest))
  = default (if t =? tag then v else dflt) (dynamic_find tag rest).
Proof.
  cbn [dynamic_find]. destruct (dynamic_find tag rest); [reflexivity|].
  now destruct (t =? tag).
Qed.

(** The walk of [dlinit] over a [.dynamic] section leaves, for each count
    and pointer, what the last entry with its tag says. *)
Lemma dynamic_walk_fields m p entries : forall fuel dyn s dy,
  dynamic_at m dyn entries = true ->
  dynamic_walk fuel m p dyn s = Some (Some dy) ->
  local_got_len dy
  = default (local_got_len s) (dynamic_find DT_MIPS_LOCAL_GOTNO entries) /\
  first_got_sym dy
  = default (first_got_sym s) (dynamic_find DT_MIPS_GOTSYM entries) /\
  symbol_count (dyn_dll dy)
  = default (symbol_count (dyn_dll s)) (dynamic_find DT_MIPS_SYMTABNO entries) /\
  got (dyn_dll dy)
  = default (got (dyn_dll s)) ((fun v => u32 (p + v)) <$> dynamic_find DT_PLTGOT entries) /\
  symtab (dyn_dll dy)
  = default (symtab (dyn_dll s))
      ((fun v => u32 (p + v)) <$> dynamic_find DT_SYMTAB entries).
Proof.
  induction entries as [|[t v] rest IH]; intros fuel dyn s dy Hat Hwalk;
    (destruct fuel as [|fuel]; [discriminate|]); cbn [dynamic_walk] in Hwalk;
    cbn [dynamic_at] in Hat.
  - destruct (load32 m dyn) as [tag|]; [|discriminate]. cbn in Hwalk.
    rewrite Hat in Hwalk. injection Hwalk as <-. cbn. auto.
  - apply andb_prop in Hat as [Hat Hrest]. apply andb_prop in Hat as [Hat Hval].
    apply andb_prop in Hat as [Hnz Htag].
    destruct (load32 m dyn) as [tag|]; [|discriminate].
    apply Z.eqb_eq in Htag. subst tag. cbn in Hwalk.
    apply negb_true_iff in Hnz. rewrite Hnz in Hwalk.
    destruct (load32 m (dyn + 4)) as [val|]; [|discriminate].
    apply Z.eqb_eq in Hval. subst val. cbn in Hwalk.
    destruct (dynamic_entry p t v s) as [s1|] eqn:E1; [|discriminate].
    destruct (dynamic_entry_fields _ _ _ _ _ E1) as (F1 & F2 & F3 & F4 & F5).
    destruct (IH _ _ _ _ Hrest Hwalk) as (G1 & G2 & G3 & G4 & G5).
    rewrite G1, G2, G3, G4, G5, F1, F2, F3, F4, F5.
    rewrite !dynamic_find_cons. cbn [dynamic_find].
    repeat split.
    + destruct (dynamic_find DT_PLTGOT rest); [reflexivity|].
      now destruct (t =? DT_PLTGOT).
    + destruct (dynamic_find DT_SYMTAB rest); [reflexivity|].
      now destruct (t =? DT_SYMTAB).
Qed.

(** *** Lookups and calls leave the buffer alone *)

Lemma dlsym_module dll d name w a w' :
  dlsym dll d name w = Return a w' -> dll <> RTLD_DEFAULT ->
  image w' = image w /\ heap w' = heap w /\ calls w' = calls w.
Proof.
  unfold dlsym. intros H Hd.
  destruct (dll =? RTLD_DEFAULT) eqn:E; [lia|].
  inv_access H nbucket En. destruct (nbucket =? 0); [discriminate|].
  inv_access H i Ei.
  destruct (symtab_find _ _ _ _ _ _) as [[v|] []| |]; try discriminate.
  - injection H as _ <-. auto.
  - unfold _ERROR in H. injection H as _ <-. auto.
Qed.

(** For a module handle the answer of [dlsym] depends on the buffer only. *)
Lemma dlsym_module_image dll d name w1 w2 a w1' :
  dlsym dll d name w1 = Return a w1' -> dll <> RTLD_DEFAULT ->
  image w2 = image w1 ->
  exists w2', dlsym dll d name w2 = Return a w2'.
Proof.
  unfold dlsym. intros H Hd Hi.
  destruct (dll =? RTLD_DEFAULT) eqn:E; [lia|]. rewrite Hi.
  inv_access H nbucket En. cbn [access]. destruct (nbucket =? 0); [discriminate|].
  inv_access H i Ei. cbn [access].
  destruct (symtab_find _ _ _ _ _ _) as [[v|] []| |]; try discriminate.
  - injection H as <- _. eauto.
  - unfold _ERROR in *. injection H as <- _. eauto.
Qed.

Lemma load_words_lookup m : forall n a ws,
  load_words m a n = Some ws ->
  length ws = n /\
  forall i, (i < n)%nat -> load32 m (a + 4 * Z.of_nat i) = ws !! i.
Proof.
  induction n as [|n IH]; intros a ws H; cbn [load_words] in H.
  - injection H as <-. split; [reflexivity|lia].
  - destruct (load32 m a) as [x|] eqn:Ex; [|discriminate]. cbn in H.
    destruct (load_words m (a + 4) n) as [xs|] eqn:Exs; [|discriminate]. cbn in H.
    injection H as <-. destruct (IH _ _ Exs) as [Hl Hi].
    split; [cbn; lia|]. intros [|i] Hlt.
    + cbn. rewrite <- Ex. f_equal. lia.
    + cbn. rewrite <- Hi by lia. f_equal. lia.
Qed.

Lemma call_down_spec tbl : forall fs w,
  (forall i, (i < length fs)%nat ->
     load32 (image w) (tbl + 4 * Z.of_nat (S i)) = fs !! i) ->
  call_down (length fs) tbl w = Return tt (add_calls (rev fs) w).
Proof.
  induction fs as [|f fs IH] using rev_ind; intros w H.
  - cbn. unfold add_calls. rewrite app_nil_r. now destruct w.
  - rewrite length_app, Nat.add_comm. cbn [length Nat.add call_down].
    rewrite (H (length fs)) by (rewrite length_app; cbn; lia).
    rewrite lookup_app_r, Nat.sub_diag by lia. cbn [lookup list_lookup access].
    rewrite IH.
    + rewrite rev_app_distr. cbn. unfold add_calls, DL_CALL. cbn.
      now rewrite <- app_assoc.
    + intros i Hi. cbn [image DL_CALL]. rewrite H by (rewrite length_app; lia).
      now rewrite lookup_app_l by lia.
Qed.

Lemma call_up_spec tbl : forall fs i w,
  (forall k, (k < length fs)%nat ->
     load32 (image w) (tbl + 4 * (i + 1 + Z.of_nat k)) = fs !! k) ->
  0 <= i -> i + Z.of_nat (length fs) < 2 ^ 32 ->
  call_up (length fs) tbl i w = Return tt (add_calls fs w).
Proof.
  induction fs as [|f fs IH]; intros i w H Hi Hn.
  - cbn. unfold add_calls. rewrite app_nil_r. now destruct w.
  - cbn [length call_up]. cbn [length] in Hn.
    rewrite u32_small by lia.
    pose proof (H O ltac:(cbn; lia)) as H0.
    replace (i + 1 + Z.of_nat 0) with (i + 1) in H0 by lia.
    rewrite H0. change ((f :: fs) !! O) with (Some f). cbn [access].
    rewrite IH.
    + unfold add_calls, DL_CALL. cbn. now rewrite <- app_assoc.
    + intros k Hk. cbn [image DL_CALL].
      pose proof (H (S k) ltac:(cbn; lia)) as Hk'.
      change ((f :: fs) !! S k) with (fs !! k) in Hk'.
      rewrite <- Hk'. f_equal. lia.
    + lia.
    + lia.
Qed.

Lemma holds_list_inv m tbl fs :
  holds_list m tbl fs ->
  load32 m tbl = Some (Z.of_nat (length fs)) /\
  (forall i, (i < length fs)%nat ->
     load32 m (tbl + 4 * Z.of_nat (S i)) = fs !! i) /\
  Z.of_nat (length fs) < 2 ^ 32.
Proof.
  intros H. destruct (load_words_lookup _ _ _ _ H) as [_ Hi].
  pose proof (Hi O ltac:(lia)) as H0.
  replace (tbl + 4 * Z.of_nat 0) with tbl in H0 by lia.
  change ((Z.of_nat (length fs) :: fs) !! O) with (Some (Z.of_nat (length fs))) in H0.
  split; [exact H0|split].
  - intros i Hlt. now rewrite (Hi (S i)) by lia.
  - apply load32_range in H0. lia.
Qed.

Lemma call_constructors_spec dll d w tbl w1 fs :
  dlsym dll d "__CTOR_LIST__" w = Return tbl w1 -> dll <> RTLD_DEFAULT ->
  tbl <> 0 -> holds_list (image w) tbl fs ->
  call_constructors dll d w = Return tt (add_calls (rev fs) w1).
Proof.
  intros Hs Hd Hl Hh. unfold call_constructors. rewrite Hs. cbn [bind].
  destruct (dlsym_module _ _ _ _ _ _ Hs Hd) as (Hi & _).
  destruct (tbl =? 0) eqn:E; [lia|].
  destruct (holds_list_inv _ _ _ Hh) as (Hc & Hf & _).
  rewrite Hi, Hc. cbn [access]. rewrite Nat2Z.id.
  apply call_down_spec. now rewrite Hi.
Qed.

Lemma call_destructors_spec dll d w tbl w1 fs :
  dlsym dll d "__DTOR_LIST__" w = Return tbl w1 -> dll <> RTLD_DEFAULT ->
  tbl <> 0 -> holds_list (image w) tbl fs ->
  call_destructors dll d w = Return tt (add_calls fs w1).
Proof.
  intros Hs Hd Hl Hh. unfold call_destructors. rewrite Hs. cbn [bind].
  destruct (dlsym_module _ _ _ _ _ _ Hs Hd) as (Hi & _).
  destruct (tbl =? 0) eqn:E; [lia|].
  destruct (holds_list_inv _ _ _ Hh) as (Hc & Hf & Hn).
  rewrite Hi, Hc. cbn [access]. rewrite Nat2Z.id.
  apply call_up_spec; [|lia|lia].
  intros k Hk. rewrite Hi, <- Hf by exact Hk. f_equal. lia.
Qed.

Lemma call_down_frame tbl n : forall w w',
  call_down n tbl w = Return tt w' ->
  image w' = image w /\ heap w' = heap w /\ globals w' = globals w.
Proof.
  induction n as [|n IH]; intros w w' H.
  - cbn in H. now injection H as <-.
  - cbn [call_down] in H. inv_access H f Ef.
    destruct (IH _ _ H) as (-> & -> & ->). auto.
Qed.

Lemma call_up_frame tbl n : forall i w w',
  call_up n tbl i w = Return tt w' ->
  image w' = image w /\ heap w' = heap w /\ globals w' = globals w.
Proof.
  induction n as [|n IH]; intros i w w' H.
  - cbn in H. now injection H as <-.
  - cbn [call_up] in H. inv_access H f Ef.
    destruct (IH _ _ _ H) as (-> & -> & ->). auto.
Qed.

Lemma call_destructors_frame dll d w w' :
  call_destructors dll d w = Return tt w' -> dll <> RTLD_DEFAULT ->
  image w' = image w /\ heap w' = heap w.
Proof.
  unfold call_destructors. intros H Hd.
  destruct (dlsym dll d "__DTOR_LIST__" w) as [tbl w1| |] eqn:Es; try discriminate.
  cbn [bind] in H. destruct (dlsym_module _ _ _ _ _ _ Es Hd) as (<- & <- & _).
  destruct (tbl =? 0). { now injection H as <-. }
  inv_access H count Ec.
  destruct (call_up_frame _ _ _ _ _ H) as (-> & -> & _). auto.
Qed.

Lemma call_constructors_frame dll d w w' :
  call_constructors dll d w = Return tt w' -> dll <> RTLD_DEFAULT ->
  image w' = image w /\ heap w' = heap w.
Proof.
  unfold call_constructors. intros H Hd.
  destruct (dlsym dll d "__CTOR_LIST__" w) as [tbl w1| |] eqn:Es; try discriminate.
  cbn [bind] in H. destruct (dlsym_module _ _ _ _ _ _ Es Hd) as (<- & <- & _).
  destruct (tbl =? 0). { now injection H as <-. }
  inv_access H count Ec.
  destruct (call_down_frame _ _ _ _ H) as (-> & -> & _). auto.
Qed.

(** *** The steps of a successful [dlinit] *)

Lemma dlinit_Some p sz mode dll fresh w h d w' :
  dlinit p sz mode dll fresh w = Return (Some (h, d)) w' ->
  exists dy m1 m2 m3 m4 c,
    p <> 0 /\ dll <> 0 /\ h = dll /\
    dynamic_walk (S (length (words (image w)))) (image w) p p
      (mkDynamic (first_fields p sz fresh) 0 0) = Some (Some dy) /\
    d = set_got_length
          (u32 (local_got_len dy
                + (symbol_count (dyn_dll dy) - first_got_sym dy) - 2))
          (dyn_dll dy) /\
    store32 (image w) (got d) _dl_resolve_wrapper = Some m1 /\
    store32 m1 (got d + 4) dll = Some m2 /\
    relocate_got (Z.to_nat (got_length d)) p d 0 m2 = Some m3 /\
    relocate_symbols (Z.to_nat (symbol_count d)) mode (_dl_resolve_callback w)
      p dll d 0 (first_got_sym dy) m3 = Return (Cursor c) m4 /\
    call_constructors dll d (set_image m4 (set_heap (dll :: heap w) w))
      = Return tt w'.
Proof.
  unfold dlinit. intros H.
  destruct (p =? 0) eqn:Ep; [discriminate|].
  destruct (dll =? 0) eqn:Ed; [discriminate|].
  cbv zeta in H. cbn [image set_heap] in H.
  inv_access H walked Ew. destruct walked as [dy|]; [|discriminate].
  inv_access H m1 E1. inv_access H m2 E2. inv_access H m3 E3.
  cbn [_dl_resolve_callback] in H.
  destruct (relocate_symbols _ _ _ _ _ _ _ _ _) as [[c|] m4| |] eqn:E4;
    try discriminate.
  destruct (call_constructors _ _ _) as [[] w1| |] eqn:E5; try discriminate.
  cbn [bind] in H. injection H as <- <- <-.
  exists dy, m1, m2, m3, m4, c.
  repeat split; try assumption; try reflexivity; lia.
Qed.

(** A failed [dlinit] leaves the heap as it found it. *)
Lemma dlinit_None p sz mode dll fresh w w' :
  dlinit p sz mode dll fresh w = Return None w' -> heap w' = heap w.
Proof.
  unfold dlinit, _ERROR. intros H.
  destruct (p =? 0). { now injection H as <-. }
  destruct (dll =? 0). { now injection H as <-. }
  cbv zeta in H. cbn [image set_heap] in H.
  inv_access H walked Ew.
  destruct walked as [dy|].
  2:{ injection H as <-. cbn. now rewrite Z.eqb_refl. }
  inv_access H m1 E1. inv_access H m2 E2. inv_access H m3 E3.
  destruct (relocate_symbols _ _ _ _ _ _ _ _ _) as [[c|] m4| |] eqn:E4;
    try discriminate.
  - destruct (call_constructors _ _ _) as [[] w1| |]; discriminate.
  - injection H as <-. cbn. now rewrite Z.eqb_refl.
Qed.

End LoaderFacts.

Section LoaderClaims.
Import Loader Sample.

(** C4.  In [RTLD_NOW] mode an undefined function symbol with a GOT slot is
    meant to be resolved by the user's callback when there is one and by
    the global symbol map otherwise.  With no callback set and a map that
    holds ["foo"], [dlinit] on the sample module calls through the null
    [_dl_resolve_callback] instead of asking the map, which is what the
    lazy resolver does for the same symbol after a [RTLD_LAZY] load.  With
    a callback set [dlinit] does as meant: the slot gets the address the
    callback gives, and a null answer makes it fail with [ERR_MAP_SYMBOL],
    return a null pointer and free the handle. *)
Theorem now_mode_calls_null_callback :
  SymbolMap.DL_ParseSymbolMap Scenario.granted foo_map_text SymbolMap.initial
    = Return 2 foo_map /\
  SymbolMap.DL_GetSymbolByName "foo" foo_map = Return 0x80010000 foo_map /\
  dlinit BASE module_size RTLD_NOW HANDLE fresh (loaded foo_map None)
    = Undefined NullCall /\
  (exists d w1 w2,
      dlinit BASE module_size RTLD_LAZY HANDLE fresh (loaded foo_map None)
        = Return (Some (HANDLE, d)) w1 /\
      _dl_resolve_helper HANDLE d 1 w1 = Return 0x80010000 w2 /\
      load32 (image w2) (got_slot d 1) = Some 0x80010000) /\
  (exists d w',
      dlinit BASE module_size RTLD_NOW HANDLE fresh
        (loaded foo_map (Some resolve_foo)) = Return (Some (HANDLE, d)) w' /\
      load32 (image (loaded foo_map None)) (got_slot d 1) = Some 0x200 /\
      load32 (image w') (got_slot d 1) = Some 0x80010000) /\
  (exists w',
      dlinit BASE module_size RTLD_NOW HANDLE fresh
        (loaded foo_map (Some resolve_nothing)) = Return None w' /\
      SymbolMap._error_code (globals w') = ERR_MAP_SYMBOL /\
      heap w' = [BASE]).
Proof.
  split; [vm_compute; reflexivity|].
  split; [vm_compute; reflexivity|].
  split; [vm_compute; reflexivity|].
  split; [|split].
  - do 3 eexists. split; [vm_compute; reflexivity|].
    split; [vm_compute; reflexivity|]. vm_compute. reflexivity.
  - do 2 eexists. split; [vm_compute; reflexivity|].
    split; [vm_compute; reflexivity|]. vm_compute. reflexivity.
  - eexists. split; [vm_compute; reflexivity|].
    split; [vm_compute; reflexivity|]. vm_compute. reflexivity.
Qed.

(** C6.  As stated, for every handle [dlinit] returns, the claim fails:
    on an image whose symbol table lies over its GOT, the relocation of an
    [st_value] field rewrites [got[0]].  Here [dlinit] returns a handle and
    [got[0]] is not the address of the lazy-resolve trampoline. *)
Lemma got_overlap_counterexample :
  exists (d : DLL) (w' : World),
    dlinit BASE DynamicSample.overlapped_size RTLD_LAZY HANDLE fresh DynamicSample.overlapped
    = Return (Some (HANDLE, d)) w' /\
    load32 (image w') (got d) = Some 0x00110400 /\
    load32 (image w') (got d) <> Some _dl_resolve_wrapper.
Proof.
  do 2 eexists. split; [vm_compute; reflexivity|].
  split; vm_compute; [reflexivity|discriminate].
Qed.

(** C6, amended.  Take a module whose [.dynamic] section holds the entries
    [entries], and a handle [dlinit] returns for it, such that no
    [st_value] field of the symbol table is a word of the GOT.  The handle
    has for [got] and [symtab] the base plus the value of [DT_PLTGOT] and
    of [DT_SYMTAB], for [symbol_count] the value of [DT_MIPS_SYMTABNO], and
    for [got_length] the value of [DT_MIPS_LOCAL_GOTNO] plus [symbol_count]
    minus the value of [DT_MIPS_GOTSYM] minus 2, modulo 2^32 (a count with
    no entry is 0, a field with no entry is what the block held).
    [got[0]] is the address of the lazy-resolve trampoline, [got[1]] is the
    address of the handle, and in [RTLD_LAZY] mode every [got[2 + i]] with
    [i < got_length] is its link-time value plus the base. *)
Theorem got_after_init :
  forall (p sz : Z) (mode : DL_ResolveMode) (dll : Z) (fresh : DLL)
         (w : World) (h : Z) (d : DLL) (w' : World) (entries : list (Z * Z)),
    dynamic_at (image w) p entries = true ->
    dlinit p sz mode dll fresh w = Return (Some (h, d)) w' ->
    (forall i k, 0 <= i < symbol_count d -> 0 <= k < 2 + got_length d ->
                 symtab d + 16 * i + 4 <> got d + 4 * k) ->
    h = dll /\
    got d = default (got fresh)
              ((fun v => u32 (p + v)) <$> dynamic_find DT_PLTGOT entries) /\
    symtab d = default (symtab fresh)
                 ((fun v => u32 (p + v)) <$> dynamic_find DT_SYMTAB entries) /\
    symbol_count d
    = default (symbol_count fresh) (dynamic_find DT_MIPS_SYMTABNO entries) /\
    got_length d
    = u32 (default 0 (dynamic_find DT_MIPS_LOCAL_GOTNO entries)
           + (symbol_count d - default 0 (dynamic_find DT_MIPS_GOTSYM entries))
           - 2) /\
    load32 (image w') (got d) = Some _dl_resolve_wrapper /\
    load32 (image w') (got d + 4) = Some (u32 h) /\
    (mode = RTLD_LAZY ->
     forall i, 0 <= i < got_length d ->
       exists v, load32 (image w) (got d + 4 * (2 + i)) = Some v /\
                 load32 (image w') (got d + 4 * (2 + i)) = Some (u32 (v + p))).
Proof.
  intros p sz mode dll fresh w h d w' entries Hat Hinit Hapart.
  destruct (dlinit_Some _ _ _ _ _ _ _ _ _ Hinit)
    as (dy & m1 & m2 & m3 & m4 & c & Hp & Hdll & -> & Hwalk & Hd & E1 & E2 & E3 & E4 & E5).
  destruct (call_constructors_frame _ _ _ _ E5 Hdll) as [Himg _].
  cbn [image set_image] in Himg. rewrite Himg.
  destruct (dynamic_walk_inv _ _ _ _ _ _ Hwalk ltac:(cbn; lia)) as (_ & _ & Hfirst).
  destruct (dynamic_walk_fields _ _ _ _ _ _ _ Hat Hwalk) as (F1 & F2 & F3 & F4 & F5).
  cbn [local_got_len first_got_sym dyn_dll symbol_count got symtab first_fields]
    in F1, F2, F3, F4, F5.
  assert (Hgot : got d = got (dyn_dll dy)) by (rewrite Hd; reflexivity).
  assert (Hsymtab : symtab d = symtab (dyn_dll dy)) by (rewrite Hd; reflexivity).
  assert (Hcount : symbol_count d = symbol_count (dyn_dll dy)) by (rewrite Hd; reflexivity).
  assert (Hgl : got_length d
                = u32 (local_got_len dy
                       + (symbol_count (dyn_dll dy) - first_got_sym dy) - 2))
    by (rewrite Hd; reflexivity).
  assert (Hlen : 0 <= got_length d < 2 ^ 32).
  { rewrite Hgl. apply u32_range. }
  pose proof (store32_address _ _ _ _ E1) as Hgota.
  pose proof (relocate_got_short _ _ _ _ _ E3 ltac:(lia)) as Hshort.
  rewrite Z2Nat.id in Hshort by lia.
  assert (Hslot : forall k, 0 <= k < got_length d -> got_slot d k = got d + 4 * (2 + k)).
  { intros k Hk. rewrite got_slot_plain by lia. lia. }
  destruct (relocate_got_spec _ _ _ _ _ _ E3 ltac:(lia) ltac:(lia)) as [Hreloc Hframe].
  rewrite Z2Nat.id in Hreloc, Hframe by lia.
  assert (Hsyms : forall a,
             (forall k, 0 <= k < symbol_count d -> a <> value_field d k) ->
             (mode = RTLD_NOW -> forall j, 0 <= j < got_length d -> a <> got_slot d j) ->
             load32 m4 a = load32 m3 a).
  { intros a Ha Hb.
    eapply relocate_symbols_frame; [exact E4|lia| |exact Hb].
    intros k Hk. apply Ha. lia. }
  assert (Hfield : forall i k, 0 <= i < symbol_count d -> 0 <= k < 2 + got_length d ->
                               got d + 4 * k <> value_field d i).
  { intros i k Hi Hk E. apply (Hapart i k Hi Hk). unfold value_field, sizeof_Elf32_Sym in E. lia. }
  split; [reflexivity|].
  split; [now rewrite Hgot, F4|].
  split; [now rewrite Hsymtab, F5|].
  split; [now rewrite Hcount, F3|].
  split; [now rewrite Hgl, Hcount, F1, F2|].
  split; [|split].
  - rewrite Hsyms, Hframe.
    + rewrite (load32_store32_other _ _ _ _ _ E2) by lia.
      rewrite (load32_store32_same _ _ _ _ E1). reflexivity.
    + intros k Hk. rewrite Hslot by lia. lia.
    + intros k Hk. replace (got d) with (got d + 4 * 0) by lia. apply Hfield; lia.
    + intros _ j Hj. rewrite Hslot by lia. lia.
  - rewrite Hsyms, Hframe.
    + apply (load32_store32_same _ _ _ _ E2).
    + intros k Hk. rewrite Hslot by lia. lia.
    + intros k Hk. replace (got d + 4) with (got d + 4 * 1) by lia. apply Hfield; lia.
    + intros _ j Hj. rewrite Hslot by lia. lia.
  - intros -> i Hi.
    destruct (Hreloc i Hi) as (v & Hv & Hv').
    rewrite Hslot in Hv, Hv' by lia.
    exists v. split.
    + rewrite <- Hv.
      rewrite (load32_store32_other _ _ _ _ _ E2) by lia.
      rewrite (load32_store32_other _ _ _ _ _ E1) by lia. reflexivity.
    + rewrite Hsyms; [exact Hv'| |discriminate].
      intros k Hk. apply Hfield; lia.
Qed.

Lemma got_after_init_witness :
  exists (d : DLL) (w' : World),
    dlinit BASE module_size RTLD_LAZY HANDLE fresh (loaded SymbolMap.initial None)
      = Return (Some (HANDLE, d)) w' /\
    HANDLE = HANDLE /\
    got d = default (got fresh)
              ((fun v => u32 (BASE + v)) <$> dynamic_find DT_PLTGOT DynamicSample.sample_entries) /\
    symtab d = default (symtab fresh)
                 ((fun v => u32 (BASE + v)) <$> dynamic_find DT_SYMTAB DynamicSample.sample_entries) /\
    symbol_count d
    = default (symbol_count fresh)
        (dynamic_find DT_MIPS_SYMTABNO DynamicSample.sample_entries) /\
    got_length d
    = u32 (default 0 (dynamic_find DT_MIPS_LOCAL_GOTNO DynamicSample.sample_entries)
           + (symbol_count d
              - default 0 (dynamic_find DT_MIPS_GOTSYM DynamicSample.sample_entries))
           - 2) /\
    load32 (image w') (got d) = Some _dl_resolve_wrapper /\
    load32 (image w') (got d + 4) = Some (u32 HANDLE) /\
    (RTLD_LAZY = RTLD_LAZY ->
     forall i, 0 <= i < got_length d ->
       exists v,
         load32 (image (loaded SymbolMap.initial None)) (got d + 4 * (2 + i)) = Some v /\
         load32 (image w') (got d + 4 * (2 + i)) = Some (u32 (v + BASE))).
Proof.
  do 2 eexists. split; [vm_compute; reflexivity|].
  refine (got_after_init BASE module_size RTLD_LAZY HANDLE fresh
            (loaded SymbolMap.initial None) HANDLE _ _ DynamicSample.sample_entries _ _ _).
  - vm_compute. reflexivity.
  - vm_compute. reflexivity.
  - cbn [symbol_count got_length symtab got]. intros i k Hi Hk. lia.
Defined.

(** C7.  When the module has a [__CTOR_LIST__] holding a count and the
    functions [cs], [dlinit] calls them last to first; when it has a
    [__DTOR_LIST__] holding a count and the functions [ds], [dlclose] calls
    them first to last.  For the lists of one module holding the same
    functions, the order of construction is the reverse of the order of
    destruction. *)
Theorem constructors_reverse_destructors :
  forall (p sz : Z) (mode : DL_ResolveMode) (dll : Z) (fresh : DLL)
         (w : World) (h : Z) (d : DLL) (w1 w1' : World)
         (ctor_list : Z) (cs : list Z)
         (w2 w2' : World) (dtor_list : Z) (ds : list Z),
    dlinit p sz mode dll fresh w = Return (Some (h, d)) w1 ->
    dlsym h d "__CTOR_LIST__" w1 = Return ctor_list w1' ->
    ctor_list <> 0 ->
    holds_list (image w1) ctor_list cs ->
    dlsym h d "__DTOR_LIST__" w2 = Return dtor_list w2' ->
    dtor_list <> 0 ->
    holds_list (image w2) dtor_list ds ->
    calls w1 = calls w ++ rev cs /\
    (exists w3, dlclose h d w2 = Return tt w3 /\ calls w3 = calls w2 ++ ds) /\
    (cs = ds ->
     exists made unmade w3,
       calls w1 = calls w ++ made /\
       dlclose h d w2 = Return tt w3 /\ calls w3 = calls w2 ++ unmade /\
       made = rev unmade).
Proof.
  intros p sz mode dll fresh w h d w1 w1' ctor_list cs w2 w2' dtor_list ds
    Hinit Hctor Hc0 Hcs Hdtor Hd0 Hds.
  destruct (dlinit_Some _ _ _ _ _ _ _ _ _ Hinit)
    as (dy & m1 & m2 & m3 & m4 & c & Hp & Hdll & -> & Hwalk & Hd & _ & _ & _ & _ & E5).
  assert (Hdef : dll <> RTLD_DEFAULT) by exact Hdll.
  destruct (call_constructors_frame _ _ _ _ E5 Hdef) as [Himg _].
  destruct (dlsym_module_image _ _ _ _ _ _ _ Hctor Hdef (eq_sym Himg)) as [w0 Hctor0].
  rewrite Himg in Hcs.
  pose proof (call_constructors_spec _ _ _ _ _ _ Hctor0 Hdef Hc0 Hcs) as Hrun.
  rewrite E5 in Hrun. injection Hrun as ->.
  destruct (dlsym_module _ _ _ _ _ _ Hctor0 Hdef) as (_ & _ & Hcalls0).
  assert (Hmade : calls (add_calls (rev cs) w0) = calls w ++ rev cs).
  { cbn. now rewrite Hcalls0. }
  assert (Hptr : ptr d = p).
  { destruct (dynamic_walk_inv _ _ _ _ _ _ Hwalk ltac:(cbn; lia)) as (Hq & _).
    rewrite Hd. cbn. exact Hq. }
  assert (Hclose : exists w3, dlclose dll d w2 = Return tt w3 /\ calls w3 = calls w2 ++ ds).
  { unfold dlclose. destruct (dll =? RTLD_DEFAULT) eqn:E; [unfold RTLD_DEFAULT in *; lia|].
    destruct (ptr d =? 0) eqn:Ep; [lia|].
    rewrite (call_destructors_spec _ _ _ _ _ _ Hdtor Hdef Hd0 Hds). cbn [bind].
    destruct (dlsym_module _ _ _ _ _ _ Hdtor Hdef) as (_ & _ & Hcalls2).
    eexists. split; [reflexivity|].
    destruct (malloc_ptr d =? 0); cbn; now rewrite Hcalls2. }
  split; [exact Hmade|]. split; [exact Hclose|].
  intros ->. destruct Hclose as (w3 & Hw3 & Hc3).
  exists (rev ds), ds, w3. auto.
Qed.

Lemma constructors_reverse_destructors_witness :
  exists (d : DLL) (w1 : World),
    dlinit BASE module_size RTLD_LAZY HANDLE fresh (loaded SymbolMap.initial None)
      = Return (Some (HANDLE, d)) w1 /\
    calls w1 = [] ++ rev [0x300; 0x304; 0x308] /\
    (exists w3, dlclose HANDLE d w1 = Return tt w3 /\
                calls w3 = calls w1 ++ [0x300; 0x304; 0x308]) /\
    ([0x300; 0x304; 0x308] = [0x300; 0x304; 0x308] ->
     exists made unmade w3,
       calls w1 = [] ++ made /\
       dlclose HANDLE d w1 = Return tt w3 /\ calls w3 = calls w1 ++ unmade /\
       made = rev unmade).
Proof.
  do 2 eexists. split; [vm_compute; reflexivity|].
  refine (constructors_reverse_destructors BASE module_size RTLD_LAZY HANDLE fresh
            (loaded SymbolMap.initial None) HANDLE _ _ _
            (BASE + 0x100) [0x300; 0x304; 0x308]
            _ _ (BASE + 0x110) [0x300; 0x304; 0x308]
            _ _ _ _ _ _ _).
  - vm_compute. reflexivity.
  - vm_compute. reflexivity.
  - vm_compute. discriminate.
  - vm_compute. reflexivity.
  - vm_compute. reflexivity.
  - vm_compute. discriminate.
  - vm_compute. reflexivity.
Defined.



(** C8.  [_elf_hash] is written as the hash of the ELF [.hash] section,
    the PJW variant of section 4.1 over the bytes of the name, but it reads
    the name through a plain [char]: a byte of 0x80 or more is sign-extended
    before it is added.  For the name made of the one byte 0x80 the code
    computes 0x0fffff70 where section 4.1 gives 128.  And in a module whose
    [.hash] table chains the symbol of that name from the bucket section
    4.1 assigns to it, [dlsym] looks into another bucket: it reports
    [ERR_DLL_SYMBOL] and returns a null pointer for a symbol the module
    has. *)
Theorem elf_hash_sign_extends_high_bytes :
  Hash._elf_hash HighByte.high_name = 0x0fffff70 /\
  Hash.pjw_hash HighByte.high_name = 128 /\
  load32 (image HighByte.named_module)
    (hash HighByte.named_handle
     + 4 * u32 (2 + Hash.pjw_hash HighByte.high_name mod 3)) = Some 1 /\
  st_name (image HighByte.named_module)
    (symtab HighByte.named_handle + sizeof_Elf32_Sym * 1) = Some 1 /\
  load_string (image HighByte.named_module) (strtab HighByte.named_handle + 1)
  = Some HighByte.high_name /\
  st_value (image HighByte.named_module)
    (symtab HighByte.named_handle + sizeof_Elf32_Sym * 1) = Some 0x1234 /\
  dlsym HANDLE HighByte.named_handle HighByte.high_name HighByte.named_module
  = Return 0
      (set_globals (SymbolMap.set_error ERR_DLL_SYMBOL
                      (globals HighByte.named_module)) HighByte.named_module).
Proof.
  repeat split; vm_compute; reflexivity.
Qed.

End LoaderClaims.

(** * Further properties of the symbol map *)

Section HashRange.
Import Hash.

Lemma nibble_mask_bits n :
  0 <= n -> Z.testbit 0xf0000000 n = (28 <=? n) && (n <? 32).
Proof.
  intros Hn. change 0xf0000000 with (Z.shiftl (Z.ones 4) 28).
  rewrite Z.shiftl_spec by lia.
  destruct (Z_lt_le_dec n 28) as [Hlt|Hge].
  - rewrite Z.testbit_neg_r by lia.
    destruct (28 <=? n) eqn:E; [apply Z.leb_le in E; lia|reflexivity].
  - destruct (Z_lt_le_dec n 32) as [Hlt|Hge'].
    + rewrite Z.ones_spec_low by lia.
      destruct (28 <=? n) eqn:E; [|apply Z.leb_gt in E; lia].
      destruct (n <? 32) eqn:E'; [reflexivity|apply Z.ltb_ge in E'; lia].
    + rewrite Z.ones_spec_high by lia.
      destruct (n <? 32) eqn:E'; [apply Z.ltb_lt in E'; lia|].
      now rewrite andb_false_r.
Qed.

Lemma below_pow2_of_bits r k :
  0 <= k -> 0 <= r -> (forall n, k <= n -> Z.testbit r n = false) -> r < 2 ^ k.
Proof.
  intros Hk Hr Hbits.
  assert (E : r mod 2 ^ k = r).
  { apply Z.bits_inj'. intros n Hn.
    destruct (Z_lt_le_dec n k) as [Hlt|Hge].
    - now rewrite Z.mod_pow2_bits_low.
    - rewrite Z.mod_pow2_bits_high by lia. symmetry. now apply Hbits. }
  rewrite <- E. apply Z.mod_pos_bound. lia.
Qed.

Lemma hash_round_range v c : 0 <= hash_round v c < 2 ^ 28.
Proof.
  unfold hash_round.
  set (h := u32 (u32 (Z.shiftl v 4) + u32 (schar c))).
  assert (Hh : 0 <= h < 2 ^ 32) by apply u32_range.
  set (nibble := Z.land h 4026531840).
  assert (Hn : 0 <= nibble < 2 ^ 32) by (apply land_u32; lia).
  set (x := if nibble =? 0 then h else Z.lxor h (Z.shiftr nibble 24)).
  assert (Hx : 0 <= x).
  { subst x. destruct (nibble =? 0); [lia|].
    apply Z.lxor_nonneg. split; intros _; [|lia].
    apply Z.shiftr_nonneg. lia. }
  assert (Hr : 0 <= Z.land x (u32 (Z.lnot nibble))).
  { apply Z.land_nonneg. now left. }
  split; [exact Hr|].
  apply below_pow2_of_bits; [lia|exact Hr|].
  intros n Hge. rewrite Z.land_spec.
  destruct (Z_lt_le_dec n 32) as [Hlt|Hge32].
  - unfold u32 at 1. rewrite Z.mod_pow2_bits_low by lia.
    rewrite Z.lnot_spec by lia.
    assert (Hnib : Z.testbit nibble n = Z.testbit h n).
    { subst nibble. rewrite Z.land_spec, nibble_mask_bits by lia.
      replace ((28 <=? n) && (n <? 32)) with true; [now rewrite andb_true_r|].
      symmetry. apply andb_true_intro. split; [apply Z.leb_le|apply Z.ltb_lt]; lia. }
    assert (Hxn : Z.testbit x n = Z.testbit h n).
    { subst x. destruct (nibble =? 0); [reflexivity|].
      rewrite Z.lxor_spec, Z.shiftr_spec by lia.
      assert (Z.testbit nibble (n + 24) = false) as ->.
      { subst nibble. rewrite Z.land_spec, nibble_mask_bits by lia.
        replace (n + 24 <? 32) with false; [now rewrite !andb_false_r|].
        symmetry. apply Z.ltb_ge. lia. }
      now rewrite xorb_false_r. }
    rewrite Hxn, Hnib. now destruct (Z.testbit h n).
  - unfold u32 at 1. rewrite Z.mod_pow2_bits_high by lia.
    now rewrite andb_false_r.
Qed.

(** X1.  The hash of a string never has one of its four upper bits set:
    it is below 2^28, whatever the string. *)
Theorem elf_hash_below_2_28 : forall s : string, 0 <= Hash._elf_hash s < 2 ^ 28.
Proof.
  intros s. unfold _elf_hash.
  assert (H : forall v, 0 <= v < 2 ^ 28 -> 0 <= hash_from v s < 2 ^ 28).
  { induction s as [|c s IH]; intros v Hv; cbn [hash_from]; [exact Hv|].
    destruct (is_nul c); [exact Hv|]. apply IH, hash_round_range. }
  apply H. lia.
Qed.

End HashRange.

Section SevenBitNames.
Import Scan SymbolMap Scenario.

(** X22.  What [_elf_hash] computes.  For every name it is the fold of the
    step of section 4.1 (shift left by 4 and add, fold the top nibble back
    in shifted right by 24, clear it) over the characters of the name, each
    converted from [char] to [uint32_t]; for a name of 7-bit characters
    that is the PJW hash of section 4.1 over its bytes.  The hash of every
    entry the parser leaves is that function of the name scanned on its
    line, which is also what the lookup computes of the name it is given. *)
Theorem elf_hash_of_seven_bit_names :
  (forall s : string,
      Hash._elf_hash s = fold_left Hash.pjw_step (chars_read s) 0) /\
  (forall s : string, seven_bit s = true -> Hash._elf_hash s = Hash.pjw_hash s) /\
  (forall (n : string) (st : State),
      seven_bit n = true ->
      DL_GetSymbolByName n st = lookup_hash st (Hash.pjw_hash n)) /\
  (forall (m : Malloc) (text : string) (st st' : State) (r : Z) (e : MapEntry),
      DL_ParseSymbolMap m text st = Return r st' ->
      Some e ∈ _map_entry_table st' ->
      exists line,
        line ∈ line_starts true text /\
        hash e = Hash._elf_hash (name (sscanf line)) /\
        (seven_bit (name (sscanf line)) = true ->
         hash e = Hash.pjw_hash (name (sscanf line)))).
Proof.
  assert (Hall : forall s, Hash._elf_hash s = fold_left Hash.pjw_step (chars_read s) 0).
  { intros s. apply hash_from_fold. }
  assert (H7 : forall s, seven_bit s = true -> Hash._elf_hash s = Hash.pjw_hash s).
  { intros s Hs. rewrite Hall. unfold Hash.pjw_hash.
    now rewrite chars_read_seven_bit. }
  split; [exact Hall|]. split; [exact H7|]. split.
  - intros n st Hn. unfold DL_GetSymbolByName. now rewrite H7.
  - intros m text st st' r e Hp He.
    destruct (parse_map_entries _ _ _ _ _ Hp e He) as (line & Hin & _ & Hh & _).
    exists line. split; [exact Hin|]. split; [exact Hh|].
    intros Hs. now rewrite <- H7.
Qed.

Lemma elf_hash_of_seven_bit_names_witness :
  Hash._elf_hash "foo"%string = Hash.pjw_hash "foo"%string /\
  exists line,
    line ∈ line_starts true two_symbols /\
    27999 = Hash._elf_hash (name (sscanf line)) /\
    (seven_bit (name (sscanf line)) = true ->
     27999 = Hash.pjw_hash (name (sscanf line))).
Proof.
  split.
  - apply (proj1 (proj2 elf_hash_of_seven_bit_names) "foo"%string). reflexivity.
  - apply (proj2 (proj2 (proj2 elf_hash_of_seven_bit_names)) granted two_symbols
             initial
             (mkState ERR_NONE (Some [2; 2; 1; 0; 4294967295; 4294967295])
                [Some (mkEntry 27999 2147549184); Some (mkEntry 26754 2147614720)])
             2 (mkEntry 27999 2147549184)).
    + vm_compute. reflexivity.
    + apply list_elem_of_In. left. reflexivity.
Defined.

End SevenBitNames.

Section LookupAnswers.
Import Scan SymbolMap Scenario MapSample.

Lemma read_elem_of {A : Type} (l : list A) (i : Z) (x : A) :
  read l i = Some x -> x ∈ l.
Proof.
  unfold read. destruct (_ && _); [|discriminate].
  intros H. apply list_elem_of_lookup. eauto.
Qed.

(** An address the walk returns is that of an entry with the hash asked
    for. *)
Lemma chain_find_sound table (entries : list (option MapEntry)) nbucket h fuel :
  forall i a,
    chain_find fuel table entries nbucket h i = Return (Some a) tt ->
    exists e, Some e ∈ entries /\ hash e = h /\ ptr e = a.
Proof.
  induction fuel as [|fuel IH]; intros i a H; [discriminate|].
  cbn [chain_find] in H. destruct (i =? 0); [discriminate|].
  destruct (read entries i) as [[e|]|] eqn:Ee; try discriminate.
  destruct (h =? hash e) eqn:Eh.
  - injection H as <-. exists e. apply Z.eqb_eq in Eh.
    split; [eapply read_elem_of; eauto|auto].
  - destruct (read table (u32 (2 + nbucket + i))) as [i'|]; [|discriminate].
    eauto.
Qed.

Lemma parse_line_addresses nbucket tb line tb' :
  parse_line nbucket tb line = Return tb' tt ->
  (forall e, Some e ∈ entry_table tb -> ptr e <> 0) ->
  forall e, Some e ∈ entry_table tb' -> ptr e <> 0.
Proof.
  unfold parse_line. intros H Hold e He.
  destruct (3 <=? parsed (sscanf line)); [|injection H as <-; auto].
  destruct (nbucket =? 0); [discriminate|].
  destruct (negb (u32 (address64 (sscanf line)) =? 0)
            && valid_type (first_char (type_string (sscanf line)))) eqn:Ev;
    [|injection H as <-; auto].
  destruct (index tb <? Z.of_nat (length (entry_table tb))); [|discriminate].
  destruct (chain_end _ _ _ _) as [k []| |]; try discriminate.
  injection H as <-. cbn [entry_table] in He.
  apply elem_of_insert_inv in He as [He|He]; [|auto].
  injection He as ->. cbn [ptr].
  apply andb_prop in Ev as [Ev _]. apply negb_true_iff, Z.eqb_neq in Ev. exact Ev.
Qed.

Lemma parse_lines_addresses nbucket lines : forall tb tb',
  parse_lines nbucket tb lines = Return tb' tt ->
  (forall e, Some e ∈ entry_table tb -> ptr e <> 0) ->
  forall e, Some e ∈ entry_table tb' -> ptr e <> 0.
Proof.
  induction lines as [|line rest IH]; intros tb tb' H Hold; simpl in H.
  - now injection H as <-.
  - destruct (parse_line nbucket tb line) as [tb1 []| |] eqn:E1; try discriminate.
    apply (IH _ _ H). eapply parse_line_addresses; eauto.
Qed.

(** No entry of the map a call leaves holds a null address. *)
Lemma parse_map_addresses m text st r st' :
  DL_ParseSymbolMap m text st = Return r st' ->
  forall e, Some e ∈ _map_entry_table st' -> ptr e <> 0.
Proof.
  unfold DL_ParseSymbolMap. intros H e He.
  assert (Hfresh : forall e0,
             Some e0 ∈ (if entry_table_granted m
                        then replicate (Z.to_nat (entry_table_cells
                                                    (u32 (count_newlines text)))) None
                        else []) -> ptr e0 <> 0).
  { intros e0 H0. destruct (entry_table_granted m).
    - now apply not_in_fresh_entries in H0.
    - now apply elem_of_nil in H0. }
  destruct (negb (hash_table_granted m && entry_table_granted m)).
  { injection H as _ <-. cbn [_map_entry_table] in He. auto. }
  destruct (init_hash_table _ _ _ _) as [table|]; [|discriminate].
  destruct (parse_lines _ _ _) as [tb []| |] eqn:E; try discriminate.
  assert (He' : Some e ∈ entry_table tb).
  { destruct (u32 (count_newlines text) =? 0); injection H as _ <-; exact He. }
  exact (parse_lines_addresses _ _ _ _ E Hfresh e He').
Qed.

(** X2.  What a lookup answers after a call of the parser that returned:
    a pointer that is not null is the address read on a line start of the
    text whose name has the hash of the name asked for, and the state is
    left as it was; a null pointer comes with [ERR_MAP_SYMBOL], or with
    [ERR_NO_MAP] when no table is in place. *)
Theorem lookup_answers :
  forall (m : Malloc) (text : string) (st st' st'' : State) (r a : Z)
         (nm : string),
    DL_ParseSymbolMap m text st = Return r st' ->
    DL_GetSymbolByName nm st' = Return a st'' ->
    (a <> 0 /\ st'' = st' /\
     exists line,
       line ∈ line_starts true text /\ 3 <= parsed (sscanf line) /\
       Hash._elf_hash (name (sscanf line)) = Hash._elf_hash nm /\
       a = u32 (address64 (sscanf line)))
    \/ (a = 0 /\ st'' = set_error ERR_MAP_SYMBOL st')
    \/ (a = 0 /\ st'' = set_error ERR_NO_MAP st' /\ _map_hash_table st' = None).
Proof.
  intros m text st st' st'' r a nm Hp Hl.
  unfold DL_GetSymbolByName, lookup_hash in Hl.
  destruct (_map_hash_table st') as [table|] eqn:Et.
  2:{ injection Hl as <- <-. right. right. auto. }
  destruct (read table 0) as [nbucket|]; [|discriminate].
  destruct (nbucket =? 0); [discriminate|].
  destruct (read table _) as [i|]; [|discriminate].
  destruct (chain_find _ _ _ _ _ _) as [[a'|] []| |] eqn:Ef; try discriminate.
  - injection Hl as <- <-. left.
    destruct (chain_find_sound _ _ _ _ _ _ _ Ef) as (e & Hin & Hh & Ha).
    pose proof (parse_map_addresses _ _ _ _ _ Hp e Hin) as Hnz.
    destruct (parse_map_entries _ _ _ _ _ Hp e Hin) as (line & Hline & H3 & Hh' & Ha').
    split; [now rewrite <- Ha|]. split; [reflexivity|].
    exists line. repeat split; try assumption.
    + now rewrite <- Hh', Hh.
    + now rewrite <- Ha, Ha'.
  - injection Hl as <- <-. right. left. auto.
Qed.

Lemma lookup_answers_witness :
  (2147614720 <> 0 /\ two_symbols_map = two_symbols_map /\
   exists line,
     line ∈ line_starts true two_symbols /\ 3 <= parsed (sscanf line) /\
     Hash._elf_hash (name (sscanf line)) = Hash._elf_hash "bar" /\
     2147614720 = u32 (address64 (sscanf line)))
  \/ (2147614720 = 0 /\ two_symbols_map = set_error ERR_MAP_SYMBOL two_symbols_map)
  \/ (2147614720 = 0 /\ two_symbols_map = set_error ERR_NO_MAP two_symbols_map /\
      _map_hash_table two_symbols_map = None).
Proof.
  apply (lookup_answers granted two_symbols initial two_symbols_map two_symbols_map
           2 2147614720 "bar").
  - vm_compute. reflexivity.
  - vm_compute. reflexivity.
Defined.

End LookupAnswers.

(** ** The map the parser builds *)

Section BuiltMap.
Import Scan SymbolMap.

Variable n : Z.
Hypothesis Hn : 0 < n < 2 ^ 28.

Lemma next_in_bucket_cases b es : forall pos,
  (next_in_bucket n b es pos = SENTINEL /\
   Forall (fun e => hash e mod n <> b) es) \/
  (exists i e,
      next_in_bucket n b es pos = pos + Z.of_nat i /\ es !! i = Some e /\
      hash e mod n = b /\ Forall (fun e' => hash e' mod n <> b) (take i es)).
Proof.
  induction es as [|a es IH]; intros pos; cbn [next_in_bucket].
  - left. split; [reflexivity|constructor].
  - destruct (hash a mod n =? b) eqn:E.
    + right. exists O, a. apply Z.eqb_eq in E.
      repeat split; [lia|assumption|constructor].
    + apply Z.eqb_neq in E.
      destruct (IH (pos + 1)) as [[H1 H2]|(i & e & H1 & H2 & H3 & H4)].
      * left. split; [exact H1|now constructor].
      * right. exists (S i), e. repeat split; [lia|exact H2|exact H3|].
        cbn [take]. now constructor.
Qed.

Lemma next_in_bucket_none b es : forall pos,
  Forall (fun e => hash e mod n <> b) es -> next_in_bucket n b es pos = SENTINEL.
Proof.
  induction es as [|a es IH]; intros pos H; cbn [next_in_bucket]; [reflexivity|].
  inversion H as [|? ? Ha Hes]; subst.
  destruct (hash a mod n =? b) eqn:E; [apply Z.eqb_eq in E; contradiction|].
  now apply IH.
Qed.

Lemma next_in_bucket_sentinel b es pos :
  pos + Z.of_nat (length es) <= SENTINEL ->
  next_in_bucket n b es pos = SENTINEL ->
  Forall (fun e => hash e mod n <> b) es.
Proof.
  intros Hlen H.
  destruct (next_in_bucket_cases b es pos) as [[_ HF]|(i & e & H1 & H2 & _)];
    [exact HF|].
  apply lookup_lt_Some in H2. lia.
Qed.

Lemma next_in_bucket_app b e es : forall pos,
  pos + Z.of_nat (length es) < SENTINEL ->
  next_in_bucket n b (es ++ [e]) pos
  = if next_in_bucket n b es pos =? SENTINEL
    then (if hash e mod n =? b then pos + Z.of_nat (length es) else SENTINEL)
    else next_in_bucket n b es pos.
Proof.
  induction es as [|a es IH]; intros pos Hlen; cbn [app next_in_bucket length].
  - rewrite Z.eqb_refl. destruct (hash e mod n =? b); [lia|reflexivity].
  - cbn [length] in Hlen. destruct (hash a mod n =? b).
    + destruct (pos =? SENTINEL) eqn:E; [lia|reflexivity].
    + rewrite IH by lia.
      destruct (next_in_bucket n b es (pos + 1) =? SENTINEL); [|reflexivity].
      destruct (hash e mod n =? b); [lia|reflexivity].
Qed.

(** *** Cells of the built tables *)

Lemma built_table_length es :
  length (built_table n es) = (2 + (Z.to_nat n + Z.to_nat n))%nat.
Proof.
  unfold built_table. cbn [app length].
  now rewrite length_app, !length_fmap, !length_seq.
Qed.

Lemma read_built_header es : read (built_table n es) 0 = Some n.
Proof.
  unfold read. rewrite built_table_length.
  destruct ((0 <=? 0) && (0 <? Z.of_nat (2 + (Z.to_nat n + Z.to_nat n)))) eqn:E.
  - reflexivity.
  - apply andb_false_iff in E as [E|E]; [discriminate|apply Z.ltb_ge in E; lia].
Qed.

Lemma lookup_built_head es (b : nat) :
  (b < Z.to_nat n)%nat ->
  built_table n es !! (2 + b)%nat = Some (next_in_bucket n (Z.of_nat b) es 0).
Proof.
  intros Hb. unfold built_table. cbn [app Nat.add].
  rewrite lookup_cons. cbv iota beta. rewrite lookup_cons. cbv iota beta.
  rewrite lookup_app_l by (rewrite length_fmap, length_seq; lia).
  rewrite list_lookup_fmap, lookup_seq_lt by lia. reflexivity.
Qed.

Lemma lookup_built_link es (j : nat) :
  (j < Z.to_nat n)%nat ->
  built_table n es !! (2 + (Z.to_nat n + j))%nat = Some (link_of n es j).
Proof.
  intros Hj. unfold built_table. cbn [app Nat.add].
  rewrite lookup_cons. cbv iota beta. rewrite lookup_cons. cbv iota beta.
  rewrite lookup_app_r by (rewrite length_fmap, length_seq; lia).
  rewrite length_fmap, length_seq.
  replace (Z.to_nat n + j - Z.to_nat n)%nat with j by lia.
  rewrite list_lookup_fmap, lookup_seq_lt by lia. reflexivity.
Qed.

Lemma read_built_head es b :
  0 <= b < n -> read (built_table n es) (2 + b) = Some (next_in_bucket n b es 0).
Proof.
  intros Hb. unfold read. rewrite built_table_length.
  destruct ((0 <=? 2 + b) && (2 + b <? Z.of_nat (2 + (Z.to_nat n + Z.to_nat n)))) eqn:E.
  - replace (Z.to_nat (2 + b)) with (2 + Z.to_nat b)%nat by lia.
    rewrite lookup_built_head by lia. now rewrite Z2Nat.id by lia.
  - apply andb_false_iff in E as [E|E]; [apply Z.leb_gt in E|apply Z.ltb_ge in E]; lia.
Qed.

Lemma read_built_link es (j : nat) :
  Z.of_nat j < n ->
  read (built_table n es) (2 + n + Z.of_nat j) = Some (link_of n es j).
Proof.
  intros Hj. unfold read. rewrite built_table_length.
  destruct ((0 <=? 2 + n + Z.of_nat j)
            && (2 + n + Z.of_nat j <? Z.of_nat (2 + (Z.to_nat n + Z.to_nat n)))) eqn:E.
  - replace (Z.to_nat (2 + n + Z.of_nat j)) with (2 + (Z.to_nat n + j))%nat by lia.
    apply lookup_built_link. lia.
  - apply andb_false_iff in E as [E|E]; [apply Z.leb_gt in E|apply Z.ltb_ge in E]; lia.
Qed.

Lemma built_entries_length es :
  (length es <= Z.to_nat n)%nat -> length (built_entries n es) = Z.to_nat n.
Proof.
  intros H. unfold built_entries.
  rewrite length_app, length_fmap, length_replicate. lia.
Qed.

Lemma read_built_entry es (j : nat) e :
  (length es <= Z.to_nat n)%nat -> es !! j = Some e ->
  read (built_entries n es) (Z.of_nat j) = Some (Some e).
Proof.
  intros Hlen He. pose proof (lookup_lt_Some _ _ _ He) as Hj.
  unfold read. rewrite built_entries_length by exact Hlen.
  destruct ((0 <=? Z.of_nat j) && (Z.of_nat j <? Z.of_nat (Z.to_nat n))) eqn:E.
  - rewrite Nat2Z.id. unfold built_entries.
    rewrite lookup_app_l by (rewrite length_fmap; lia).
    now rewrite list_lookup_fmap, He.
  - apply andb_false_iff in E as [E|E]; [apply Z.leb_gt in E|apply Z.ltb_ge in E]; lia.
Qed.

Lemma built_entries_snoc es e :
  (length es < Z.to_nat n)%nat ->
  <[length es := Some e]> (built_entries n es) = built_entries n (es ++ [e]).
Proof.
  intros Hlen. unfold built_entries.
  rewrite fmap_app, length_app. cbn [length fmap list_fmap].
  replace (Z.to_nat n - length es)%nat with (S (Z.to_nat n - (length es + 1))) by lia.
  cbn [replicate].
  replace (length es) with (length (Some <$> es) + 0)%nat at 1
    by (rewrite length_fmap; lia).
  rewrite insert_app_r. cbn. now rewrite <- app_assoc.
Qed.

(** *** The walk of the parser over a built table *)

Lemma chain_end_built es b0 :
  (length es <= Z.to_nat n)%nat ->
  forall fuel (p : nat) c,
    (p <= length es)%nat -> (length es - p < fuel)%nat ->
    read (built_table n es) c
    = Some (next_in_bucket n b0 (drop p es) (Z.of_nat p)) ->
    (p = O /\ c = 2 + b0) \/
    (exists j e, p = S j /\ c = 2 + n + Z.of_nat j /\ es !! j = Some e /\
                 hash e mod n = b0) ->
    exists k, chain_end fuel (built_table n es) n c = Return k tt /\
              last_cell n b0 es k.
Proof.
  intros Hlen. induction fuel as [|fuel IH]; intros p c Hp Hf Hread Hstart; [lia|].
  cbn [chain_end]. rewrite Hread.
  destruct (next_in_bucket_cases b0 (drop p es) (Z.of_nat p))
    as [[Hv HF]|(i & e & Hv & Hi & Hb & HF)].
  - rewrite Hv, Z.eqb_refl. exists c. split; [reflexivity|].
    destruct Hstart as [[-> ->]|(j & ej & -> & -> & Hj & Hbj)].
    + left. split; [reflexivity|exact HF].
    + right. exists j, ej. auto.
  - rewrite Hv. rewrite lookup_drop in Hi.
    pose proof (lookup_lt_Some _ _ _ Hi) as Hlt.
    destruct (Z.of_nat p + Z.of_nat i =? SENTINEL) eqn:E.
    { apply Z.eqb_eq in E. unfold SENTINEL in E. lia. }
    rewrite u32_small by lia.
    replace (2 + n + (Z.of_nat p + Z.of_nat i)) with (2 + n + Z.of_nat (p + i)) by lia.
    apply (IH (S (p + i))); [lia|lia| |].
    + rewrite read_built_link by lia. unfold link_of. rewrite Hi, Hb. reflexivity.
    + right. exists (p + i)%nat, e. auto.
Qed.

Lemma last_cell_range es b0 k :
  last_cell n b0 es k -> 0 <= b0 < n ->
  2 <= k < 2 + n + Z.of_nat (length es).
Proof.
  intros [[-> _]|(j & e & -> & Hj & _)] Hb; [lia|].
  apply lookup_lt_Some in Hj. lia.
Qed.

Lemma last_cell_head es b0 k b :
  last_cell n b0 es k -> 0 <= b < n -> 0 <= b0 < n ->
  (length es <= Z.to_nat n)%nat ->
  k = 2 + b <-> (next_in_bucket n b es 0 = SENTINEL /\ b0 = b).
Proof.
  intros Hk Hb Hb0 Hlen. split.
  - intros ->. destruct Hk as [[E HF]|(j & e & E & _)]; [|lia].
    assert (b0 = b) as -> by lia.
    split; [now apply next_in_bucket_none|reflexivity].
  - intros [Hs <-].
    apply next_in_bucket_sentinel in Hs; [|unfold SENTINEL; lia].
    destruct Hk as [[E _]|(j & e & _ & Hj & He & _)]; [exact E|].
    exfalso. exact (Forall_lookup_1 _ _ _ _ Hs Hj He).
Qed.

Lemma last_cell_link es b0 k (j : nat) ej :
  last_cell n b0 es k -> es !! j = Some ej -> 0 <= b0 < n ->
  (length es <= Z.to_nat n)%nat ->
  k = 2 + n + Z.of_nat j <->
  (next_in_bucket n (hash ej mod n) (drop (S j) es) (Z.of_nat (S j)) = SENTINEL
   /\ b0 = hash ej mod n).
Proof.
  intros Hk Hj Hb0 Hlen. pose proof (lookup_lt_Some _ _ _ Hj) as Hjlt. split.
  - intros ->. destruct Hk as [[E _]|(j' & e & E & Hj' & He & HF)]; [lia|].
    assert (j' = j) as -> by lia.
    rewrite Hj in Hj'. injection Hj' as <-.
    split; [|now symmetry]. rewrite He. now apply next_in_bucket_none.
  - intros [Hs ->].
    apply next_in_bucket_sentinel in Hs;
      [|rewrite length_drop; unfold SENTINEL; lia].
    destruct Hk as [[_ HF]|(j' & e & -> & Hj' & He & HF)].
    + exfalso. exact (Forall_lookup_1 _ _ _ _ HF Hj eq_refl).
    + destruct (lt_eq_lt_dec j j') as [[Hlt| ->]|Hgt]; [| reflexivity |]; exfalso.
      * assert (Hd : drop (S j) es !! (j' - S j)%nat = Some e).
        { rewrite lookup_drop. rewrite <- Hj'. f_equal. lia. }
        exact (Forall_lookup_1 _ _ _ _ Hs Hd He).
      * assert (Hd : drop (S j') es !! (j - S j')%nat = Some ej).
        { rewrite lookup_drop. rewrite <- Hj. f_equal. lia. }
        exact (Forall_lookup_1 _ _ _ _ HF Hd eq_refl).
Qed.

(** Writing the index of a new entry into that cell gives the table over
    the entries with the new one appended. *)
Lemma built_table_snoc es e k :
  (length es < Z.to_nat n)%nat ->
  last_cell n (hash e mod n) es k ->
  <[Z.to_nat k := Z.of_nat (length es)]> (built_table n es)
  = built_table n (es ++ [e]).
Proof.
  intros Hlen Hk.
  assert (Hb0 : 0 <= hash e mod n < n) by (apply Z.mod_pos_bound; lia).
  pose proof (last_cell_range _ _ _ Hk Hb0) as Hkr.
  apply list_eq. intros i.
  destruct (lt_dec i 2) as [Hi|Hi].
  { rewrite list_lookup_insert_ne by lia.
    destruct i as [|[|i]]; [reflexivity|reflexivity|lia]. }
  destruct (lt_dec i (2 + Z.to_nat n)) as [Hi1|Hi1].
  { replace i with (2 + (i - 2))%nat by lia.
    set (b := (i - 2)%nat). assert (Hb : (b < Z.to_nat n)%nat) by lia.
    rewrite (lookup_built_head (es ++ [e])) by exact Hb.
    rewrite next_in_bucket_app by (unfold SENTINEL; lia).
    pose proof (last_cell_head es _ k (Z.of_nat b) Hk ltac:(lia) Hb0 ltac:(lia)) as Hiff.
    destruct (Z.eq_dec k (2 + Z.of_nat b)) as [Ek|Ek].
    - destruct (proj1 Hiff Ek) as [Hs Hbb].
      rewrite Ek. replace (Z.to_nat (2 + Z.of_nat b)) with (2 + b)%nat by lia.
      rewrite list_lookup_insert_eq by (rewrite built_table_length; lia).
      rewrite Hs, Z.eqb_refl, Hbb, Z.eqb_refl. f_equal; lia.
    - rewrite list_lookup_insert_ne by lia.
      rewrite lookup_built_head by exact Hb.
      destruct (next_in_bucket n (Z.of_nat b) es 0 =? SENTINEL) eqn:Es; [|reflexivity].
      destruct (hash e mod n =? Z.of_nat b) eqn:Eb; [|now apply Z.eqb_eq in Es; rewrite Es].
      exfalso. apply Ek, Hiff. split; [now apply Z.eqb_eq|now apply Z.eqb_eq]. }
  destruct (lt_dec i (2 + (Z.to_nat n + Z.to_nat n))) as [Hi2|Hi2].
  { replace i with (2 + (Z.to_nat n + (i - 2 - Z.to_nat n)))%nat by lia.
    set (j := (i - 2 - Z.to_nat n)%nat). assert (Hj : (j < Z.to_nat n)%nat) by lia.
    rewrite (lookup_built_link (es ++ [e])) by exact Hj.
    destruct (es !! j) as [ej|] eqn:Ej.
    - pose proof (lookup_lt_Some _ _ _ Ej) as Hjlt.
      pose proof (last_cell_link es _ k j ej Hk Ej Hb0 ltac:(lia)) as Hiff.
      unfold link_of. rewrite lookup_app_l, Ej by exact Hjlt.
      rewrite drop_app_le by lia.
      rewrite next_in_bucket_app by (rewrite length_drop; unfold SENTINEL; lia).
      rewrite length_drop.
      destruct (Z.eq_dec k (2 + n + Z.of_nat j)) as [Ek|Ek].
      + destruct (proj1 Hiff Ek) as [Hs Hbb].
        rewrite Ek.
        replace (Z.to_nat (2 + n + Z.of_nat j)) with (2 + (Z.to_nat n + j))%nat by lia.
        rewrite list_lookup_insert_eq by (rewrite built_table_length; lia).
        rewrite Hs, Z.eqb_refl, Hbb, Z.eqb_refl. f_equal; lia.
      + rewrite list_lookup_insert_ne by lia.
        rewrite lookup_built_link by exact Hj. unfold link_of. rewrite Ej.
        destruct (next_in_bucket n (hash ej mod n) (drop (S j) es) (Z.of_nat (S j))
                  =? SENTINEL) eqn:Es; [|reflexivity].
        destruct (hash e mod n =? hash ej mod n) eqn:Eb;
          [|now apply Z.eqb_eq in Es; rewrite Es].
        exfalso. apply Ek, Hiff. split; [now apply Z.eqb_eq|now apply Z.eqb_eq].
    - pose proof (lookup_ge_None_1 _ _ Ej) as Hjge.
      rewrite list_lookup_insert_ne by lia.
      rewrite lookup_built_link by exact Hj. unfold link_of. rewrite Ej.
      destruct (decide (j = length es)) as [->|Hne].
      + rewrite lookup_app_r, Nat.sub_diag by lia. cbn [lookup list_lookup].
        rewrite drop_ge by (rewrite length_app; cbn; lia). reflexivity.
      + rewrite lookup_ge_None_2 by (rewrite length_app; cbn; lia). reflexivity. }
  rewrite !lookup_ge_None_2; [reflexivity| |].
  - rewrite built_table_length. lia.
  - rewrite length_insert, built_table_length. lia.
Qed.

(** *** The parser, line by line *)

Lemma parse_line_built es line :
  (length es <= Z.to_nat n)%nat ->
  parse_line n (built_tables n es) line
  = match entry_of_line line with
    | None => Return (built_tables n es) tt
    | Some e =>
        if Z.of_nat (length es) <? n then Return (built_tables n (es ++ [e])) tt
        else Undefined OutOfBounds
    end.
Proof.
  intros Hlen. unfold parse_line, entry_of_line, built_tables.
  cbn [hash_table entry_table index].
  destruct (3 <=? parsed (sscanf line)); [|reflexivity]. cbn [andb].
  destruct (n =? 0) eqn:E0; [lia|].
  destruct (negb (u32 (address64 (sscanf line)) =? 0)
            && valid_type (first_char (type_string (sscanf line)))); [|reflexivity].
  rewrite built_entries_length by exact Hlen. rewrite Z2Nat.id by lia.
  destruct (Z.of_nat (length es) <? n) eqn:El; [|reflexivity].
  apply Z.ltb_lt in El.
  set (e := mkEntry (Hash._elf_hash (name (sscanf line)))
              (u32 (address64 (sscanf line)))).
  change (Hash._elf_hash (name (sscanf line))) with (hash e).
  assert (Hb : 0 <= hash e mod n < n) by (apply Z.mod_pos_bound; lia).
  rewrite (u32_small (2 + hash e mod n)) by lia.
  destruct (chain_end_built es (hash e mod n) Hlen
              (S (length (built_table n es))) O (2 + hash e mod n))
    as (k & Hk & Hlast).
  - lia.
  - rewrite built_table_length. lia.
  - apply read_built_head. exact Hb.
  - left. auto.
  - rewrite Hk, Nat2Z.id.
    rewrite (built_table_snoc es e k) by (exact Hlast || lia).
    rewrite (built_entries_snoc es e) by lia.
    rewrite length_app. cbn [length].
    rewrite u32_small by lia.
    replace (Z.of_nat (length es) + 1) with (Z.of_nat (length es + 1)) by lia.
    reflexivity.
Qed.

Lemma parse_lines_built lines : forall es,
  (length es <= Z.to_nat n)%nat ->
  parse_lines n (built_tables n es) lines
  = if Z.of_nat (length (es ++ omap entry_of_line lines)) <=? n
    then Return (built_tables n (es ++ omap entry_of_line lines)) tt
    else Undefined OutOfBounds.
Proof.
  induction lines as [|line rest IH]; intros es Hlen;
    cbn [parse_lines omap list_omap].
  - rewrite app_nil_r.
    destruct (Z.of_nat (length es) <=? n) eqn:E; [reflexivity|].
    apply Z.leb_gt in E. lia.
  - rewrite parse_line_built by exact Hlen.
    destruct (entry_of_line line) as [e|]; [|now apply IH].
    destruct (Z.of_nat (length es) <? n) eqn:El.
    + apply Z.ltb_lt in El. rewrite IH by (rewrite length_app; cbn; lia).
      now rewrite <- app_assoc.
    + apply Z.ltb_ge in El.
      destruct (_ <=? n) eqn:E; [|reflexivity].
      apply Z.leb_le in E. rewrite length_app in E. cbn [length] in E. lia.
Qed.

Lemma fmap_const_seq {A : Type} (c : A) len : forall start,
  (fun _ => c) <$> seq start len = replicate len c.
Proof.
  induction len as [|len IH]; intros start; [reflexivity|].
  cbn. f_equal. apply IH.
Qed.

Lemma built_table_nil :
  built_table n [] = [n; n] ++ replicate (Z.to_nat (n + n)) SENTINEL.
Proof.
  unfold built_table. f_equal.
  replace (Z.to_nat (n + n)) with (Z.to_nat n + Z.to_nat n)%nat by lia.
  rewrite replicate_add. f_equal; exact (fmap_const_seq SENTINEL _ _).
Qed.

Lemma built_entries_nil : built_entries n [] = replicate (Z.to_nat n) None.
Proof. unfold built_entries. cbn [fmap list_fmap app length]. now rewrite Nat.sub_0_r. Qed.

(** The whole call, when both blocks are granted. *)
Lemma parse_map_built m text st :
  count_newlines text = n ->
  hash_table_granted m = true -> entry_table_granted m = true ->
  DL_ParseSymbolMap m text st
  = if Z.of_nat (length (symbols text)) <=? n
    then Return n (built_map (_error_code st) n (symbols text))
    else Undefined OutOfBounds.
Proof.
  intros Hc Hg1 Hg2. unfold DL_ParseSymbolMap.
  rewrite Hc, Hg1, Hg2. cbn [andb negb].
  rewrite (u32_small n) by lia.
  unfold init_hash_table, hash_table_cells, entry_table_cells.
  rewrite (u32_small (n + n)) by lia.
  rewrite (u32_small (4 * (2 + n + n))) by lia.
  rewrite (u32_small (8 * n)) by lia.
  replace (4 * (2 + n + n) / 4) with (2 + (n + n))
    by (apply Z.div_unique with 0; lia).
  replace (8 * n / 8) with n by (apply Z.div_unique with 0; lia).
  rewrite Z.leb_refl.
  replace (2 + (n + n) - 2 - (n + n)) with 0 by lia.
  cbn [Z.to_nat replicate]. rewrite app_nil_r, <- built_table_nil.
  rewrite <- built_entries_nil.
  pose proof (parse_lines_built (line_starts true text) [] ltac:(cbn; lia)) as Hrun.
  unfold built_tables in Hrun at 1.
  cbn [length app] in Hrun. change (Z.of_nat 0) with 0 in Hrun.
  fold (symbols text) in Hrun. rewrite Hrun.
  destruct (Z.of_nat (length (symbols text)) <=? n); [|reflexivity].
  cbn [hash_table entry_table].
  destruct (n =? 0) eqn:E0; [lia|].
  unfold built_map, s32. destruct (n <? 2 ^ 31) eqn:E31; [|apply Z.ltb_ge in E31; lia].
  f_equal. f_equal. unfold DL_UnloadSymbolMap. now destruct (_map_hash_table st).
Qed.

(** *** The lookup in a built map *)

Lemma find_all_fail {A : Type} (f : A -> bool) (l : list A) :
  Forall (fun x => f x = false) l -> find f l = None.
Proof.
  induction 1 as [|x l Hx _ IH]; [reflexivity|]. cbn. now rewrite Hx.
Qed.

Lemma find_after_fail {A : Type} (f : A -> bool) : forall (k : nat) (l : list A),
  Forall (fun x => f x = false) (take k l) -> find f l = find f (drop k l).
Proof.
  induction k as [|k IH]; intros l H; [reflexivity|].
  destruct l as [|x l]; [reflexivity|].
  cbn [take] in H. inversion H as [|? ? Hx Hl]; subst.
  cbn [find drop]. rewrite Hx. now apply IH.
Qed.

Lemma other_bucket_other_hash h (l : list MapEntry) :
  Forall (fun e => hash e mod n <> h mod n) l ->
  Forall (fun e => (h =? hash e) = false) l.
Proof.
  intros H. apply (Forall_impl _ _ _ H).
  intros e He. apply Z.eqb_neq. intros ->. now apply He.
Qed.

Lemma chain_find_built es h :
  (length es <= Z.to_nat n)%nat ->
  forall fuel (p : nat),
    (1 <= p)%nat -> (p <= length es)%nat -> (length es - p < fuel)%nat ->
    chain_find fuel (built_table n es) (built_entries n es) n h
      (next_in_bucket n (h mod n) (drop p es) (Z.of_nat p))
    = match find (fun e => h =? hash e) (drop p es) with
      | Some e => Return (Some (ptr e)) tt
      | None => Undefined OutOfBounds
      end.
Proof.
  intros Hlen. induction fuel as [|fuel IH]; intros p Hp1 Hp Hf; [lia|].
  destruct (next_in_bucket_cases (h mod n) (drop p es) (Z.of_nat p))
    as [[Hv HF]|(i & e & Hv & Hi & Hb & HF)].
  - rewrite Hv, chain_find_sentinel
      by (rewrite built_entries_length by exact Hlen; unfold SENTINEL; lia).
    now rewrite find_all_fail by now apply other_bucket_other_hash.
  - rewrite Hv. cbn [chain_find].
    pose proof Hi as Hi'. rewrite lookup_drop in Hi'.
    pose proof (lookup_lt_Some _ _ _ Hi') as Hlt.
    destruct (Z.of_nat p + Z.of_nat i =? 0) eqn:E0; [lia|].
    replace (Z.of_nat p + Z.of_nat i) with (Z.of_nat (p + i)) by lia.
    rewrite (read_built_entry es (p + i) e Hlen Hi').
    rewrite (find_after_fail _ i) by now apply other_bucket_other_hash.
    rewrite (drop_S _ _ _ Hi). cbn [find].
    destruct (h =? hash e) eqn:Eh; [reflexivity|].
    rewrite u32_small by lia.
    rewrite read_built_link by lia. unfold link_of. rewrite Hi', Hb.
    rewrite IH by lia. now rewrite drop_drop, Nat.add_succ_r.
Qed.

Lemma lookup_built code es h :
  (length es <= Z.to_nat n)%nat ->
  lookup_hash (built_map code n es) h
  = match es with
    | [] => Undefined OutOfBounds
    | e0 :: rest =>
        if hash e0 mod n =? h mod n
        then Return 0 (set_error ERR_MAP_SYMBOL (built_map code n es))
        else
          match find (fun e => h =? hash e) rest with
          | Some e => Return (ptr e) (built_map code n es)
          | None => Undefined OutOfBounds
          end
    end.
Proof.
  intros Hlen. unfold lookup_hash, built_map.
  cbn [_map_hash_table _map_entry_table].
  rewrite read_built_header. destruct (n =? 0) eqn:E0; [lia|].
  assert (Hb : 0 <= h mod n < n) by (apply Z.mod_pos_bound; lia).
  rewrite u32_small by lia. rewrite read_built_head by exact Hb.
  destruct es as [|e0 rest].
  - cbn [next_in_bucket].
    now rewrite chain_find_sentinel
      by (rewrite built_entries_length by exact Hlen; unfold SENTINEL; lia).
  - cbn [next_in_bucket]. destruct (hash e0 mod n =? h mod n); [reflexivity|].
    pose proof (chain_find_built (e0 :: rest) h Hlen
                  (S (length (built_table n (e0 :: rest)))) 1 ltac:(lia)
                  ltac:(cbn; lia) ltac:(rewrite built_table_length; cbn in *; lia))
      as Hwalk.
    change (drop 1 (e0 :: rest)) with rest in Hwalk.
    change (Z.of_nat 1) with (0 + 1) in Hwalk.
    rewrite Hwalk. now destruct (find _ rest).
Qed.

End BuiltMap.

Section SymbolMapBehaviour.
Import Scan SymbolMap Scenario MapSample.

(** X3.  The map a call builds.  When both blocks are granted and the text
    has [n] line feeds, [0 < n < 2^28], and no more than [n] line starts
    to keep, the call returns [n], leaves the error code alone, and leaves
    the entries of the lines kept, in the order of the lines, in the first
    cells of the entry table; in the hash table every bucket head is the
    index of the first entry of the bucket and the link of every entry is
    the index of the next entry of its bucket, the sentinel where there is
    none. *)
Theorem parse_builds_the_map :
  forall (m : Malloc) (text : string) (st : State),
    hash_table_granted m = true -> entry_table_granted m = true ->
    0 < count_newlines text < 2 ^ 28 ->
    (length (symbols text) <= Z.to_nat (count_newlines text))%nat ->
    DL_ParseSymbolMap m text st
    = Return (count_newlines text)
        (built_map (_error_code st) (count_newlines text) (symbols text)).
Proof.
  intros m text st Hg1 Hg2 Hn Hlen.
  rewrite (parse_map_built _ Hn m text st eq_refl Hg1 Hg2).
  destruct (_ <=? _) eqn:E; [reflexivity|]. apply Z.leb_gt in E. lia.
Qed.

Lemma parse_builds_the_map_witness :
  DL_ParseSymbolMap granted two_symbols initial
  = Return (count_newlines two_symbols)
      (built_map (_error_code initial) (count_newlines two_symbols)
         (symbols two_symbols)).
Proof.
  apply (parse_builds_the_map granted two_symbols initial).
  - reflexivity.
  - reflexivity.
  - vm_compute. split; reflexivity.
  - vm_compute. lia.
Defined.

(** X4.  The entry table has one cell for each line feed.  When both blocks
    are granted and the text has more line starts to keep than line feeds
    (its last line has no line feed and every line is kept), the call
    writes an entry past the end of the entry table. *)
Theorem parse_overflows_entry_table :
  forall (m : Malloc) (text : string) (st : State),
    hash_table_granted m = true -> entry_table_granted m = true ->
    0 < count_newlines text < 2 ^ 28 ->
    (Z.to_nat (count_newlines text) < length (symbols text))%nat ->
    DL_ParseSymbolMap m text st = Undefined OutOfBounds.
Proof.
  intros m text st Hg1 Hg2 Hn Hlen.
  rewrite (parse_map_built _ Hn m text st eq_refl Hg1 Hg2).
  destruct (_ <=? _) eqn:E; [|reflexivity]. apply Z.leb_le in E. lia.
Qed.

Lemma parse_overflows_entry_table_witness :
  DL_ParseSymbolMap granted unterminated initial = Undefined OutOfBounds.
Proof.
  apply (parse_overflows_entry_table granted unterminated initial).
  - reflexivity.
  - reflexivity.
  - vm_compute. split; reflexivity.
  - vm_compute. lia.
Defined.

(** X5.  What a lookup answers in a map the parser built (both blocks
    granted, [n] line feeds with [0 < n < 2^28], at most [n] lines kept).
    A name whose hash falls into the bucket of the first entry is reported
    as not found, with [ERR_MAP_SYMBOL].  Any other name gets the address
    of the first entry after the first one that has its hash, and the
    state is left alone; when there is no such entry the walk reads the
    entry table at the sentinel, outside the table. *)
Theorem lookup_after_parse :
  forall (m : Malloc) (text : string) (st : State) (nm : string),
    hash_table_granted m = true -> entry_table_granted m = true ->
    0 < count_newlines text < 2 ^ 28 ->
    (length (symbols text) <= Z.to_nat (count_newlines text))%nat ->
    exists st',
      DL_ParseSymbolMap m text st = Return (count_newlines text) st' /\
      DL_GetSymbolByName nm st'
      = match symbols text with
        | [] => Undefined OutOfBounds
        | e0 :: rest =>
            if hash e0 mod count_newlines text
               =? Hash._elf_hash nm mod count_newlines text
            then Return 0 (set_error ERR_MAP_SYMBOL st')
            else
              match find (fun e => Hash._elf_hash nm =? hash e) rest with
              | Some e => Return (ptr e) st'
              | None => Undefined OutOfBounds
              end
        end.
Proof.
  intros m text st nm Hg1 Hg2 Hn Hlen.
  exists (built_map (_error_code st) (count_newlines text) (symbols text)).
  split.
  - rewrite (parse_map_built _ Hn m text st eq_refl Hg1 Hg2).
    destruct (_ <=? _) eqn:E; [reflexivity|]. apply Z.leb_gt in E. lia.
  - unfold DL_GetSymbolByName. now apply lookup_built.
Qed.

Lemma lookup_after_parse_witness :
  exists st',
    DL_ParseSymbolMap granted three_symbols initial
    = Return (count_newlines three_symbols) st' /\
    DL_GetSymbolByName "baz" st'
    = match symbols three_symbols with
      | [] => Undefined OutOfBounds
      | e0 :: rest =>
          if hash e0 mod count_newlines three_symbols
             =? Hash._elf_hash "baz" mod count_newlines three_symbols
          then Return 0 (set_error ERR_MAP_SYMBOL st')
          else
            match find (fun e => Hash._elf_hash "baz" =? hash e) rest with
            | Some e => Return (ptr e) st'
            | None => Undefined OutOfBounds
            end
      end.
Proof.
  apply (lookup_after_parse granted three_symbols initial "baz").
  - reflexivity.
  - reflexivity.
  - vm_compute. split; reflexivity.
  - vm_compute. lia.
Defined.

(** X6.  The round trip through the map.  In a map the parser built (both
    blocks granted, [n] line feeds with [0 < n < 2^28], at most [n] lines
    kept), take a line the parser kept that is not the first one, whose
    hash does not fall into the bucket of the first entry and is the hash
    of no entry between the first one and it.  The lookup of a name with
    that hash returns the address read on that line, and leaves the state
    alone. *)
Theorem kept_symbol_is_found :
  forall (m : Malloc) (text : string) (st : State) (nm : string)
         (j : nat) (e : MapEntry),
    hash_table_granted m = true -> entry_table_granted m = true ->
    0 < count_newlines text < 2 ^ 28 ->
    (length (symbols text) <= Z.to_nat (count_newlines text))%nat ->
    (1 <= j)%nat -> symbols text !! j = Some e ->
    Hash._elf_hash nm = hash e ->
    (forall e0, symbols text !! O = Some e0 ->
                hash e0 mod count_newlines text <> hash e mod count_newlines text) ->
    (forall (i : nat) e', (1 <= i < j)%nat -> symbols text !! i = Some e' ->
                          hash e' <> hash e) ->
    exists st',
      DL_ParseSymbolMap m text st = Return (count_newlines text) st' /\
      DL_GetSymbolByName nm st' = Return (ptr e) st'.
Proof.
  intros m text st nm j e Hg1 Hg2 Hn Hlen Hj He Hh Hfirst Hbetween.
  exists (built_map (_error_code st) (count_newlines text) (symbols text)).
  split.
  - rewrite (parse_map_built _ Hn m text st eq_refl Hg1 Hg2).
    destruct (_ <=? _) eqn:E; [reflexivity|]. apply Z.leb_gt in E. lia.
  - unfold DL_GetSymbolByName. rewrite (lookup_built _ Hn) by exact Hlen.
    destruct (symbols text) as [|e0 rest]; [discriminate|].
    rewrite Hh.
    destruct (hash e0 mod count_newlines text =? hash e mod count_newlines text)
      eqn:E.
    { apply Z.eqb_eq in E. exfalso. exact (Hfirst e0 eq_refl E). }
    destruct j as [|j]; [lia|]. cbn [lookup list_lookup] in He.
    rewrite (find_after_fail _ j).
    + rewrite (drop_S _ _ _ He). cbn [find]. now rewrite Z.eqb_refl.
    + apply Forall_lookup. intros i x Hix.
      apply lookup_take_Some in Hix as [Hix Hlt].
      apply Z.eqb_neq. intros Heq.
      apply (Hbetween (S i) x); [lia|exact Hix|now symmetry].
Qed.

Lemma kept_symbol_is_found_witness :
  exists st',
    DL_ParseSymbolMap granted three_symbols initial
    = Return (count_newlines three_symbols) st' /\
    DL_GetSymbolByName "baz" st' = Return (ptr (mkEntry 26762 2147680256)) st'.
Proof.
  apply (kept_symbol_is_found granted three_symbols initial "baz" 2
           (mkEntry 26762 2147680256)).
  - reflexivity.
  - reflexivity.
  - vm_compute. split; reflexivity.
  - vm_compute. lia.
  - lia.
  - vm_compute. reflexivity.
  - vm_compute. reflexivity.
  - intros e0 H0. vm_compute in H0. injection H0 as <-. vm_compute. discriminate.
  - intros i e' Hi He'. assert (i = 1%nat) as -> by lia.
    vm_compute in He'. injection He' as <-. vm_compute. discriminate.
Defined.

Lemma line_starts_inside text :
  count_newlines text = 0 -> line_starts false text = [].
Proof.
  induction text as [|c text IH]; [reflexivity|].
  cbn [count_newlines line_starts andb app].
  pose proof (count_newlines_nonneg text).
  destruct (char_code c =? 10); [lia|]. intros H0. apply IH. lia.
Qed.

Lemma sscanf_nul c text : is_nul c = true -> parsed (sscanf (String c text)) = EOF.
Proof. intros H. unfold sscanf. cbn [cstr]. rewrite H. reflexivity. Qed.

(** X7.  A text without a line feed, both blocks granted.  When the call of
    [sscanf] on it assigns three fields or more, [hash % nbucket] divides
    by zero.  Otherwise the call returns -1 with [ERR_NO_SYMBOLS] and
    leaves a map in place, of no bucket and no entry; in that map every
    lookup divides by zero. *)
Theorem parse_without_line_feed :
  forall (m : Malloc) (text : string) (st : State),
    hash_table_granted m = true -> entry_table_granted m = true ->
    count_newlines text = 0 ->
    DL_ParseSymbolMap m text st
    = (if 3 <=? parsed (sscanf text) then Undefined DivisionByZero
       else Return (-1) (mkState ERR_NO_SYMBOLS (Some [0; 0]) [])) /\
    forall nm : string,
      DL_GetSymbolByName nm (mkState ERR_NO_SYMBOLS (Some [0; 0]) [])
      = Undefined DivisionByZero.
Proof.
  intros m text st Hg1 Hg2 Hc. split; [|reflexivity].
  unfold DL_ParseSymbolMap. rewrite Hc, Hg1, Hg2.
  change (u32 0) with 0. cbn [andb negb].
  change (hash_table_cells 0 0) with 2.
  change (init_hash_table (junk m) 2 0 0) with (Some [0; 0]).
  change (replicate (Z.to_nat (entry_table_cells 0)) (@None MapEntry)) with (@nil (option MapEntry)).
  destruct text as [|c rest]; [reflexivity|].
  cbn [count_newlines] in Hc. pose proof (count_newlines_nonneg rest).
  cbn [line_starts andb].
  destruct (char_code c =? 10) eqn:E10; [lia|].
  rewrite line_starts_inside by lia.
  destruct (is_nul c) eqn:Enul.
  - rewrite (sscanf_nul c rest Enul). reflexivity.
  - cbn [app parse_lines]. unfold parse_line.
    destruct (3 <=? parsed (sscanf (String c rest))); reflexivity.
Qed.

Lemma parse_without_line_feed_witness :
  DL_ParseSymbolMap granted single_line initial
  = (if 3 <=? parsed (sscanf single_line) then Undefined DivisionByZero
     else Return (-1) (mkState ERR_NO_SYMBOLS (Some [0; 0]) [])) /\
  forall nm : string,
    DL_GetSymbolByName nm (mkState ERR_NO_SYMBOLS (Some [0; 0]) [])
    = Undefined DivisionByZero.
Proof.
  apply (parse_without_line_feed granted single_line initial).
  - reflexivity.
  - reflexivity.
  - vm_compute. reflexivity.
Defined.

Lemma sscanf_skips_space c text :
  isspace c = true -> sscanf (String c text) = sscanf text.
Proof.
  intros Hs. unfold sscanf. cbn [cstr].
  assert (is_nul c = false) as ->.
  { unfold isspace, is_nul in *. destruct (char_code c =? 0) eqn:E; [|reflexivity].
    apply Z.eqb_eq in E. rewrite E in Hs. discriminate. }
  cbn [skip_space]. now rewrite Hs.
Qed.

(** X8.  A line feed is white space for [sscanf]: at the start of a blank
    line the call reads the fields of the line that follows.  So when a
    text opens with a blank line and the line after it is kept, that line
    is entered twice, at the indices 0 and 1 (both blocks granted, [n]
    line feeds with [n < 2^28], at most [n] lines kept). *)
Theorem blank_line_enters_next_line_twice :
  forall (m : Malloc) (c : ascii) (rest : string) (st : State) (e : MapEntry),
    hash_table_granted m = true -> entry_table_granted m = true ->
    is_nul c = false ->
    entry_of_line (String c rest) = Some e ->
    count_newlines (String c rest) + 1 < 2 ^ 28 ->
    (length (symbols (String "010" (String c rest)))
     <= Z.to_nat (count_newlines (String c rest) + 1))%nat ->
    exists others st',
      DL_ParseSymbolMap m (String "010" (String c rest)) st
      = Return (count_newlines (String c rest) + 1) st' /\
      _map_entry_table st'
      = built_entries (count_newlines (String c rest) + 1) (e :: e :: others).
Proof.
  intros m c rest st e Hg1 Hg2 Hnul He Hn Hlen.
  set (text := String c rest) in *.
  pose proof (count_newlines_nonneg text) as Hpos.
  assert (Hc : count_newlines (String "010" text) = count_newlines text + 1).
  { change (count_newlines (String "010" text)) with (1 + count_newlines text). lia. }
  assert (Hsym : symbols (String "010" text)
                 = e :: e :: omap entry_of_line
                               (line_starts (char_code c =? 10) rest)).
  { unfold symbols. cbn [line_starts]. change (is_nul "010") with false.
    change (char_code "010" =? 10) with true. cbn [andb app omap list_omap].
    assert (entry_of_line (String "010" text) = Some e) as ->.
    { unfold entry_of_line. rewrite sscanf_skips_space by reflexivity. exact He. }
    unfold text at 1. cbn [line_starts]. rewrite Hnul. cbn [andb app omap list_omap].
    fold text. now rewrite He. }
  exists (omap entry_of_line (line_starts (char_code c =? 10) rest)).
  eexists. split.
  - rewrite <- Hc.
    rewrite (parse_map_built (count_newlines (String "010" text))
               ltac:(rewrite Hc; lia) m _ st eq_refl Hg1 Hg2).
    destruct (_ <=? _) eqn:E; [reflexivity|]. apply Z.leb_gt in E. lia.
  - cbn [built_map _map_entry_table]. now rewrite Hc, Hsym.
Qed.

Lemma blank_line_enters_next_line_twice_witness :
  exists others st',
    DL_ParseSymbolMap granted
      (String "010" (String "f" ("oo T 80010000 4" ++ LF))) initial
    = Return (count_newlines (String "f" ("oo T 80010000 4" ++ LF)) + 1) st' /\
    _map_entry_table st'
    = built_entries (count_newlines (String "f" ("oo T 80010000 4" ++ LF)) + 1)
        (mkEntry 27999 2147549184 :: mkEntry 27999 2147549184 :: others).
Proof.
  apply (blank_line_enters_next_line_twice granted "f"
           ("oo T 80010000 4" ++ LF) initial (mkEntry 27999 2147549184)).
  - reflexivity.
  - reflexivity.
  - reflexivity.
  - vm_compute. reflexivity.
  - vm_compute. reflexivity.
  - vm_compute. lia.
Defined.

Lemma line_starts_terminated text : forall at_start : bool,
  Z.of_nat (length (line_starts at_start (text ++ LF)))
  <= count_newlines (text ++ LF) - (if at_start then 0 else 1).
Proof.
  induction text as [|c text IH]; intros at_start.
  - destruct at_start; vm_compute; discriminate.
  - change ((String c text ++ LF)%string) with (String c (text ++ LF)).
    cbn [line_starts count_newlines].
    pose proof (count_newlines_nonneg (text ++ LF)) as Hpos.
    destruct (at_start && is_nul c) eqn:Enul.
    { destruct at_start; [|discriminate].
      destruct (char_code c =? 10); cbn [length]; lia. }
    rewrite length_app.
    specialize (IH (char_code c =? 10)).
    destruct (char_code c =? 10), at_start; cbn [length] in *; lia.
Qed.

Lemma omap_length {A B : Type} (f : A -> option B) (l : list A) :
  (length (omap f l) <= length l)%nat.
Proof.
  induction l as [|x l IH]; [reflexivity|]. cbn [omap list_omap].
  destruct (f x); cbn [length]; lia.
Qed.

(** X9.  A text whose last character is a line feed is always parsed:
    with both blocks granted and fewer than 2^28 line feeds, the call
    returns the number of line feeds and leaves the map built from the
    lines it keeps; the entry table cannot overflow. *)
Theorem terminated_text_is_parsed :
  forall (m : Malloc) (text : string) (st : State),
    hash_table_granted m = true -> entry_table_granted m = true ->
    count_newlines (text ++ LF) < 2 ^ 28 ->
    DL_ParseSymbolMap m (text ++ LF) st
    = Return (count_newlines (text ++ LF))
        (built_map (_error_code st) (count_newlines (text ++ LF))
           (symbols (text ++ LF))).
Proof.
  intros m text st Hg1 Hg2 Hsmall.
  pose proof (line_starts_terminated text true) as Hlines.
  pose proof (omap_length entry_of_line (line_starts true (text ++ LF))) as Hkept.
  fold (symbols (text ++ LF)) in Hkept.
  assert (Hn : 0 < count_newlines (text ++ LF) < 2 ^ 28).
  { split; [|exact Hsmall]. clear. induction text as [|c text IH].
    - vm_compute. reflexivity.
    - change ((String c text ++ LF)%string) with (String c (text ++ LF)).
      cbn [count_newlines]. destruct (char_code c =? 10); lia. }
  rewrite (parse_map_built _ Hn m _ st eq_refl Hg1 Hg2).
  destruct (_ <=? _) eqn:E; [reflexivity|]. apply Z.leb_gt in E. lia.
Qed.

Lemma terminated_text_is_parsed_witness :
  DL_ParseSymbolMap granted ("foo T 80010000 4" ++ LF) initial
  = Return (count_newlines ("foo T 80010000 4" ++ LF))
      (built_map (_error_code initial) (count_newlines ("foo T 80010000 4" ++ LF))
         (symbols ("foo T 80010000 4" ++ LF))).
Proof.
  apply (terminated_text_is_parsed granted "foo T 80010000 4" initial).
  - reflexivity.
  - reflexivity.
  - vm_compute. reflexivity.
Defined.

End SymbolMapBehaviour.

(** ** [dlerror] *)

Section ErrorReport.
Import SymbolMap ErrorMessages.

(** X10.  [dlerror] never reads outside the table of messages: for every
    state it returns, and it leaves the error code cleared.  It answers a
    null pointer exactly when no error was pending, so a second call in a
    row always answers a null pointer; and two calls that answer the same
    message were made with the same error code pending. *)
Theorem dlerror_reads_and_clears :
  forall st : State,
    (exists answer,
        dlerror st = Return answer (set_error ERR_NONE st) /\
        (answer = None <-> _error_code st = ERR_NONE)) /\
    dlerror (set_error ERR_NONE st) = Return None (set_error ERR_NONE st) /\
    (forall (st2 : State) (message : string),
        dlerror st = Return (Some message) (set_error ERR_NONE st) ->
        dlerror st2 = Return (Some message) (set_error ERR_NONE st2) ->
        _error_code st2 = _error_code st).
Proof.
  intros st. split; [|split].
  - unfold dlerror. destruct (_error_code st); cbn;
      eexists; (split; [reflexivity|]); split; intros H; try reflexivity;
      discriminate.
  - reflexivity.
  - intros st2 message. unfold dlerror.
    destruct (_error_code st), (_error_code st2); cbn; intros H1 H2;
      try reflexivity; try discriminate;
      injection H1 as <-; discriminate.
Qed.

End ErrorReport.

(** * Further properties of the loader *)

Section LoaderBehaviour.
Import Loader Sample LoaderSample.

Ltac inv_access H x E :=
  match type of H with
  | access ?v _ = _ => destruct v as [x|] eqn:E; cbn [access] in H; [|discriminate H]
  end.

(** A value the walk returns is that of a symbol of the chain whose name
    is the name asked for. *)
Lemma symtab_find_sound m d name nbucket fuel : forall i v,
  symtab_find fuel m d name nbucket i = Return (Some v) tt ->
  exists k off,
    k <> 0 /\
    st_name m (symtab d + sizeof_Elf32_Sym * k) = Some off /\
    load_string m (strtab d + off) = Some (cstr name) /\
    st_value m (symtab d + sizeof_Elf32_Sym * k) = Some v.
Proof.
  induction fuel as [|fuel IH]; intros i v H; [discriminate|].
  cbn [symtab_find] in H. destruct (i =? 0) eqn:E0; [discriminate|].
  inv_access H off Eoff. inv_access H nm Enm.
  destruct (String.eqb (cstr name) nm) eqn:Eq.
  - inv_access H v' Ev. injection H as <-.
    apply String.eqb_eq in Eq. subst nm.
    exists i, off. repeat split; try assumption. lia.
  - inv_access H i' Ei'. eapply IH; eauto.
Qed.

(** X11.  [dlsym] on a module handle compares names, not hashes: the value
    it returns without setting an error is the [st_value] of a symbol,
    other than symbol 0, whose name in the string table is the name asked
    for, and the state is left alone.  Otherwise it returns a null pointer
    and sets [ERR_DLL_SYMBOL]. *)
Theorem dlsym_finds_by_name :
  forall (dll : Z) (d : DLL) (name : string) (w w' : World) (a : Z),
    dll <> RTLD_DEFAULT ->
    dlsym dll d name w = Return a w' ->
    (w' = w /\
     exists k off,
       k <> 0 /\
       st_name (image w) (symtab d + sizeof_Elf32_Sym * k) = Some off /\
       load_string (image w) (strtab d + off) = Some (cstr name) /\
       st_value (image w) (symtab d + sizeof_Elf32_Sym * k) = Some a)
    \/ (a = 0 /\
        w' = set_globals (SymbolMap.set_error ERR_DLL_SYMBOL (globals w)) w).
Proof.
  intros dll d name w w' a Hd H. unfold dlsym in H.
  destruct (dll =? RTLD_DEFAULT) eqn:E; [lia|].
  inv_access H nbucket En. destruct (nbucket =? 0); [discriminate|].
  inv_access H i Ei.
  destruct (symtab_find _ _ _ _ _ _) as [[v|] []| |] eqn:Ef; try discriminate.
  - injection H as <- <-. left. split; [reflexivity|].
    eapply symtab_find_sound; eauto.
  - unfold _ERROR in H. injection H as <- <-. right. auto.
Qed.

Lemma dlsym_finds_by_name_witness :
  (loaded SymbolMap.initial None = loaded SymbolMap.initial None /\
   exists k off,
     k <> 0 /\
     st_name (image (loaded SymbolMap.initial None))
       (symtab handle + sizeof_Elf32_Sym * k) = Some off /\
     load_string (image (loaded SymbolMap.initial None)) (strtab handle + off)
     = Some (cstr "__DTOR_LIST__") /\
     st_value (image (loaded SymbolMap.initial None))
       (symtab handle + sizeof_Elf32_Sym * k) = Some 0x110)
  \/ (0x110 = 0 /\
      loaded SymbolMap.initial None
      = set_globals (SymbolMap.set_error ERR_DLL_SYMBOL
                       (globals (loaded SymbolMap.initial None)))
          (loaded SymbolMap.initial None)).
Proof.
  apply (dlsym_finds_by_name HANDLE handle "__DTOR_LIST__"
           (loaded SymbolMap.initial None) (loaded SymbolMap.initial None) 0x110).
  - vm_compute. discriminate.
  - vm_compute. reflexivity.
Defined.

(** *** How [dlinit] fails *)

Lemma resolve_now_failed cb dll d name sym value n : forall j c m m',
  resolve_now n cb dll d name sym value j c m = Return ResolveFailed m' ->
  cb <> None.
Proof.
  induction n as [|n IH]; intros j c m m' H; [discriminate|].
  cbn [resolve_now] in H. inv_access H v Ev.
  destruct (negb (v =? value)); [eauto|].
  inv_access H shndx Esh. inv_access H info Einfo.
  destruct ((shndx =? 0) && _); [|discriminate].
  destruct cb as [resolve|]; discriminate.
Qed.

Lemma relocate_symbols_failed mode cb p dll d n : forall i c m m',
  relocate_symbols n mode cb p dll d i c m = Return ResolveFailed m' ->
  mode = RTLD_NOW /\ cb <> None.
Proof.
  induction n as [|n IH]; intros i c m m' H; [discriminate|].
  cbn [relocate_symbols] in H. inv_access H off Eoff. inv_access H v Ev.
  destruct (v =? 0); [eauto|].
  inv_access H m1 Es. inv_access H nm Enm.
  destruct mode; [eauto|].
  destruct (resolve_now _ _ _ _ _ _ _ _ _ _) as [[c'|] m2| |] eqn:Er;
    try discriminate; [eauto|].
  split; [reflexivity|]. eapply resolve_now_failed; eauto.
Qed.

Lemma release_head a h : release a (a :: h) = h.
Proof. cbn. now rewrite Z.eqb_refl. Qed.

(** X12.  A call of [dlinit] that returns a null pointer has set an error
    code and nothing else of the globals; it leaves the heap (the handle is
    freed again), the callback and the list of calls made as they were.
    The code is [ERR_DLL_NULL] for a null [ptr], [ERR_DLL_MALLOC] when the
    handle could not be allocated, [ERR_DLL_FORMAT] when [.dynamic] holds
    an entry that is not supported, and in these three cases the buffer is
    untouched; or it is [ERR_MAP_SYMBOL], which happens only in [RTLD_NOW]
    mode with a callback set. *)
Theorem dlinit_failure_codes :
  forall (p sz : Z) (mode : DL_ResolveMode) (dll : Z) (fresh : DLL)
         (w w' : World),
    dlinit p sz mode dll fresh w = Return None w' ->
    heap w' = heap w /\ calls w' = calls w /\
    _dl_resolve_callback w' = _dl_resolve_callback w /\
    exists code,
      globals w' = SymbolMap.set_error code (globals w) /\
      ((code = ERR_DLL_NULL /\ p = 0 /\ image w' = image w) \/
       (code = ERR_DLL_MALLOC /\ p <> 0 /\ dll = 0 /\ image w' = image w) \/
       (code = ERR_DLL_FORMAT /\ p <> 0 /\ dll <> 0 /\ image w' = image w) \/
       (code = ERR_MAP_SYMBOL /\ p <> 0 /\ dll <> 0 /\ mode = RTLD_NOW /\
        _dl_resolve_callback w <> None)).
Proof.
  intros p sz mode dll fresh w w' H. unfold dlinit, _ERROR in H.
  destruct (p =? 0) eqn:Ep.
  { injection H as <-. cbn. repeat split. exists ERR_DLL_NULL.
    split; [reflexivity|]. left. repeat split. lia. }
  destruct (dll =? 0) eqn:Ed.
  { injection H as <-. cbn. repeat split. exists ERR_DLL_MALLOC.
    split; [reflexivity|]. right. left. repeat split; lia. }
  cbv zeta in H. cbn [image set_heap] in H.
  inv_access H walked Ew. destruct walked as [dy|].
  2:{ injection H as <-. cbn. rewrite Z.eqb_refl. repeat split.
      exists ERR_DLL_FORMAT. split; [reflexivity|].
      right. right. left. repeat split; lia. }
  inv_access H m1 E1. inv_access H m2 E2. inv_access H m3 E3.
  cbn [_dl_resolve_callback] in H.
  destruct (relocate_symbols _ _ _ _ _ _ _ _ _) as [[c|] m4| |] eqn:E4;
    try discriminate.
  - destruct (call_constructors _ _ _) as [[] w1| |]; discriminate.
  - injection H as <-. cbn. rewrite Z.eqb_refl. repeat split.
    exists ERR_MAP_SYMBOL. split; [reflexivity|].
    destruct (relocate_symbols_failed _ _ _ _ _ _ _ _ _ _ E4) as [Hm Hcb].
    right. right. right. repeat split; try assumption; lia.
Qed.

Lemma dlinit_failure_codes_witness :
  exists w',
    dlinit BASE module_size RTLD_NOW HANDLE fresh
      (loaded foo_map (Some resolve_nothing)) = Return None w' /\
    heap w' = heap (loaded foo_map (Some resolve_nothing)) /\
    calls w' = calls (loaded foo_map (Some resolve_nothing)) /\
    _dl_resolve_callback w'
    = _dl_resolve_callback (loaded foo_map (Some resolve_nothing)) /\
    exists code,
      globals w' = SymbolMap.set_error code
                     (globals (loaded foo_map (Some resolve_nothing))) /\
      ((code = ERR_DLL_NULL /\ BASE = 0 /\
        image w' = image (loaded foo_map (Some resolve_nothing))) \/
       (code = ERR_DLL_MALLOC /\ BASE <> 0 /\ HANDLE = 0 /\
        image w' = image (loaded foo_map (Some resolve_nothing))) \/
       (code = ERR_DLL_FORMAT /\ BASE <> 0 /\ HANDLE <> 0 /\
        image w' = image (loaded foo_map (Some resolve_nothing))) \/
       (code = ERR_MAP_SYMBOL /\ BASE <> 0 /\ HANDLE <> 0 /\
        RTLD_NOW = RTLD_NOW /\
        _dl_resolve_callback (loaded foo_map (Some resolve_nothing)) <> None)).
Proof.
  eexists. split; [vm_compute; reflexivity|].
  refine (dlinit_failure_codes BASE module_size RTLD_NOW HANDLE fresh
            (loaded foo_map (Some resolve_nothing)) _ _).
  vm_compute. reflexivity.
Defined.

(** *** After a successful [dlinit] *)

Lemma call_down_callback tbl n : forall w w',
  call_down n tbl w = Return tt w' ->
  _dl_resolve_callback w' = _dl_resolve_callback w.
Proof.
  induction n as [|n IH]; intros w w' H.
  - cbn in H. now injection H as <-.
  - cbn [call_down] in H. inv_access H f Ef. now rewrite (IH _ _ H).
Qed.

(** X13.  What a successful [dlinit] leaves besides the buffer.  The
    pointer returned is the block [malloc] gave; the handle records [ptr]
    and owns no buffer ([malloc_ptr] is null); the heap has grown by the
    handle alone and the callback is the same.  Of the globals only the
    error code can have changed, and then it is [ERR_DLL_SYMBOL] and no
    function was called: a module without a [__CTOR_LIST__] symbol is
    initialised all the same, with that error left pending. *)
Theorem dlinit_success_state :
  forall (p sz : Z) (mode : DL_ResolveMode) (dll : Z) (fresh : DLL)
         (w : World) (h : Z) (d : DLL) (w' : World),
    dlinit p sz mode dll fresh w = Return (Some (h, d)) w' ->
    h = dll /\ h <> 0 /\ ptr d = p /\ p <> 0 /\ malloc_ptr d = 0 /\
    heap w' = h :: heap w /\
    _dl_resolve_callback w' = _dl_resolve_callback w /\
    (globals w' = globals w \/
     (globals w' = SymbolMap.set_error ERR_DLL_SYMBOL (globals w) /\
      calls w' = calls w)).
Proof.
  intros p sz mode dll fresh w h d w' Hinit.
  destruct (dlinit_Some _ _ _ _ _ _ _ _ _ Hinit)
    as (dy & m1 & m2 & m3 & m4 & c & Hp & Hdll & -> & Hwalk & Hd & _ & _ & _ & _ & E5).
  destruct (dynamic_walk_inv _ _ _ _ _ _ Hwalk ltac:(cbn; lia)) as (Hq & Hmp & _).
  destruct (call_constructors_frame _ _ _ _ E5 Hdll) as [_ Hheap].
  cbn [heap set_image set_heap] in Hheap.
  assert (Hptr : ptr d = p) by (rewrite Hd; cbn; exact Hq).
  assert (Hown : malloc_ptr d = 0) by (rewrite Hd; cbn; exact Hmp).
  repeat split; try assumption.
  - unfold call_constructors in E5.
    destruct (dlsym dll d "__CTOR_LIST__" _) as [tbl w1| |] eqn:Es; try discriminate.
    cbn [bind] in E5. unfold dlsym in Es.
    destruct (dll =? RTLD_DEFAULT) eqn:E; [unfold RTLD_DEFAULT in E; lia|].
    inv_access Es nbucket En. destruct (nbucket =? 0); [discriminate|].
    inv_access Es i Ei.
    destruct (symtab_find _ _ _ _ _ _) as [[v|] []| |]; try discriminate.
    + injection Es as <- <-.
      destruct (v =? 0). { now injection E5 as <-. }
      inv_access E5 count Ec.
      now rewrite (call_down_callback _ _ _ _ E5).
    + unfold _ERROR in Es. injection Es as <- <-. cbn in E5. now injection E5 as <-.
  - unfold call_constructors in E5.
    destruct (dlsym dll d "__CTOR_LIST__" _) as [tbl w1| |] eqn:Es; try discriminate.
    cbn [bind] in E5. unfold dlsym in Es.
    destruct (dll =? RTLD_DEFAULT) eqn:E; [unfold RTLD_DEFAULT in E; lia|].
    inv_access Es nbucket En. destruct (nbucket =? 0); [discriminate|].
    inv_access Es i Ei.
    destruct (symtab_find _ _ _ _ _ _) as [[v|] []| |]; try discriminate.
    + injection Es as <- <-. left.
      destruct (v =? 0). { now injection E5 as <-. }
      inv_access E5 count Ec.
      now destruct (call_down_frame _ _ _ _ E5) as (_ & _ & ->).
    + unfold _ERROR in Es. injection Es as <- <-. right.
      cbn in E5. now injection E5 as <-.
Qed.

Lemma dlinit_success_state_witness :
  exists (d : DLL) (w' : World),
    dlinit BASE module_size RTLD_LAZY HANDLE fresh (loaded SymbolMap.initial None)
    = Return (Some (HANDLE, d)) w' /\
    HANDLE = HANDLE /\ HANDLE <> 0 /\ ptr d = BASE /\ BASE <> 0 /\
    malloc_ptr d = 0 /\
    heap w' = HANDLE :: heap (loaded SymbolMap.initial None) /\
    _dl_resolve_callback w'
    = _dl_resolve_callback (loaded SymbolMap.initial None) /\
    (globals w' = globals (loaded SymbolMap.initial None) \/
     (globals w' = SymbolMap.set_error ERR_DLL_SYMBOL
                     (globals (loaded SymbolMap.initial None)) /\
      calls w' = calls (loaded SymbolMap.initial None))).
Proof.
  do 2 eexists. split; [vm_compute; reflexivity|].
  refine (dlinit_success_state BASE module_size RTLD_LAZY HANDLE fresh
            (loaded SymbolMap.initial None) HANDLE _ _ _).
  vm_compute. reflexivity.
Defined.

(** X14.  After a successful [dlinit] the buffer differs from what it was
    only in the GOT (the two reserved entries and the [got_length] entries
    after them) and in the [st_value] fields of the symbol table: every
    other word of the buffer reads as before. *)
Theorem dlinit_writes_only_got_and_values :
  forall (p sz : Z) (mode : DL_ResolveMode) (dll : Z) (fresh : DLL)
         (w : World) (h : Z) (d : DLL) (w' : World) (a : Z),
    dlinit p sz mode dll fresh w = Return (Some (h, d)) w' ->
    (forall k, 0 <= k < 2 + got_length d -> a <> got d + 4 * k) ->
    (forall i, 0 <= i < symbol_count d -> a <> value_field d i) ->
    load32 (image w') a = load32 (image w) a.
Proof.
  intros p sz mode dll fresh w h d w' a Hinit Hgot Hval.
  destruct (dlinit_Some _ _ _ _ _ _ _ _ _ Hinit)
    as (dy & m1 & m2 & m3 & m4 & c & Hp & Hdll & -> & Hwalk & Hd & E1 & E2 & E3 & E4 & E5).
  destruct (call_constructors_frame _ _ _ _ E5 Hdll) as [Himg _].
  cbn [image set_image] in Himg. rewrite Himg.
  destruct (dynamic_walk_inv _ _ _ _ _ _ Hwalk ltac:(cbn; lia)) as (_ & _ & Hfirst).
  assert (Hlen : 0 <= got_length d < 2 ^ 32).
  { rewrite Hd. cbn [got_length set_got_length]. apply u32_range. }
  pose proof (store32_address _ _ _ _ E1) as Hg.
  pose proof (relocate_got_short _ _ _ _ _ E3 ltac:(lia)) as Hshort.
  rewrite Z2Nat.id in Hshort by lia.
  assert (Hslot : forall k, 0 <= k < got_length d -> a <> got_slot d k).
  { intros k Hk. rewrite got_slot_plain by lia.
    specialize (Hgot (2 + k) ltac:(lia)). lia. }
  destruct (relocate_got_spec _ _ _ _ _ _ E3 ltac:(lia) ltac:(lia)) as [_ Hframe].
  rewrite Z2Nat.id in Hframe by lia.
  rewrite (relocate_symbols_frame _ _ _ _ _ _ _ _ _ _ _ E4 ltac:(lia) a).
  - rewrite Hframe by (intros k Hk; apply Hslot; lia).
    rewrite (load32_store32_other _ _ _ _ _ E2) by (specialize (Hgot 1); lia).
    apply (load32_store32_other _ _ _ _ _ E1). specialize (Hgot 0). lia.
  - intros k Hk. apply Hval. lia.
  - intros _ j Hj. now apply Hslot.
Qed.

Lemma dlinit_writes_only_got_and_values_witness :
  exists (d : DLL) (w' : World),
    dlinit BASE module_size RTLD_LAZY HANDLE fresh (loaded SymbolMap.initial None)
    = Return (Some (HANDLE, d)) w' /\
    load32 (image w') (BASE + 0xC0)
    = load32 (image (loaded SymbolMap.initial None)) (BASE + 0xC0).
Proof.
  do 2 eexists. split; [vm_compute; reflexivity|].
  refine (dlinit_writes_only_got_and_values BASE module_size RTLD_LAZY HANDLE
            fresh (loaded SymbolMap.initial None) HANDLE _ _ (BASE + 0xC0) _ _ _).
  - vm_compute. reflexivity.
  - cbn [got got_length]. unfold BASE. intros k Hk. lia.
  - cbn [symbol_count]. unfold value_field, sizeof_Elf32_Sym, BASE. cbn [symtab].
    intros i Hi. lia.
Defined.

Lemma relocate_symbols_values mode cb p dll d n : forall i c m c' m',
  relocate_symbols n mode cb p dll d i c m = Return (Cursor c') m' ->
  0 <= c ->
  (forall k j, i <= k < i + Z.of_nat n -> 0 <= j < got_length d ->
               value_field d k <> got_slot d j) ->
  forall k, i <= k < i + Z.of_nat n ->
    exists v,
      load32 m (value_field d k) = Some v /\
      load32 m' (value_field d k) = Some (if v =? 0 then 0 else u32 (v + p)).
Proof.
  induction n as [|n IH]; intros i c m c' m' H Hc Hapart k Hk; [lia|].
  cbn [relocate_symbols] in H.
  inv_access H off Eoff. inv_access H v Ev.
  unfold st_value in Ev.
  replace (symtab d + sizeof_Elf32_Sym * i + 4) with (value_field d i) in *
    by reflexivity.
  assert (Hother : forall k', i + 1 <= k' < i + 1 + Z.of_nat n ->
                              value_field d i <> value_field d k').
  { intros k' Hk'. unfold value_field, sizeof_Elf32_Sym. lia. }
  assert (Hrest : forall k' j, i + 1 <= k' < i + 1 + Z.of_nat n ->
                               0 <= j < got_length d ->
                               value_field d k' <> got_slot d j).
  { intros k' j Hk' Hj. apply Hapart; lia. }
  assert (Hi : forall j, 0 <= j < got_length d -> value_field d i <> got_slot d j).
  { intros j Hj. apply Hapart; lia. }
  destruct (v =? 0) eqn:Ev0.
  { destruct (Z.eq_dec k i) as [->|Hne].
    - exists v. split; [exact Ev|]. rewrite Ev0.
      rewrite (relocate_symbols_frame _ _ _ _ _ _ _ _ _ _ _ H Hc (value_field d i));
        [rewrite Ev; f_equal; lia|exact Hother|].
      intros _ j Hj. now apply Hi.
    - apply (IH _ _ _ _ _ H Hc Hrest). lia. }
  inv_access H m1 Es. inv_access H nm Enm.
  assert (H1 : forall a, a <> value_field d i -> load32 m1 a = load32 m a).
  { intros a Ha. eapply load32_store32_other; eauto. }
  assert (H1i : load32 m1 (value_field d i) = Some (u32 (v + p))).
  { rewrite (load32_store32_same _ _ _ _ Es). f_equal. apply u32_small, u32_range. }
  assert (Hfield : forall k', k' <> i -> value_field d k' <> value_field d i).
  { intros k' Hk'. unfold value_field, sizeof_Elf32_Sym. lia. }
  destruct mode.
  - destruct (Z.eq_dec k i) as [->|Hne].
    + exists v. split; [exact Ev|]. rewrite Ev0.
      rewrite (relocate_symbols_frame _ _ _ _ _ _ _ _ _ _ _ H Hc (value_field d i));
        [exact H1i|exact Hother|discriminate].
    + destruct (IH _ _ _ _ _ H Hc Hrest k ltac:(lia)) as (v' & Hv' & Hm').
      exists v'. split; [|exact Hm']. rewrite <- Hv'. symmetry. now apply H1, Hfield.
  - destruct (resolve_now _ _ _ _ _ _ _ _ _ _) as [[c1|] m2| |] eqn:Er;
      try discriminate.
    pose proof (resolve_now_cursor _ _ _ _ _ _ _ _ _ _ _ _ Er Hc Hc) as Hc1.
    assert (H2 : forall k', i <= k' < i + Z.of_nat (S n) ->
                            load32 m2 (value_field d k') = load32 m1 (value_field d k')).
    { intros k' Hk'. eapply resolve_now_frame; [exact Er|].
      intros j Hj. apply Hapart; lia. }
    destruct (Z.eq_dec k i) as [->|Hne].
    + exists v. split; [exact Ev|]. rewrite Ev0.
      rewrite (relocate_symbols_frame _ _ _ _ _ _ _ _ _ _ _ H Hc1 (value_field d i));
        [now rewrite H2|exact Hother|].
      intros _ j Hj. now apply Hi.
    + destruct (IH _ _ _ _ _ H Hc1 Hrest k ltac:(lia)) as (v' & Hv' & Hm').
      exists v'. split; [|exact Hm'].
      rewrite <- Hv', H2 by lia. symmetry. now apply H1, Hfield.
Qed.

(** X15.  The symbol table after a successful [dlinit], on a module whose
    symbol table does not overlap its GOT: the [st_value] of every symbol
    below [symbol_count] that was zero is zero still, and every other one
    is its link-time value plus the base, modulo 2^32; this in both
    modes. *)
Theorem symbol_values_after_init :
  forall (p sz : Z) (mode : DL_ResolveMode) (dll : Z) (fresh : DLL)
         (w : World) (h : Z) (d : DLL) (w' : World),
    dlinit p sz mode dll fresh w = Return (Some (h, d)) w' ->
    (forall i k, 0 <= i < symbol_count d -> 0 <= k < 2 + got_length d ->
                 symtab d + 16 * i + 4 <> got d + 4 * k) ->
    forall i, 0 <= i < symbol_count d ->
      exists v,
        st_value (image w) (symtab d + sizeof_Elf32_Sym * i) = Some v /\
        st_value (image w') (symtab d + sizeof_Elf32_Sym * i)
        = Some (if v =? 0 then 0 else u32 (v + p)).
Proof.
  intros p sz mode dll fresh w h d w' Hinit Hapart i Hi.
  destruct (dlinit_Some _ _ _ _ _ _ _ _ _ Hinit)
    as (dy & m1 & m2 & m3 & m4 & c & Hp & Hdll & -> & Hwalk & Hd & E1 & E2 & E3 & E4 & E5).
  destruct (call_constructors_frame _ _ _ _ E5 Hdll) as [Himg _].
  cbn [image set_image] in Himg. rewrite Himg.
  destruct (dynamic_walk_inv _ _ _ _ _ _ Hwalk ltac:(cbn; lia)) as (_ & _ & Hfirst).
  assert (Hlen : 0 <= got_length d < 2 ^ 32).
  { rewrite Hd. cbn [got_length set_got_length]. apply u32_range. }
  pose proof (store32_address _ _ _ _ E1) as Hg.
  pose proof (relocate_got_short _ _ _ _ _ E3 ltac:(lia)) as Hshort.
  rewrite Z2Nat.id in Hshort by lia.
  destruct (relocate_got_spec _ _ _ _ _ _ E3 ltac:(lia) ltac:(lia)) as [_ Hframe].
  rewrite Z2Nat.id in Hframe by lia.
  assert (Hfield : forall k, 0 <= k < 2 + got_length d ->
                             value_field d i <> got d + 4 * k).
  { intros k Hk. specialize (Hapart i k Hi Hk).
    unfold value_field, sizeof_Elf32_Sym. lia. }
  assert (Hslots : forall i0 j, 0 <= i0 < symbol_count d -> 0 <= j < got_length d ->
                                value_field d i0 <> got_slot d j).
  { intros i0 j Hi0 Hj. rewrite got_slot_plain by lia.
    specialize (Hapart i0 (2 + j) Hi0 ltac:(lia)).
    unfold value_field, sizeof_Elf32_Sym. lia. }
  assert (Hbefore : load32 m3 (value_field d i) = load32 (image w) (value_field d i)).
  { rewrite Hframe.
    - rewrite (load32_store32_other _ _ _ _ _ E2) by (specialize (Hfield 1); lia).
      apply (load32_store32_other _ _ _ _ _ E1). specialize (Hfield 0). lia.
    - intros k Hk. apply Hslots; lia. }
  unfold st_value.
  replace (symtab d + sizeof_Elf32_Sym * i + 4) with (value_field d i) by reflexivity.
  rewrite <- Hbefore.
  apply (relocate_symbols_values _ _ _ _ _ _ _ _ _ _ _ E4 ltac:(lia)).
  - intros k j Hk Hj. apply Hslots; lia.
  - lia.
Qed.

Lemma symbol_values_after_init_witness :
  exists (d : DLL) (w' : World),
    dlinit BASE module_size RTLD_LAZY HANDLE fresh (loaded SymbolMap.initial None)
    = Return (Some (HANDLE, d)) w' /\
    exists v,
      st_value (image (loaded SymbolMap.initial None))
        (symtab d + sizeof_Elf32_Sym * 2) = Some v /\
      st_value (image w') (symtab d + sizeof_Elf32_Sym * 2)
      = Some (if v =? 0 then 0 else u32 (v + BASE)).
Proof.
  do 2 eexists. split; [vm_compute; reflexivity|].
  refine (symbol_values_after_init BASE module_size RTLD_LAZY HANDLE fresh
            (loaded SymbolMap.initial None) HANDLE _ _ _ _ 2 _).
  - vm_compute. reflexivity.
  - cbn [symbol_count got_length symtab got]. intros i k Hi Hk. lia.
  - cbn [symbol_count]. lia.
Defined.

(** *** The GOT in both modes *)

Lemma resolve_now_slots cb dll d name sym value n : forall j c m c' m' a,
  resolve_now n cb dll d name sym value j c m = Return (Cursor c') m' ->
  load32 m' a = load32 m a \/
  (exists resolve,
      cb = Some resolve /\
      load32 m' a = Some (u32 (resolve dll name)) /\
      u32 (resolve dll name) <> 0).
Proof.
  induction n as [|n IH]; intros j c m c' m' a H.
  - cbn in H. injection H as _ <-. now left.
  - cbn [resolve_now] in H. inv_access H v Ev.
    destruct (negb (v =? value)); [eauto|].
    inv_access H shndx Esh. inv_access H info Einfo.
    destruct ((shndx =? 0) && _); [|injection H as _ <-; now left].
    destruct cb as [resolve|]; [|discriminate].
    inv_access H m1 Es.
    destruct (u32 (resolve dll name) =? 0) eqn:E0; [discriminate|].
    injection H as _ <-. apply Z.eqb_neq in E0.
    destruct (Z.eq_dec a (got_slot d j)) as [->|Hne].
    + right. exists resolve. split; [reflexivity|]. split; [|exact E0].
      rewrite (load32_store32_same _ _ _ _ Es). f_equal. apply u32_small, u32_range.
    + left. eapply load32_store32_other; eauto.
Qed.

Lemma relocate_symbols_slots mode cb p dll d n : forall i c m c' m' a,
  relocate_symbols n mode cb p dll d i c m = Return (Cursor c') m' ->
  (forall k, i <= k < i + Z.of_nat n -> a <> value_field d k) ->
  load32 m' a = load32 m a \/
  (mode = RTLD_NOW /\
   exists resolve name,
     cb = Some resolve /\
     load32 m' a = Some (u32 (resolve dll name)) /\
     u32 (resolve dll name) <> 0).
Proof.
  induction n as [|n IH]; intros i c m c' m' a H Ha.
  - cbn in H. injection H as _ <-. now left.
  - cbn [relocate_symbols] in H.
    inv_access H off Eoff. inv_access H v Ev.
    destruct (v =? 0).
    { apply (IH _ _ _ _ _ _ H). intros k Hk. apply Ha. lia. }
    inv_access H m1 Es. inv_access H nm Enm.
    assert (H1 : load32 m1 a = load32 m a).
    { eapply load32_store32_other; eauto.
      specialize (Ha i ltac:(lia)). unfold value_field in Ha. exact Ha. }
    destruct mode.
    + rewrite <- H1. apply (IH _ _ _ _ _ _ H). intros k Hk. apply Ha. lia.
    + destruct (resolve_now _ _ _ _ _ _ _ _ _ _) as [[c1|] m2| |] eqn:Er;
        try discriminate.
      destruct (IH _ _ _ _ _ a H ltac:(intros k Hk; apply Ha; lia))
        as [Hsame|Hres]; [|now right].
      destruct (resolve_now_slots _ _ _ _ _ _ _ _ _ _ _ _ a Er)
        as [Hsame2|(resolve & Hcb & Hv & Hnz)].
      * left. now rewrite Hsame, Hsame2.
      * right. split; [reflexivity|]. exists resolve, nm.
        rewrite Hsame. auto.
Qed.

(** X16.  The GOT after a successful [dlinit] in either mode, on a module
    whose symbol table does not overlap its GOT.  Every entry [got[2 + i]]
    with [i < got_length] holds its link-time value plus the base, or, in
    [RTLD_NOW] mode with a callback set, an address the callback gave for
    the module and the name of some symbol; such an address is never
    null. *)
Theorem got_slots_after_init :
  forall (p sz : Z) (mode : DL_ResolveMode) (dll : Z) (fresh : DLL)
         (w : World) (h : Z) (d : DLL) (w' : World),
    dlinit p sz mode dll fresh w = Return (Some (h, d)) w' ->
    (forall i k, 0 <= i < symbol_count d -> 0 <= k < 2 + got_length d ->
                 symtab d + 16 * i + 4 <> got d + 4 * k) ->
    forall i, 0 <= i < got_length d ->
      exists v,
        load32 (image w) (got d + 4 * (2 + i)) = Some v /\
        (load32 (image w') (got d + 4 * (2 + i)) = Some (u32 (v + p)) \/
         (mode = RTLD_NOW /\
          exists resolve name,
            _dl_resolve_callback w = Some resolve /\
            load32 (image w') (got d + 4 * (2 + i))
            = Some (u32 (resolve h name)) /\
            u32 (resolve h name) <> 0)).
Proof.
  intros p sz mode dll fresh w h d w' Hinit Hapart i Hi.
  destruct (dlinit_Some _ _ _ _ _ _ _ _ _ Hinit)
    as (dy & m1 & m2 & m3 & m4 & c & Hp & Hdll & -> & Hwalk & Hd & E1 & E2 & E3 & E4 & E5).
  destruct (call_constructors_frame _ _ _ _ E5 Hdll) as [Himg _].
  cbn [image set_image] in Himg. rewrite Himg.
  assert (Hlen : 0 <= got_length d < 2 ^ 32).
  { rewrite Hd. cbn [got_length set_got_length]. apply u32_range. }
  pose proof (store32_address _ _ _ _ E1) as Hg.
  pose proof (relocate_got_short _ _ _ _ _ E3 ltac:(lia)) as Hshort.
  rewrite Z2Nat.id in Hshort by lia.
  destruct (relocate_got_spec _ _ _ _ _ _ E3 ltac:(lia) ltac:(lia)) as [Hreloc _].
  rewrite Z2Nat.id in Hreloc by lia.
  destruct (Hreloc i Hi) as (v & Hv & Hv').
  rewrite got_slot_plain in Hv, Hv' by lia.
  replace (got d + 8 + 4 * i) with (got d + 4 * (2 + i)) in Hv, Hv' by lia.
  exists v. split.
  - rewrite <- Hv.
    rewrite (load32_store32_other _ _ _ _ _ E2) by lia.
    now rewrite (load32_store32_other _ _ _ _ _ E1) by lia.
  - destruct (relocate_symbols_slots _ _ _ _ _ _ _ _ _ _ _ (got d + 4 * (2 + i)) E4)
      as [Hsame|(Hm & resolve & nm & Hcb & Hr & Hnz)].
    + intros k Hk E. apply (Hapart k (2 + i)); [lia|lia|].
      unfold value_field, sizeof_Elf32_Sym in E. lia.
    + left. now rewrite Hsame.
    + right. split; [exact Hm|]. exists resolve, nm. auto.
Qed.

Lemma got_slots_after_init_witness :
  exists (d : DLL) (w' : World),
    dlinit BASE module_size RTLD_NOW HANDLE fresh (loaded foo_map (Some resolve_foo))
    = Return (Some (HANDLE, d)) w' /\
    exists v,
      load32 (image (loaded foo_map (Some resolve_foo))) (got d + 4 * (2 + 1))
      = Some v /\
      (load32 (image w') (got d + 4 * (2 + 1)) = Some (u32 (v + BASE)) \/
       (RTLD_NOW = RTLD_NOW /\
        exists resolve name,
          _dl_resolve_callback (loaded foo_map (Some resolve_foo)) = Some resolve /\
          load32 (image w') (got d + 4 * (2 + 1)) = Some (u32 (resolve HANDLE name)) /\
          u32 (resolve HANDLE name) <> 0)).
Proof.
  do 2 eexists. split; [vm_compute; reflexivity|].
  refine (got_slots_after_init BASE module_size RTLD_NOW HANDLE fresh
            (loaded foo_map (Some resolve_foo)) HANDLE _ _ _ _ 1 _).
  - vm_compute. reflexivity.
  - cbn [symbol_count got_length symtab got]. intros i k Hi Hk. lia.
  - cbn [got_length]. lia.
Defined.

(** X17.  [dlinit] takes the counts of [.dynamic] as they come.  When
    [local_got_len + (symbol_count - first_got_sym) - 2], computed modulo
    2^32, is more than 2^30 - 2 (as it is when the sum is below 2 and the
    subtraction wraps), the loop over the GOT leaves the buffer: the call
    reads or writes outside it. *)
Theorem oversized_got_runs_off_buffer :
  forall (p sz : Z) (mode : DL_ResolveMode) (dll : Z) (fresh : DLL)
         (w : World) (dy : Dynamic),
    p <> 0 -> dll <> 0 ->
    dynamic_walk (S (length (words (image w)))) (image w) p p
      (mkDynamic (first_fields p sz fresh) 0 0) = Some (Some dy) ->
    2 ^ 30 - 2
    < u32 (local_got_len dy + (symbol_count (dyn_dll dy) - first_got_sym dy) - 2) ->
    dlinit p sz mode dll fresh w = Undefined OutOfBounds.
Proof.
  intros p sz mode dll fresh w dy Hp Hdll Hwalk Hbig. unfold dlinit.
  destruct (p =? 0) eqn:Ep; [lia|]. destruct (dll =? 0) eqn:Ed; [lia|].
  cbv zeta. cbn [image set_heap]. rewrite Hwalk. cbn [access].
  set (d := set_got_length _ (dyn_dll dy)).
  destruct (store32 (image w) (got d) _) as [m1|] eqn:E1; [|reflexivity]. cbn [access].
  destruct (store32 m1 (got d + 4) dll) as [m2|] eqn:E2; [|reflexivity]. cbn [access].
  destruct (relocate_got _ _ _ _ _) as [m3|] eqn:E3; [|reflexivity]. exfalso.
  pose proof (store32_address _ _ _ _ E1) as Hg.
  pose proof (relocate_got_short _ _ _ _ _ E3 ltac:(lia)) as Hshort.
  assert (Hlen : got_length d
                 = u32 (local_got_len dy
                        + (symbol_count (dyn_dll dy) - first_got_sym dy) - 2))
    by reflexivity.
  lia.
Qed.

Lemma oversized_got_runs_off_buffer_witness :
  dlinit BASE 32 RTLD_LAZY HANDLE fresh (bare None) = Undefined OutOfBounds.
Proof.
  apply (oversized_got_runs_off_buffer BASE 32 RTLD_LAZY HANDLE fresh (bare None)
           (mkDynamic (mkDLL BASE 0 32 0 (BASE + 0x10) 0 0 0 0) 0 0)).
  - vm_compute. discriminate.
  - vm_compute. discriminate.
  - vm_compute. reflexivity.
  - vm_compute. reflexivity.
Defined.

(** *** The callback and the lazy mode *)

Lemma relocate_symbols_lazy cb cb' p dll d n : forall i c m,
  relocate_symbols n RTLD_LAZY cb p dll d i c m
  = relocate_symbols n RTLD_LAZY cb' p dll d i c m.
Proof.
  induction n as [|n IH]; intros i c m; [reflexivity|].
  cbn [relocate_symbols].
  destruct (st_name m _) as [off|]; [|reflexivity]. cbn [access].
  destruct (st_value m _) as [v|]; [|reflexivity]. cbn [access].
  destruct (v =? 0); [apply IH|].
  destruct (store32 m _ _) as [m1|]; [|reflexivity]. cbn [access].
  destruct (load_string m1 _) as [nm|]; [|reflexivity]. cbn [access].
  apply IH.
Qed.

Lemma call_down_with_callback cb tbl n : forall w,
  call_down n tbl (DL_SetResolveCallback cb w)
  = with_callback cb (call_down n tbl w).
Proof.
  induction n as [|n IH]; intros w; [reflexivity|].
  cbn [call_down]. cbn [image DL_SetResolveCallback].
  destruct (load32 (image w) _) as [f|]; [|reflexivity]. cbn [access].
  apply (IH (DL_CALL f w)).
Qed.

Lemma dlsym_with_callback cb dll d name w :
  dlsym dll d name (DL_SetResolveCallback cb w)
  = with_callback cb (dlsym dll d name w).
Proof.
  unfold dlsym. destruct (dll =? RTLD_DEFAULT).
  - unfold map_lookup. cbn [globals DL_SetResolveCallback].
    now destruct (SymbolMap.DL_GetSymbolByName name (globals w)).
  - cbn [image DL_SetResolveCallback].
    destruct (load32 (image w) (hash d)) as [nbucket|]; [|reflexivity]. cbn [access].
    destruct (nbucket =? 0); [reflexivity|].
    destruct (load32 (image w) _) as [i|]; [|reflexivity]. cbn [access].
    now destruct (symtab_find _ _ _ _ _ _) as [[v|] []| |].
Qed.

Lemma call_constructors_with_callback cb dll d w :
  call_constructors dll d (DL_SetResolveCallback cb w)
  = with_callback cb (call_constructors dll d w).
Proof.
  unfold call_constructors. rewrite dlsym_with_callback.
  destruct (dlsym dll d "__CTOR_LIST__" w) as [tbl w1| |]; [|reflexivity..].
  cbn [with_callback bind]. destruct (tbl =? 0); [reflexivity|].
  cbn [image DL_SetResolveCallback].
  destruct (load32 (image w1) tbl) as [count|]; [|reflexivity]. cbn [access].
  apply call_down_with_callback.
Qed.

(** X18.  In [RTLD_LAZY] mode [dlinit] makes no use of the resolve
    callback: with another callback set, or none, it ends in the same way,
    with the same result, and leaves the same world but for the callback
    itself. *)
Theorem lazy_init_ignores_callback :
  forall (p sz dll : Z) (fresh : DLL) (cb : option resolver) (w : World),
    dlinit p sz RTLD_LAZY dll fresh (DL_SetResolveCallback cb w)
    = with_callback cb (dlinit p sz RTLD_LAZY dll fresh w).
Proof.
  intros p sz dll fresh cb w. unfold dlinit, _ERROR.
  destruct (p =? 0); [reflexivity|]. destruct (dll =? 0); [reflexivity|].
  cbv zeta. cbn [image set_heap heap DL_SetResolveCallback _dl_resolve_callback].
  destruct (dynamic_walk _ _ _ _ _) as [[dy|]|]; [|reflexivity..]. cbn [access].
  destruct (store32 (image w) _ _) as [m1|]; [|reflexivity]. cbn [access].
  destruct (store32 m1 _ _) as [m2|]; [|reflexivity]. cbn [access].
  destruct (relocate_got _ _ _ _ _) as [m3|]; [|reflexivity]. cbn [access].
  rewrite (relocate_symbols_lazy cb (_dl_resolve_callback w)).
  destruct (relocate_symbols _ _ _ _ _ _ _ _ _) as [[c|] m4| |]; try reflexivity.
  set (d := set_got_length _ _).
  change (set_image m4 (set_heap (dll :: heap w) (DL_SetResolveCallback cb w)))
    with (DL_SetResolveCallback cb (set_image m4 (set_heap (dll :: heap w) w))).
  rewrite call_constructors_with_callback.
  now destruct (call_constructors _ _ _) as [[] w1| |].
Qed.

(** *** [dlinit] and [dlclose] *)

(** X19.  A handle made by [dlinit] does not own the buffer.  When
    [dlclose] of it returns, the heap is what it was before the call of
    [dlinit]: the handle is freed and the buffer of the module is not, and
    the buffer reads as it did when [dlinit] returned. *)
Theorem init_then_close_frees_handle_only :
  forall (p sz : Z) (mode : DL_ResolveMode) (dll : Z) (fresh : DLL)
         (w : World) (h : Z) (d : DLL) (w1 w2 : World),
    dlinit p sz mode dll fresh w = Return (Some (h, d)) w1 ->
    dlclose h d w1 = Return tt w2 ->
    heap w2 = heap w /\ image w2 = image w1.
Proof.
  intros p sz mode dll fresh w h d w1 w2 Hinit Hclose.
  destruct (dlinit_Some _ _ _ _ _ _ _ _ _ Hinit)
    as (dy & m1 & m2 & m3 & m4 & c & Hp & Hdll & -> & Hwalk & Hd & _ & _ & _ & _ & E5).
  destruct (dynamic_walk_inv _ _ _ _ _ _ Hwalk ltac:(cbn; lia)) as (Hq & Hmp & _).
  destruct (call_constructors_frame _ _ _ _ E5 Hdll) as [_ Hheap].
  cbn [heap set_image set_heap] in Hheap.
  assert (Hptr : ptr d = p) by (rewrite Hd; cbn; exact Hq).
  assert (Hown : malloc_ptr d = 0) by (rewrite Hd; cbn; exact Hmp).
  unfold dlclose in Hclose.
  destruct (dll =? RTLD_DEFAULT) eqn:E; [unfold RTLD_DEFAULT in E; lia|].
  rewrite Hptr, Hown in Hclose. destruct (p =? 0) eqn:Ep; [lia|].
  destruct (call_destructors _ _ _) as [[] wd| |] eqn:Ed; try discriminate.
  destruct (call_destructors_frame _ _ _ _ Ed Hdll) as [Hid Hhd].
  cbn [bind] in Hclose. change (0 =? 0) with true in Hclose. cbv iota in Hclose.
  injection Hclose as <-. cbn [heap image free set_heap].
  rewrite Hhd, Hheap, release_head. auto.
Qed.

Lemma init_then_close_frees_handle_only_witness :
  exists (d : DLL) (w1 w2 : World),
    dlinit BASE module_size RTLD_LAZY HANDLE fresh (loaded SymbolMap.initial None)
    = Return (Some (HANDLE, d)) w1 /\
    dlclose HANDLE d w1 = Return tt w2 /\
    heap w2 = heap (loaded SymbolMap.initial None) /\ image w2 = image w1.
Proof.
  do 3 eexists. split; [vm_compute; reflexivity|].
  split; [vm_compute; reflexivity|].
  refine (init_then_close_frees_handle_only BASE module_size RTLD_LAZY HANDLE fresh
            (loaded SymbolMap.initial None) HANDLE _ _ _ _ _).
  - vm_compute. reflexivity.
  - vm_compute. reflexivity.
Defined.

(** *** The lazy resolver *)

Lemma patch_got_spec d sym address n : forall i m m',
  patch_got n d sym address i m = Some m' ->
  (m' = m /\
   forall k, i <= k < i + Z.of_nat n ->
             load32 m (got_slot d k) <> st_value m sym) \/
  (exists k,
      i <= k < i + Z.of_nat n /\
      load32 m (got_slot d k) = st_value m sym /\
      (forall j, i <= j < k -> load32 m (got_slot d j) <> st_value m sym) /\
      store32 m (got_slot d k) address = Some m').
Proof.
  induction n as [|n IH]; intros i m m' H.
  - cbn in H. injection H as <-. left. split; [reflexivity|lia].
  - cbn [patch_got] in H.
    destruct (load32 m (got_slot d i)) as [v|] eqn:Ev; [|discriminate]. cbn in H.
    destruct (st_value m sym) as [value|] eqn:Eval; [|discriminate]. cbn in H.
    rewrite <- Eval.
    destruct (v =? value) eqn:E.
    + apply Z.eqb_eq in E. subst v. right. exists i.
      repeat split; try assumption; try lia. now rewrite Eval.
    + apply Z.eqb_neq in E.
      assert (Hi : load32 m (got_slot d i) <> st_value m sym).
      { rewrite Ev, Eval. intros Heq. injection Heq as Heq. contradiction. }
      destruct (IH _ _ _ H) as [[-> Hnone]|(k & Hk & Hmatch & Hfirst & Hst)].
      * left. split; [reflexivity|]. intros k Hk.
        destruct (Z.eq_dec k i) as [->|Hne]; [exact Hi|apply Hnone; lia].
      * right. exists k. repeat split; try assumption; try lia.
        intros j Hj. destruct (Z.eq_dec j i) as [->|Hne]; [exact Hi|apply Hfirst; lia].
Qed.

(** X20.  When [_dl_resolve_helper] returns, the address it returns is not
    null; it is the answer of the callback for the name of the symbol when
    a callback is set and that of the symbol map otherwise.  Of the buffer
    it has changed at most one word: the first of the [got_length] GOT
    entries after the reserved two that held the [st_value] of the symbol
    now holds the address, and when none did the buffer is as it was.  The
    heap, the callback and the list of calls made are as they were. *)
Theorem resolve_helper_patches_first_match :
  forall (dll : Z) (d : DLL) (index : Z) (w w' : World) (a : Z),
    _dl_resolve_helper dll d index w = Return a w' ->
    a <> 0 /\
    heap w' = heap w /\ calls w' = calls w /\
    _dl_resolve_callback w' = _dl_resolve_callback w /\
    (exists off name,
        st_name (image w) (symtab d + sizeof_Elf32_Sym * index) = Some off /\
        load_string (image w) (strtab d + off) = Some name /\
        match _dl_resolve_callback w with
        | Some resolve => a = u32 (resolve dll name)
        | None =>
            exists g, SymbolMap.DL_GetSymbolByName name (globals w) = Return a g
        end) /\
    ((image w' = image w /\
      forall k, 0 <= k < got_length d ->
                load32 (image w) (got_slot d k)
                <> st_value (image w) (symtab d + sizeof_Elf32_Sym * index))
     \/
     (exists k,
         0 <= k < got_length d /\
         load32 (image w) (got_slot d k)
         = st_value (image w) (symtab d + sizeof_Elf32_Sym * index) /\
         (forall j, 0 <= j < k ->
                    load32 (image w) (got_slot d j)
                    <> st_value (image w) (symtab d + sizeof_Elf32_Sym * index)) /\
         store32 (image w) (got_slot d k) a = Some (image w'))).
Proof.
  intros dll d index w w' a H. unfold _dl_resolve_helper in H.
  cbv zeta in H. set (sym := symtab d + sizeof_Elf32_Sym * index) in *.
  inv_access H off Eoff. inv_access H nm Enm.
  assert (Hstep : forall w1 : World,
             image w1 = image w -> heap w1 = heap w -> calls w1 = calls w ->
             _dl_resolve_callback w1 = _dl_resolve_callback w ->
             (if a =? 0 then Diverges
              else access (patch_got (Z.to_nat (got_length d)) d sym a 0 (image w1))
                     (fun m' => Return a (set_image m' w1))) = Return a w' ->
             a <> 0 /\ heap w' = heap w /\ calls w' = calls w /\
             _dl_resolve_callback w' = _dl_resolve_callback w /\
             ((image w' = image w /\
               forall k, 0 <= k < got_length d ->
                         load32 (image w) (got_slot d k) <> st_value (image w) sym)
              \/
              (exists k,
                  0 <= k < got_length d /\
                  load32 (image w) (got_slot d k) = st_value (image w) sym /\
                  (forall j, 0 <= j < k ->
                             load32 (image w) (got_slot d j) <> st_value (image w) sym) /\
                  store32 (image w) (got_slot d k) a = Some (image w')))).
  { intros w1 Hi Hh Hc Hcb H1.
    destruct (a =? 0) eqn:Ea; [discriminate|].
    inv_access H1 m' Ep. injection H1 as <-. rewrite Hi in Ep.
    cbn [heap calls _dl_resolve_callback image set_image].
    repeat split; try assumption; [lia|].
    destruct (patch_got_spec _ _ _ _ _ _ _ Ep) as [[-> Hnone]|(k & Hk & Hm & Hf & Hs)].
    - left. split; [reflexivity|]. intros k Hk. apply Hnone. lia.
    - right. exists k. repeat split; try assumption; lia. }
  destruct (_dl_resolve_callback w) as [resolve|] eqn:Ecb.
  - cbn [bind] in H.
    assert (Ha : a = u32 (resolve dll nm)).
    { destruct (u32 (resolve dll nm) =? 0); [discriminate|].
      inv_access H m' Ep. now injection H as <- _. }
    rewrite <- Ha in H.
    destruct (Hstep w eq_refl eq_refl eq_refl Ecb H) as (H1 & H2 & H3 & H4 & H5).
    repeat split; try assumption. exists off, nm. auto.
  - unfold map_lookup in H.
    destruct (SymbolMap.DL_GetSymbolByName nm (globals w)) as [a0 g| |] eqn:Eg;
      try discriminate.
    cbn [bind] in H.
    assert (Ha : a = a0).
    { destruct (a0 =? 0); [discriminate|].
      inv_access H m' Ep. now injection H as <- _. }
    subst a0.
    destruct (Hstep (set_globals g w) eq_refl eq_refl eq_refl Ecb H)
      as (H1 & H2 & H3 & H4 & H5).
    repeat split; try assumption. exists off, nm. eauto.
Qed.

Lemma resolve_helper_patches_first_match_witness :
  exists (d : DLL) (w1 w2 : World),
    dlinit BASE module_size RTLD_LAZY HANDLE fresh (loaded foo_map None)
    = Return (Some (HANDLE, d)) w1 /\
    _dl_resolve_helper HANDLE d 1 w1 = Return 0x80010000 w2 /\
    0x80010000 <> 0 /\
    heap w2 = heap w1 /\ calls w2 = calls w1 /\
    _dl_resolve_callback w2 = _dl_resolve_callback w1 /\
    (exists off name,
        st_name (image w1) (symtab d + sizeof_Elf32_Sym * 1) = Some off /\
        load_string (image w1) (strtab d + off) = Some name /\
        match _dl_resolve_callback w1 with
        | Some resolve => 0x80010000 = u32 (resolve HANDLE name)
        | None =>
            exists g,
              SymbolMap.DL_GetSymbolByName name (globals w1) = Return 0x80010000 g
        end) /\
    ((image w2 = image w1 /\
      forall k, 0 <= k < got_length d ->
                load32 (image w1) (got_slot d k)
                <> st_value (image w1) (symtab d + sizeof_Elf32_Sym * 1))
     \/
     (exists k,
         0 <= k < got_length d /\
         load32 (image w1) (got_slot d k)
         = st_value (image w1) (symtab d + sizeof_Elf32_Sym * 1) /\
         (forall j, 0 <= j < k ->
                    load32 (image w1) (got_slot d j)
                    <> st_value (image w1) (symtab d + sizeof_Elf32_Sym * 1)) /\
         store32 (image w1) (got_slot d k) 0x80010000 = Some (image w2))).
Proof.
  do 3 eexists. split; [vm_compute; reflexivity|].
  split; [vm_compute; reflexivity|].
  refine (resolve_helper_patches_first_match HANDLE _ 1 _ _ 0x80010000 _).
  vm_compute. reflexivity.
Defined.

(** *** [dlopen] *)

Lemma dlinit_None_code p sz mode dll fresh w w' :
  dlinit p sz mode dll fresh w = Return None w' -> p <> 0 ->
  calls w' = calls w /\
  (SymbolMap._error_code (globals w') = ERR_DLL_MALLOC \/
   SymbolMap._error_code (globals w') = ERR_DLL_FORMAT \/
   SymbolMap._error_code (globals w') = ERR_MAP_SYMBOL).
Proof.
  unfold dlinit, _ERROR. intros H Hp.
  destruct (p =? 0) eqn:Ep; [lia|].
  destruct (dll =? 0). { injection H as <-. cbn. auto. }
  cbv zeta in H. cbn [image set_heap] in H.
  inv_access H walked Ew.
  destruct walked as [dy|]. 2:{ injection H as <-. cbn. auto. }
  inv_access H m1 E1. inv_access H m2 E2. inv_access H m3 E3.
  destruct (relocate_symbols _ _ _ _ _ _ _ _ _) as [[c|] m4| |] eqn:E4;
    try discriminate.
  - destruct (call_constructors _ _ _) as [[] w1| |]; discriminate.
  - injection H as <-. cbn. auto.
Qed.

(** X21.  [dlopen] never fails in silence, and a call that fails gives
    back the memory it took.  When it returns a null pointer, an error code
    is set for which [dlerror] has a message: one of the three codes of the
    file loader or one of [ERR_DLL_MALLOC], [ERR_DLL_FORMAT],
    [ERR_MAP_SYMBOL]; every block [malloc] gave during the call is freed
    again, the heap being what it was before the call; and no function of
    the module was called.  The descriptor of the file is not part of the
    state kept here, and nothing is said of it. *)
Theorem dlopen_null_reports_error :
  forall (f : File) (mode : DL_ResolveMode) (dll : Z) (fresh : DLL)
         (w w' : World),
    dlopen f mode dll fresh w = Return None w' ->
    heap w' = heap w /\ calls w' = calls w /\
    In (SymbolMap._error_code (globals w'))
       [ERR_FILE; ERR_FILE_MALLOC; ERR_FILE_READ;
        ERR_DLL_MALLOC; ERR_DLL_FORMAT; ERR_MAP_SYMBOL] /\
    exists message,
      ErrorMessages.dlerror (globals w')
      = Return (Some message) (SymbolMap.set_error ERR_NONE (globals w')).
Proof.
  intros f mode dll fresh w w' H.
  assert (Hmain : heap w' = heap w /\ calls w' = calls w /\
                  In (SymbolMap._error_code (globals w'))
                     [ERR_FILE; ERR_FILE_MALLOC; ERR_FILE_READ;
                      ERR_DLL_MALLOC; ERR_DLL_FORMAT; ERR_MAP_SYMBOL]).
  { unfold dlopen, _load_file, _ERROR in H.
    destruct (fd f <? 0).
    { cbn [bind] in H. injection H as <-. cbn. repeat split. cbn. auto 10. }
    destruct (buffer f =? 0) eqn:Eb.
    { cbn [bind] in H. injection H as <-. cbn. repeat split. cbn. auto 10. }
    destruct ((0 <? filesize f) && negb (reads_deliver f)).
    { cbn [bind] in H. injection H as <-. cbn. rewrite Z.eqb_refl.
      repeat split. cbn. auto 10. }
    cbn [bind] in H.
    destruct (dlinit _ _ _ _ _ _) as [[[h d]|] w2| |] eqn:Ei; try discriminate.
    cbn [bind] in H. injection H as <-.
    pose proof (dlinit_None _ _ _ _ _ _ _ Ei) as Hh.
    destruct (dlinit_None_code _ _ _ _ _ _ _ Ei ltac:(lia)) as [Hc Hcode].
    cbn [heap calls globals free set_heap set_image] in *.
    rewrite Hh, release_head. repeat split; [exact Hc|].
    destruct Hcode as [->|[->| ->]]; cbn; auto 10. }
  destruct Hmain as (Hh & Hc & Hcode). repeat split; try assumption.
  unfold ErrorMessages.dlerror.
  destruct (SymbolMap._error_code (globals w')); cbn; eauto;
    exfalso; cbn in Hcode; intuition discriminate.
Qed.

Lemma dlopen_null_reports_error_witness :
  exists w',
    dlopen module_file RTLD_NOW HANDLE fresh (start (Some resolve_nothing))
    = Return None w' /\
    heap w' = heap (start (Some resolve_nothing)) /\
    calls w' = calls (start (Some resolve_nothing)) /\
    In (SymbolMap._error_code (globals w'))
       [ERR_FILE; ERR_FILE_MALLOC; ERR_FILE_READ;
        ERR_DLL_MALLOC; ERR_DLL_FORMAT; ERR_MAP_SYMBOL] /\
    exists message,
      ErrorMessages.dlerror (globals w')
      = Return (Some message) (SymbolMap.set_error ERR_NONE (globals w')).
Proof.
  eexists. split; [vm_compute; reflexivity|].
  refine (dlopen_null_reports_error module_file RTLD_NOW HANDLE fresh
            (start (Some resolve_nothing)) _ _).
  vm_compute. reflexivity.
Defined.

End LoaderBehaviour.
